(** * SQL mapping reviewer: identifier rewriting and diagnostics

    A shallow embedding of the rewriting and diagnostic core of
    [sql_mapping_dashboard.py] (class [SQLMappingReviewer]) and of
    [Streamlit_Dashboard.py] ([update_sql_with_mappings]).

    Python strings are modelled as [string]; the character tables follow
    Python on the ASCII range, and codes above 127 are treated as caseless
    characters that are neither word nor space characters.  Python's [re]
    module is modelled by a backtracking matcher over the constructs the
    program's patterns use, with the scanning loops of [re.search],
    [re.findall] and [re.sub]/[re.subn] (Python 3.7 and later) and the
    replacement-template parser (as in CPython 3.12).  The pattern
    compiler of [re] is not modelled: where the program pastes a name
    with pattern operators into a pattern without escaping it, the
    outcome of the search is a parameter of the development. *)

From Stdlib Require Import Strings.String Strings.Ascii Lists.List Arith.Arith
  Bool.Bool Lia.
Import ListNotations.

Open Scope list_scope.
Open Scope string_scope.

(** ** Characters *)

Module Chars.

Definition code (c : ascii) : nat := nat_of_ascii c.

Definition between (lo hi : nat) (c : ascii) : bool :=
  (lo <=? code c)%nat && (code c <=? hi)%nat.

Definition is_upper (c : ascii) : bool := between 65 90 c.
Definition is_lower (c : ascii) : bool := between 97 122 c.
Definition is_digit (c : ascii) : bool := between 48 57 c.
Definition is_octdigit (c : ascii) : bool := between 48 55 c.
Definition is_alpha (c : ascii) : bool := is_upper c || is_lower c.

(** [\w]: alphanumerics and the underscore. *)
Definition is_word (c : ascii) : bool :=
  is_alpha c || is_digit c || (code c =? 95)%nat.

(** [\s] and [str.isspace]: tab to carriage return, the four separators
    0x1c-0x1f, and the space. *)
Definition is_space (c : ascii) : bool := between 9 13 c || between 28 32 c.

Definition to_lower (c : ascii) : ascii :=
  if is_upper c then ascii_of_nat (code c + 32) else c.

Definition to_upper (c : ascii) : ascii :=
  if is_lower c then ascii_of_nat (code c - 32) else c.

Definition newline : ascii := ascii_of_nat 10.
Definition backslash : ascii := ascii_of_nat 92.

Definition digit_value (c : ascii) : nat := code c - 48.

End Chars.

(** ** String methods of Python used by the program *)

Module Str.
Import Chars.

Fixpoint map (f : ascii -> ascii) (s : string) : string :=
  match s with
  | EmptyString => EmptyString
  | String c s' => String (f c) (map f s')
  end.

(** [s.upper()] *)
Definition upper (s : string) : string := map to_upper s.

Fixpoint lstrip (s : string) : string :=
  match s with
  | EmptyString => EmptyString
  | String c s' => if is_space c then lstrip s' else s
  end.

Fixpoint rstrip (s : string) : string :=
  match s with
  | EmptyString => EmptyString
  | String c s' =>
      match rstrip s' with
      | EmptyString => if is_space c then EmptyString else String c EmptyString
      | r => String c r
      end
  end.

(** [s.strip()] *)
Definition strip (s : string) : string := rstrip (lstrip s).

(** [sub in s] *)
Fixpoint contains (sub s : string) : bool :=
  prefix sub s ||
  match s with
  | EmptyString => false
  | String _ s' => contains sub s'
  end.

(** [s.count(c)] for a one-character argument. *)
Fixpoint count (c : ascii) (s : string) : nat :=
  match s with
  | EmptyString => 0
  | String d s' => (if Ascii.eqb c d then 1 else 0) + count c s'
  end.

(** [s.split('\n')]: always at least one field. *)
Fixpoint split_lines (s : string) : list string :=
  match s with
  | EmptyString => [EmptyString]
  | String c s' =>
      if Ascii.eqb c newline then EmptyString :: split_lines s'
      else match split_lines s' with
           | [] => [String c EmptyString]
           | l :: ls => String c l :: ls
           end
  end.

(** ['\n'.join(lines)] *)
Fixpoint join_lines (ls : list string) : string :=
  match ls with
  | [] => EmptyString
  | [l] => l
  | l :: ls' => l ++ String newline (join_lines ls')
  end.

(** [s[n:]] *)
Fixpoint drop (n : nat) (s : string) : string :=
  match n, s with
  | O, _ => s
  | S n', String _ s' => drop n' s'
  | S _, EmptyString => EmptyString
  end.

(** [s[:n]] *)
Fixpoint take (n : nat) (s : string) : string :=
  match n, s with
  | O, _ => EmptyString
  | S n', String c s' => String c (take n' s')
  | S _, EmptyString => EmptyString
  end.

(** [bool(s)]: a string is truthy when it is not empty. *)
Definition truthy (s : string) : bool :=
  match s with EmptyString => false | _ => true end.

End Str.

(** ** The regular-expression engine *)

Module Re.
Import Chars.

(** Single-character matchers.  Every pattern of the program is compiled
    with [re.IGNORECASE], so a literal matches either case. *)
Inductive atom : Type :=
| AChar (c : ascii)   (* a literal character, as produced by [re.escape] *)
| AWord               (* [\w] *)
| ASpace              (* [\s] *)
| ADot                (* [.]: anything but a newline *)
| ALetter.            (* [[a-zA-Z_]] *)

Definition atom_matches (a : atom) (c : ascii) : bool :=
  match a with
  | AChar x => Ascii.eqb (to_lower x) (to_lower c)
  | AWord => is_word c
  | ASpace => is_space c
  | ADot => negb (Ascii.eqb c newline)
  | ALetter => is_alpha c || (code c =? 95)%nat
  end.

Inductive regex : Type :=
| Eps
| Atom (a : atom)
| Cat (r1 r2 : regex)
| Star (a : atom)          (* [a*], greedy *)
| StarLazy (a : atom)      (* [a*?] *)
| Plus (a : atom)          (* [a+], greedy *)
| WordB                    (* [\b] *)
| NotAfterWord             (* [(?<!\w)] *)
| Ahead (r : regex)        (* [(?=r)] *)
| NotAhead (r : regex)     (* [(?!r)] *)
| Group (r : regex).       (* [(r)], capturing group 1 *)

(** The literal pattern [re.escape(s)]. *)
Fixpoint lit (s : string) : regex :=
  match s with
  | EmptyString => Eps
  | String c s' => Cat (Atom (AChar c)) (lit s')
  end.

(** Matcher state: the character before the current position, the number
    of characters consumed since the start of the match, and the span of
    group 1 (offsets from the start of the match). *)
Record mstate : Type := MState {
  prev : option ascii;
  consumed : nat;
  grp : option (nat * nat)
}.

Definition advance (st : mstate) (c : ascii) : mstate :=
  MState (Some c) (S (consumed st)) (grp st).

Definition close_group (st0 st : mstate) : mstate :=
  MState (prev st) (consumed st) (Some (consumed st0, consumed st)).

Definition word_before (p : option ascii) : bool :=
  match p with Some c => is_word c | None => false end.

Definition word_here (s : string) : bool :=
  match s with String c _ => is_word c | EmptyString => false end.

(** [\b] holds where exactly one of the two neighbours is a word
    character. *)
Definition at_boundary (p : option ascii) (s : string) : bool :=
  xorb (word_before p) (word_here s).

Definition cont : Type := mstate -> string -> option mstate.

(** [a*] followed by [k]: take as many as possible, give back one at a
    time. *)
Fixpoint star_greedy (a : atom) (k : cont) (st : mstate) (s : string)
  : option mstate :=
  match s with
  | String c s' =>
      if atom_matches a c then
        match star_greedy a k (advance st c) s' with
        | Some r => Some r
        | None => k st s
        end
      else k st s
  | EmptyString => k st s
  end.

(** [a*?] followed by [k]: try [k] first, take one more on failure. *)
Fixpoint star_lazy (a : atom) (k : cont) (st : mstate) (s : string)
  : option mstate :=
  match k st s with
  | Some r => Some r
  | None =>
      match s with
      | String c s' =>
          if atom_matches a c then star_lazy a k (advance st c) s' else None
      | EmptyString => None
      end
  end.

Definition accept : cont := fun st _ => Some st.

Fixpoint rmatch (r : regex) (st : mstate) (s : string) (k : cont)
  : option mstate :=
  match r with
  | Eps => k st s
  | Atom a =>
      match s with
      | String c s' => if atom_matches a c then k (advance st c) s' else None
      | EmptyString => None
      end
  | Cat r1 r2 => rmatch r1 st s (fun st' s' => rmatch r2 st' s' k)
  | Star a => star_greedy a k st s
  | StarLazy a => star_lazy a k st s
  | Plus a =>
      match s with
      | String c s' =>
          if atom_matches a c then star_greedy a k (advance st c) s' else None
      | EmptyString => None
      end
  | WordB => if at_boundary (prev st) s then k st s else None
  | NotAfterWord => if word_before (prev st) then None else k st s
  | Ahead r' =>
      match rmatch r' st s accept with
      | Some _ => k st s
      | None => None
      end
  | NotAhead r' =>
      match rmatch r' st s accept with
      | Some _ => None
      | None => k st s
      end
  | Group r' => rmatch r' st s (fun st' s' => k (close_group st st') s')
  end.

(** One attempt of the engine at a position: [p] is the character before
    it, [s] the text from it.  With [must_advance] an empty match is
    refused and the engine backtracks. *)
Definition match_here (r : regex) (must_advance : bool) (p : option ascii)
  (s : string) : option mstate :=
  rmatch r (MState p 0 None) s
    (fun st _ =>
       if must_advance && (consumed st =? 0)%nat then None else Some st).

(** [re.search(r, text) is not None] *)
Fixpoint search_from (r : regex) (p : option ascii) (s : string) : bool :=
  match match_here r false p s with
  | Some _ => true
  | None =>
      match s with
      | EmptyString => false
      | String c s' => search_from r (Some c) s'
      end
  end.

Definition search (r : regex) (text : string) : bool :=
  search_from r None text.

(** [re.findall(r, text)] for a pattern without groups: the matched
    substrings, left to right, not overlapping.  [skip] counts the
    characters of the current match still to step over. *)
Fixpoint findall_scan (r : regex) (p : option ascii) (skip : nat)
  (s : string) : list string :=
  match skip with
  | S k =>
      match s with
      | EmptyString => []
      | String c s' => findall_scan r (Some c) k s'
      end
  | O =>
      match match_here r false p s with
      | Some st =>
          let m1 := Str.take (consumed st) s in
          match consumed st with
          | O =>
              match match_here r true p s with
              | Some st2 =>
                  let m2 := Str.take (consumed st2) s in
                  match s with
                  | EmptyString => [m1; m2]
                  | String c s' =>
                      m1 :: m2 ::
                        findall_scan r (Some c) (consumed st2 - 1) s'
                  end
              | None =>
                  match s with
                  | EmptyString => [m1]
                  | String c s' => m1 :: findall_scan r (Some c) 0 s'
                  end
              end
          | S k =>
              match s with
              | EmptyString => [m1]
              | String c s' => m1 :: findall_scan r (Some c) k s'
              end
          end
      | None =>
          match s with
          | EmptyString => []
          | String c s' => findall_scan r (Some c) 0 s'
          end
      end
  end.

Definition findall (r : regex) (text : string) : list string :=
  findall_scan r None 0 text.

(** *** Replacement templates *)

Inductive ttok : Type :=
| TChar (c : ascii)    (* a plain character *)
| TEsc (c : ascii).    (* a backslash and the character after it *)

(** The tokenizer of the template parser; a trailing lone backslash is an
    error. *)
Fixpoint tokenize (s : string) : option (list ttok) :=
  match s with
  | EmptyString => Some []
  | String c s' =>
      if Ascii.eqb c backslash then
        match s' with
        | EmptyString => None
        | String d s'' => option_map (cons (TEsc d)) (tokenize s'')
        end
      else option_map (cons (TChar c)) (tokenize s')
  end.

Inductive piece : Type :=
| PLit (c : ascii)
| PGroup (n : nat).

Definition escape_code (c : ascii) : option nat :=
  match code c with
  | 97 => Some 7     (* \a *)
  | 98 => Some 8     (* \b *)
  | 102 => Some 12   (* \f *)
  | 110 => Some 10   (* \n *)
  | 114 => Some 13   (* \r *)
  | 116 => Some 9    (* \t *)
  | 118 => Some 11   (* \v *)
  | 92 => Some 92    (* \\ *)
  | _ => None
  end.

(** [int(name)] for a name made of ASCII decimal digits; [None] for any
    other name. *)
Fixpoint decimal_name (acc : nat) (name : list ttok) : option nat :=
  match name with
  | [] => Some acc
  | TChar c :: name' =>
      if is_digit c then decimal_name (10 * acc + digit_value c) name'
      else None
  | TEsc _ :: _ => None
  end.

Definition tchar_digit (t : ttok) : option ascii :=
  match t with
  | TChar c => if is_digit c then Some c else None
  | TEsc _ => None
  end.

Definition tchar_octdigit (t : ttok) : option ascii :=
  match t with
  | TChar c => if is_octdigit c then Some c else None
  | TEsc _ => None
  end.

(** [parse_template]: [groups] is the number of groups of the pattern,
    none of them named.  [name] is [Some acc] while the name of a
    [\g<...>] reference is being read. *)
Fixpoint parse_tokens (groups : nat) (name : option (list ttok))
  (ts : list ttok) : option (list piece) :=
  match name with
  | Some acc =>
      match ts with
      | [] => None
      | t :: ts' =>
          match t with
          | TChar c =>
              if Ascii.eqb c ">" then
                match acc with
                | [] => None
                | _ =>
                    match decimal_name 0 acc with
                    | Some n =>
                        if (n <=? groups)%nat then
                          option_map (cons (PGroup n))
                            (parse_tokens groups None ts')
                        else None
                    | None => None
                    end
                end
              else parse_tokens groups (Some (acc ++ [t])%list) ts'
          | TEsc _ => parse_tokens groups (Some (acc ++ [t])%list) ts'
          end
      end
  | None =>
      match ts with
      | [] => Some []
      | TChar c :: ts' =>
          option_map (cons (PLit c)) (parse_tokens groups None ts')
      | TEsc c :: ts' =>
          if Ascii.eqb c "g" then
            match ts' with
            | TChar d :: ts'' =>
                if Ascii.eqb d "<" then parse_tokens groups (Some []) ts''
                else None
            | _ => None
            end
          else if Ascii.eqb c "0" then
            match ts' with
            | t1 :: ts1 =>
                match tchar_octdigit t1 with
                | Some d1 =>
                    match ts1 with
                    | t2 :: ts2 =>
                        match tchar_octdigit t2 with
                        | Some d2 =>
                            option_map
                              (cons (PLit (ascii_of_nat
                                 ((8 * digit_value d1 + digit_value d2)
                                  mod 256))))
                              (parse_tokens groups None ts2)
                        | None =>
                            option_map
                              (cons (PLit (ascii_of_nat (digit_value d1))))
                              (parse_tokens groups None ts1)
                        end
                    | [] => Some [PLit (ascii_of_nat (digit_value d1))]
                    end
                | None =>
                    option_map (cons (PLit (ascii_of_nat 0)))
                      (parse_tokens groups None ts')
                end
            | [] => Some [PLit (ascii_of_nat 0)]
            end
          else if is_digit c then
            let single :=
              if (digit_value c <=? groups)%nat then
                option_map (cons (PGroup (digit_value c)))
                  (parse_tokens groups None ts')
              else None in
            match ts' with
            | t1 :: ts1 =>
                match tchar_digit t1 with
                | Some d1 =>
                    let two := 10 * digit_value c + digit_value d1 in
                    let double :=
                      if (two <=? groups)%nat then
                        option_map (cons (PGroup two))
                          (parse_tokens groups None ts1)
                      else None in
                    match ts1 with
                    | t2 :: ts2 =>
                        match tchar_octdigit t2 with
                        | Some d2 =>
                            if is_octdigit c && is_octdigit d1 then
                              let v := 64 * digit_value c
                                       + 8 * digit_value d1
                                       + digit_value d2 in
                              if (v <=? 255)%nat then
                                option_map (cons (PLit (ascii_of_nat v)))
                                  (parse_tokens groups None ts2)
                              else None
                            else double
                        | None => double
                        end
                    | [] => double
                    end
                | None => single
                end
            | [] => single
            end
          else
            match escape_code c with
            | Some n =>
                option_map (cons (PLit (ascii_of_nat n)))
                  (parse_tokens groups None ts')
            | None =>
                if is_alpha c then None
                else
                  option_map (fun ps => PLit backslash :: PLit c :: ps)
                    (parse_tokens groups None ts')
            end
      end
  end.

Definition parse_template (groups : nat) (tpl : string)
  : option (list piece) :=
  match tokenize tpl with
  | Some ts => parse_tokens groups None ts
  | None => None
  end.

(** The text a parsed template stands for at a match that starts at [s]
    and ended in state [st]. *)
Fixpoint expand (ps : list piece) (s : string) (st : mstate) : string :=
  match ps with
  | [] => EmptyString
  | PLit c :: ps' => String c (expand ps' s st)
  | PGroup 0 :: ps' => Str.take (consumed st) s ++ expand ps' s st
  | PGroup (S _) :: ps' =>
      match grp st with
      | Some (a, b) => Str.take (b - a) (Str.drop a s) ++ expand ps' s st
      | None => expand ps' s st
      end
  end.

(** The loop of [re.subn]: the rewritten text and the number of
    substitutions made. *)
Fixpoint subn_scan (r : regex) (ps : list piece) (p : option ascii)
  (skip : nat) (s : string) : string * nat :=
  match skip with
  | S k =>
      match s with
      | EmptyString => (EmptyString, 0)
      | String c s' => subn_scan r ps (Some c) k s'
      end
  | O =>
      match match_here r false p s with
      | Some st =>
          let o1 := expand ps s st in
          match consumed st with
          | O =>
              match match_here r true p s with
              | Some st2 =>
                  let o2 := expand ps s st2 in
                  match s with
                  | EmptyString => (o1 ++ o2, 2)
                  | String c s' =>
                      let (o, n) :=
                        subn_scan r ps (Some c) (consumed st2 - 1) s' in
                      (o1 ++ o2 ++ o, 2 + n)
                  end
              | None =>
                  match s with
                  | EmptyString => (o1, 1)
                  | String c s' =>
                      let (o, n) := subn_scan r ps (Some c) 0 s' in
                      (o1 ++ String c o, 1 + n)
                  end
              end
          | S k =>
              match s with
              | EmptyString => (o1, 1)
              | String c s' =>
                  let (o, n) := subn_scan r ps (Some c) k s' in
                  (o1 ++ o, 1 + n)
              end
          end
      | None =>
          match s with
          | EmptyString => (EmptyString, 0)
          | String c s' =>
              let (o, n) := subn_scan r ps (Some c) 0 s' in
              (String c o, n)
          end
      end
  end.

(** [re.subn(r, tpl, text)]; [None] when the template is rejected
    ([re.error]).  [groups] is the number of groups in [r]. *)
Definition subn (groups : nat) (r : regex) (tpl : string) (text : string)
  : option (string * nat) :=
  match parse_template groups tpl with
  | Some ps => Some (subn_scan r ps None 0 text)
  | None => None
  end.

(** [re.sub(r, tpl, text)] *)
Definition sub (groups : nat) (r : regex) (tpl : string) (text : string)
  : option string :=
  option_map fst (subn groups r tpl text).

End Re.

(** ** Python dictionaries

    A [dict] keeps its keys in insertion order; assigning to a key that
    is present replaces the value in place. *)

Module Dict.

Section Dict.
Context {V : Type}.

Fixpoint set (k : string) (v : V) (d : list (string * V))
  : list (string * V) :=
  match d with
  | [] => [(k, v)]
  | (k', v') :: d' =>
      if String.eqb k k' then (k, v) :: d' else (k', v') :: set k v d'
  end.

Fixpoint get (k : string) (d : list (string * V)) : option V :=
  match d with
  | [] => None
  | (k', v') :: d' => if String.eqb k k' then Some v' else get k d'
  end.

(** [d[k] = v] for an item [(k, v)] *)
Definition put (d : list (string * V)) (kv : string * V)
  : list (string * V) :=
  set (fst kv) (snd kv) d.

(** [dict(items)]: later items overwrite earlier ones. *)
Definition of_items (items : list (string * V)) : list (string * V) :=
  fold_left put items [].

Definition keys (d : list (string * V)) : list string := List.map fst d.

End Dict.

End Dict.

Definition table_dict : Type := list (string * string).
Definition column_dict : Type := list (string * list (string * string)).

(** ** The part of pandas used to load the mapping sheets

    A frame is a list of column labels and rows of cells; a cell holds a
    Python string or is missing ([NaN]); columns have object dtype. *)

Module Pandas.

Inductive cell : Type :=
| NaN
| Str (s : string).

Record DataFrame : Type := Frame {
  columns : list string;
  data : list (list cell)
}.

Inductive exn : Type :=
| KeyError (labels : list string)
| AttributeError (msg : string).

Definition py_repr (s : string) : string := "'" ++ s ++ "'".

Fixpoint repr_list (ls : list string) : string :=
  match ls with
  | [] => ""
  | [l] => py_repr l
  | l :: ls' => py_repr l ++ ", " ++ repr_list ls'
  end.

(** [str(e)] *)
Definition exn_str (e : exn) : string :=
  match e with
  | KeyError labels => "[" ++ repr_list labels ++ "]"
  | AttributeError msg => msg
  end.

Definition isna (c : cell) : bool :=
  match c with NaN => true | Str _ => false end.

Fixpoint positions_from (i : nat) (label : string) (cols : list string)
  : list nat :=
  match cols with
  | [] => []
  | c :: cols' =>
      if String.eqb label c then i :: positions_from (S i) label cols'
      else positions_from (S i) label cols'
  end.

Definition positions (label : string) (df : DataFrame) : list nat :=
  positions_from 0 label (columns df).

Definition has_column (label : string) (df : DataFrame) : bool :=
  existsb (String.eqb label) (columns df).

Definition cell_at (row : list cell) (i : nat) : cell := nth i row NaN.

(** [df.columns = labels] *)
Definition set_columns (labels : list string) (df : DataFrame)
  : DataFrame :=
  Frame labels (data df).

(** [df.dropna(subset=labels)] *)
Definition dropna (subset : list string) (df : DataFrame)
  : exn + DataFrame :=
  match filter (fun l => negb (has_column l df)) subset with
  | [] =>
      inr (Frame (columns df)
             (filter
                (fun row =>
                   forallb
                     (fun l =>
                        forallb (fun i => negb (isna (cell_at row i)))
                          (positions l df))
                     subset)
                (data df)))
  | missing => inl (KeyError missing)
  end.

Fixpoint update_nth (i : nat) (f : cell -> cell) (row : list cell)
  : list cell :=
  match i, row with
  | _, [] => []
  | O, c :: row' => f c :: row'
  | S i', c :: row' => c :: update_nth i' f row'
  end.

Definition strip_cell (c : cell) : cell :=
  match c with
  | NaN => NaN
  | Str s => Str (Str.strip s)
  end.

(** [df[label] = df[label].str.strip()] *)
Definition str_strip (label : string) (df : DataFrame) : exn + DataFrame :=
  match positions label df with
  | [] => inl (KeyError [label])
  | [i] => inr (Frame (columns df) (List.map (update_nth i strip_cell) (data df)))
  | _ :: _ :: _ =>
      inl (AttributeError "'DataFrame' object has no attribute 'str'")
  end.

Definition column_pos (label : string) (df : DataFrame) : nat :=
  match positions label df with
  | i :: _ => i
  | [] => 0
  end.

(** The (index, value) items of [df.set_index(key)[value]]; no missing
    value is left in either column once [dropna] has run. *)
Definition items (key value : string) (df : DataFrame)
  : list (string * string) :=
  let ik := column_pos key df in
  let iv := column_pos value df in
  flat_map
    (fun row =>
       match cell_at row ik, cell_at row iv with
       | Str k, Str v => [(k, v)]
       | _, _ => []
       end)
    (data df).

(** [df.set_index(key)[value].to_dict()] *)
Definition to_dict (key value : string) (df : DataFrame) : table_dict :=
  Dict.of_items (items key value df).

Fixpoint insert_sorted (k : string) (ks : list string) : list string :=
  match ks with
  | [] => [k]
  | k' :: ks' =>
      if String.eqb k k' then ks
      else if String.ltb k k' then k :: ks
      else k' :: insert_sorted k ks'
  end.

(** The group keys of [df.groupby(label)]: distinct, in ascending
    order. *)
Definition group_keys (label : string) (df : DataFrame) : list string :=
  let i := column_pos label df in
  fold_left
    (fun ks row =>
       match cell_at row i with
       | Str k => insert_sorted k ks
       | NaN => ks
       end)
    (data df) [].

Definition group_rows (label key : string) (df : DataFrame) : DataFrame :=
  let i := column_pos label df in
  Frame (columns df)
    (filter
       (fun row =>
          match cell_at row i with
          | Str k => String.eqb k key
          | NaN => false
          end)
       (data df)).

(** [df.groupby(label).apply(lambda x:
      x.set_index(key)[value].to_dict(), include_groups=False).to_dict()].
    With at least one group, [apply] gives a series of dictionaries
    indexed by the group keys.  With no group it gives an empty frame
    with the columns of [df] other than [label], and [to_dict] of that
    frame has an empty dictionary under each column label. *)
Definition grouped_to_dict (label key value : string) (df : DataFrame)
  : column_dict :=
  match group_keys label df with
  | [] =>
      Dict.of_items
        (List.map (fun c => (c, []))
           (filter (fun c => negb (String.eqb c label)) (columns df)))
  | keys =>
      List.map (fun g => (g, to_dict key value (group_rows label g df)))
        keys
  end.

End Pandas.

(** ** sqlparse

    [sqlparse] is a third-party package; the program looks only at the
    shape of what [sqlparse.parse] returns, which is what this type
    records. *)

Module Sqlparse.

Inductive sublist : Type :=
| Comparison (left right : option string)
| OtherSublist.

Inductive token : Type :=
| Identifier (normalized : string)
| Where (sublists : list sublist)
| OtherToken.

Definition statement : Type := list token.

Inductive parse_result : Type :=
| ParseError (msg : string)
| Parsed (stmts : list statement).


End Sqlparse.

(** ** [SQLMappingReviewer] *)

Module Reviewer.
Import Re.

(** What the attributes [table_mappings] and [column_mappings] can hold:
    [None] after [__init__], a frame while the sheets are being cleaned,
    a dictionary once they are loaded. *)
Inductive mapping_field : Type :=
| Unset
| AFrame (df : Pandas.DataFrame)
| TableMap (d : table_dict)
| ColumnMap (d : column_dict).

Record reviewer : Type := Build {
  table_mappings : mapping_field;
  column_mappings : mapping_field;
  review_comments : list string
}.

(** [SQLMappingReviewer()] *)
Definition init : reviewer := Build Unset Unset [].

(** *** Loading: statements that update [self] and may raise *)

Definition Load (A : Type) : Type :=
  reviewer -> reviewer * (Pandas.exn + A).

Definition ret {A} (a : A) : Load A := fun self => (self, inr a).

Definition bind {A B} (c : Load A) (f : A -> Load B) : Load B :=
  fun self =>
    match c self with
    | (self', inl e) => (self', inl e)
    | (self', inr a) => f a self'
    end.

Definition lift {A} (r : Pandas.exn + A) : Load A := fun self => (self, r).

Definition set_table_mappings (f : mapping_field) : Load unit :=
  fun self => (Build f (column_mappings self) (review_comments self), inr tt).

Definition set_column_mappings (f : mapping_field) : Load unit :=
  fun self => (Build (table_mappings self) f (review_comments self), inr tt).

Notation "x <- c1 ;; c2" := (bind c1 (fun x => c2))
  (at level 61, c1 at next level, right associativity).
Notation "c1 ;; c2" := (bind c1 (fun _ => c2))
  (at level 61, right associativity).

Definition strip_labels (df : Pandas.DataFrame) : Pandas.DataFrame :=
  Pandas.set_columns (List.map Str.strip (Pandas.columns df)) df.

(** The body of the [try] block of [load_mappings_from_dataframe]. *)
Definition load_body (table_df column_df : Pandas.DataFrame) : Load unit :=
  set_table_mappings (AFrame table_df) ;;
  let t0 := strip_labels table_df in
  set_table_mappings (AFrame t0) ;;
  t1 <- lift (Pandas.dropna ["OldTableName"; "NewTableName"] t0) ;;
  set_table_mappings (AFrame t1) ;;
  t2 <- lift (Pandas.str_strip "OldTableName" t1) ;;
  set_table_mappings (AFrame t2) ;;
  t3 <- lift (Pandas.str_strip "NewTableName" t2) ;;
  set_table_mappings (AFrame t3) ;;
  set_column_mappings (AFrame column_df) ;;
  let c0 := strip_labels column_df in
  set_column_mappings (AFrame c0) ;;
  c1 <- lift (Pandas.dropna
                ["TableName"; "OldColumnName"; "NewColumnName"] c0) ;;
  set_column_mappings (AFrame c1) ;;
  c2 <- lift (Pandas.str_strip "TableName" c1) ;;
  set_column_mappings (AFrame c2) ;;
  c3 <- lift (Pandas.str_strip "OldColumnName" c2) ;;
  set_column_mappings (AFrame c3) ;;
  c4 <- lift (Pandas.str_strip "NewColumnName" c3) ;;
  set_column_mappings (AFrame c4) ;;
  set_table_mappings
    (TableMap (Pandas.to_dict "OldTableName" "NewTableName" t3)) ;;
  set_column_mappings
    (ColumnMap (Pandas.grouped_to_dict "TableName" "OldColumnName"
                  "NewColumnName" c4)).

Definition load_failure (e : Pandas.exn) : string :=
  "CRITICAL: Failed to load mappings - " ++ Pandas.exn_str e.

(** [load_mappings_from_dataframe]: the reviewer afterwards and the
    value returned. *)
Definition load_mappings_from_dataframe (self : reviewer)
  (table_df column_df : Pandas.DataFrame) : reviewer * bool :=
  match load_body table_df column_df self with
  | (self', inr _) => (self', true)
  | (self', inl e) =>
      (Build (table_mappings self') (column_mappings self')
         (review_comments self' ++ [load_failure e])%list,
       false)
  end.

(** *** The patterns built by the methods *)

(** [rf'\b{re.escape(name)}\b'] *)
Definition bounded (name : string) : regex :=
  Cat WordB (Cat (lit name) WordB).

(** [rf'(?<!\w){re.escape(name)}(?!\w)'] *)
Definition delimited (name : string) : regex :=
  Cat NotAfterWord (Cat (lit name) (NotAhead (Atom AWord))).

(** [rf'(?<!\w){re.escape(table)}\.{re.escape(old_col)}(?!\w)'] *)
Definition qualified_by_table (table old_col : string) : regex :=
  Cat NotAfterWord
    (Cat (lit table)
       (Cat (Atom (AChar "."))
          (Cat (lit old_col) (NotAhead (Atom AWord))))).

(** The characters that are operators of the pattern language outside
    a character set, the dot apart. *)
Definition is_operator (c : ascii) : bool :=
  existsb (Ascii.eqb c)
    ["^"; "$"; "*"; "+"; "?"; "{"; "["; Chars.backslash; "|"; "("; ")"]%char.

Fixpoint no_operator (s : string) : bool :=
  match s with
  | EmptyString => true
  | String c s' => negb (is_operator c) && no_operator s'
  end.

(** A name without operators read as a pattern: every character stands
    for itself, except the dot, which stands for any character but a
    newline. *)
Fixpoint paste (name : string) : regex :=
  match name with
  | EmptyString => Eps
  | String c name' =>
      Cat (Atom (if Ascii.eqb c "." then ADot else AChar c)) (paste name')
  end.

(** A name pasted into a pattern without [re.escape]: [None] when it
    has an operator of the pattern language.  The pattern is then
    whatever the pattern compiler of [re] makes of the text, and the
    outcome of the search is read from [text_search] below. *)
Definition unescaped (name : string) : option regex :=
  if no_operator name then Some (paste name) else None.

(** [re.search(pattern, text, re.IGNORECASE) is not None] for a pattern
    given as text; [None] when [re] rejects the pattern ([re.error]).
    The pattern compiler of [re] is not modelled beyond the patterns
    built in this section: the program is verified for any behaviour of
    it on the other pattern texts. *)
Definition text_search : Type := string -> string -> option bool.

(** [re.escape(s)] as a text: a backslash before each of the characters
    [()[]{}?*+-|^$\.&~#] and before white space. *)
Definition is_escaped (c : ascii) : bool :=
  existsb (Nat.eqb (Chars.code c))
    [40; 41; 91; 93; 123; 125; 63; 42; 43; 45; 124; 94; 36; 92; 46; 38;
     126; 35; 32; 9; 10; 13; 11; 12].

Fixpoint escape (s : string) : string :=
  match s with
  | EmptyString => EmptyString
  | String c s' =>
      if is_escaped c then String Chars.backslash (String c (escape s'))
      else String c (escape s')
  end.

(** The text
    [rf'(?<!\w){re.escape(old_col)}(?!\w)(?=.*?\bFROM\b.*?\b{table}\b)']. *)
Definition unqualified_text (old_col table : string) : string :=
  "(?<!\w)" ++ escape old_col ++ "(?!\w)(?=.*?\bFROM\b.*?\b" ++ table
  ++ "\b)".

(** [rf'(?<!\w){re.escape(old_col)}(?!\w)(?=.*?\bFROM\b.*?\b{table}\b)'],
    [table] being the pattern pasted in. *)
Definition unqualified_before_from (old_col : string) (table : regex)
  : regex :=
  Cat NotAfterWord
    (Cat (lit old_col)
       (Cat (NotAhead (Atom AWord))
          (Ahead
             (Cat (StarLazy ADot)
                (Cat WordB
                   (Cat (lit "FROM")
                      (Cat WordB
                         (Cat (StarLazy ADot)
                            (Cat WordB (Cat table WordB)))))))))).

(** [rf'\b(G)\.{re.escape(old_col)}\b'] with [G] the group of a letter or underscore followed by word characters, [[a-zA-Z_]\w*]. *)
Definition alias_replace_pattern (old_col : string) : regex :=
  Cat WordB
    (Cat (Group (Cat (Atom ALetter) (Star AWord)))
       (Cat (Atom (AChar ".")) (Cat (lit old_col) WordB))).

(** [rf'\1.{new_col}'] *)
Definition alias_template (new_col : string) : string :=
  String Chars.backslash ("1." ++ new_col).

(** [rf'\bFROM\b.*\b{re.escape(old_table_name)}\b'] *)
Definition from_table_pattern (old_table_name : string) : regex :=
  Cat WordB
    (Cat (lit "FROM")
       (Cat WordB
          (Cat (Star ADot) (Cat WordB (Cat (lit old_table_name) WordB))))).

(** [rf'\b{re.escape(old_col)}\b(?!\s*\()'] *)
Definition standalone_pattern (old_col : string) : regex :=
  Cat WordB
    (Cat (lit old_col)
       (Cat WordB (NotAhead (Cat (Star ASpace) (Atom (AChar "(")))))).

(** [rf'\w+\.{re.escape(old_col)}\b'] *)
Definition any_qualified (old_col : string) : regex :=
  Cat (Plus AWord) (Cat (Atom (AChar ".")) (Cat (lit old_col) WordB)).

(** *** [_validate_sql_structure] and [_check_semantics] *)

(** What a call of a method does: it returns a value or lets an exception
    escape. *)
Inductive call (A : Type) : Type :=
| Returns (a : A)
| Escapes.
Arguments Returns {A} a.
Arguments Escapes {A}.

Section WithParser.

Variable sqlparse_parse : string -> Sqlparse.parse_result.

Definition _validate_sql_structure (sql_content : string) : list string :=
  match sqlparse_parse sql_content with
  | Sqlparse.ParseError msg => ["CRITICAL: SQL Parsing Failed - " ++ msg]
  | Sqlparse.Parsed [] => ["ERROR: Empty SQL file"]
  | Sqlparse.Parsed (_ :: _) =>
      ((if Str.contains "SELECT" (Str.upper sql_content) then []
        else ["ERROR: Missing SELECT clause"])
       ++ (if Str.contains "FROM" (Str.upper sql_content) then []
           else ["ERROR: Missing FROM clause"])
       ++ (if Nat.eqb (Str.count "(" sql_content) (Str.count ")" sql_content)
           then []
           else ["ERROR: Unbalanced parentheses"]))%list
  end.

(** The body of the [try] block of [_check_semantics] threads the list
    [issues]; a statement that raises leaves the list as it is at that
    point and abandons the rest. *)
Inductive outcome : Type :=
| Done
| Raised.

Definition Try : Type := list string -> list string * outcome.

Definition and_then (c1 c2 : Try) : Try :=
  fun issues =>
    match c1 issues with
    | (issues', Done) => c2 issues'
    | (issues', Raised) => (issues', Raised)
    end.

Definition skip : Try := fun issues => (issues, Done).
Definition raise : Try := fun issues => (issues, Raised).
Definition append (msg : string) : Try :=
  fun issues => ((issues ++ [msg])%list, Done).

Fixpoint for_each {A} (f : A -> Try) (xs : list A) : Try :=
  match xs with
  | [] => skip
  | x :: xs' => and_then (f x) (for_each f xs')
  end.

Definition check_join (t : Sqlparse.token) : Try :=
  match t with
  | Sqlparse.Identifier normalized =>
      if Str.contains "JOIN" normalized then
        if Str.contains "ON" normalized then skip
        else append "WARNING: JOIN without ON clause detected"
      else skip
  | _ => skip
  end.

Definition date_like (left : string) : bool :=
  existsb (fun kw => Str.contains kw (Str.upper left))
    ["DATE"; "TIME"; "TIMESTAMP"].

Definition check_comparison (c : Sqlparse.sublist) : Try :=
  match c with
  | Sqlparse.Comparison l r =>
      match l with
      | None => raise
      | Some lv =>
          match r with
          | None => raise
          | Some rv =>
              let left := Str.strip lv in
              let right := Str.strip rv in
              if Str.contains "'" right && negb (date_like left) then
                append ("WARNING: Possible string-to-other type comparison: "
                        ++ left ++ " = " ++ right)
              else skip
          end
      end
  | Sqlparse.OtherSublist => skip
  end.

Definition check_where (t : Sqlparse.token) : Try :=
  match t with
  | Sqlparse.Where sublists => for_each check_comparison sublists
  | _ => skip
  end.

Definition semantics_body (sql_content : string) : Try :=
  match sqlparse_parse sql_content with
  | Sqlparse.ParseError _ => raise
  | Sqlparse.Parsed [] => raise          (* [parsed[0]]: IndexError *)
  | Sqlparse.Parsed (parsed :: _) =>
      and_then (for_each check_join parsed) (for_each check_where parsed)
  end.

(** [try: body except: pass] followed by [return issues]. *)
Definition _check_semantics (sql_content : string) : call (list string) :=
  match semantics_body sql_content [] with
  | (issues, Done) => Returns issues
  | (issues, Raised) => Returns issues
  end.

End WithParser.

(** *** [_check_mappings] *)

Definition table_issue (old_table new_table : string) : string :=
  "TABLE MAPPING: '" ++ old_table ++ "' -> Should be '" ++ new_table ++ "'".

Definition column_issue (old_col new_col table : string) : string :=
  "COLUMN MAPPING: '" ++ old_col ++ "' -> Should be '" ++ new_col
  ++ "' (in table '" ++ table ++ "')".

Definition table_checks (tm : table_dict) (sql_content : string)
  : list string :=
  flat_map
    (fun kv =>
       if search (delimited (fst kv)) sql_content
       then [table_issue (fst kv) (snd kv)] else [])
    tm.

(** [any(re.search(p, sql_content, re.IGNORECASE) for p in patterns)]:
    the second pattern is compiled only when the first finds nothing;
    [None] when it is rejected ([re.error]). *)
Definition column_hit (re_search : text_search)
  (table old_col sql_content : string) : option bool :=
  if search (qualified_by_table table old_col) sql_content then Some true
  else
    match unescaped table with
    | Some t => Some (search (unqualified_before_from old_col t) sql_content)
    | None => re_search (unqualified_text old_col table) sql_content
    end.

Fixpoint column_checks_for (re_search : text_search) (table : string)
  (cols : list (string * string)) (sql_content : string)
  (issues : list string) : option (list string) :=
  match cols with
  | [] => Some issues
  | (old_col, new_col) :: cols' =>
      match column_hit re_search table old_col sql_content with
      | Some true =>
          column_checks_for re_search table cols' sql_content
            (issues ++ [column_issue old_col new_col table])%list
      | Some false =>
          column_checks_for re_search table cols' sql_content issues
      | None => None
      end
  end.

Fixpoint column_checks (re_search : text_search) (cm : column_dict)
  (sql_content : string) (issues : list string) : option (list string) :=
  match cm with
  | [] => Some issues
  | (table, cols) :: cm' =>
      match column_checks_for re_search table cols sql_content issues with
      | Some issues' => column_checks re_search cm' sql_content issues'
      | None => None
      end
  end.

(** [_check_mappings]; [None] when a pattern is rejected and [re.error]
    leaves the method. *)
Definition _check_mappings (re_search : text_search) (tm : table_dict)
  (cm : column_dict) (sql_content : string) : option (list string) :=
  column_checks re_search cm sql_content (table_checks tm sql_content).

(** [analyze_sql_content]: the three phases in order; [None] when
    [_check_mappings] does not return. *)
Definition analyze_sql_content
  (sqlparse_parse : string -> Sqlparse.parse_result)
  (re_search : text_search)
  (tm : table_dict) (cm : column_dict) (sql_content filename : string)
  : option (list string) :=
  let syntax_issues := _validate_sql_structure sqlparse_parse sql_content in
  match _check_mappings re_search tm cm sql_content with
  | Some mapping_issues =>
      match _check_semantics sqlparse_parse sql_content with
      | Returns semantic_issues =>
          Some (syntax_issues ++ mapping_issues ++ semantic_issues)%list
      | Escapes => None
      end
  | None => None
  end.

(** *** The correction engine *)

(** [_apply_table_mappings]; [None] when [re.sub] rejects a new name as
    a template. *)
Fixpoint _apply_table_mappings (tm : table_dict) (sql_content : string)
  : option string :=
  match tm with
  | [] => Some sql_content
  | (old_table, new_table) :: tm' =>
      match sub 0 (bounded old_table) new_table sql_content with
      | Some corrected => _apply_table_mappings tm' corrected
      | None => None
      end
  end.

(** The loop over the lines for one column rule. *)
Fixpoint rewrite_lines (old_col new_col : string) (lines : list string)
  : option (list string) :=
  match lines with
  | [] => Some []
  | line :: lines' =>
      let line' :=
        if search (standalone_pattern old_col) line then
          if search (any_qualified old_col) line then Some line
          else sub 0 (standalone_pattern old_col) new_col line
        else Some line in
      match line' with
      | Some l =>
          match rewrite_lines old_col new_col lines' with
          | Some ls => Some (l :: ls)
          | None => None
          end
      | None => None
      end
  end.

(** One iteration of the loop over the columns of a table. *)
Definition apply_column_rule (old_table_name old_col new_col : string)
  (content : string) : option string :=
  match sub 1 (alias_replace_pattern old_col) (alias_template new_col)
          content with
  | Some content1 =>
      if search (from_table_pattern old_table_name) content1 then
        match rewrite_lines old_col new_col (Str.split_lines content1) with
        | Some lines => Some (Str.join_lines lines)
        | None => None
        end
      else Some content1
  | None => None
  end.

Fixpoint apply_column_rules (old_table_name : string)
  (cols : list (string * string)) (content : string) : option string :=
  match cols with
  | [] => Some content
  | (old_col, new_col) :: cols' =>
      match apply_column_rule old_table_name old_col new_col content with
      | Some content' => apply_column_rules old_table_name cols' content'
      | None => None
      end
  end.

(** [{v: k for k, v in old_to_new_tables.items()}] *)
Definition new_to_old_tables (tm : table_dict) : table_dict :=
  Dict.of_items (List.map (fun kv => (snd kv, fst kv)) tm).

Fixpoint apply_column_groups (new_to_old : table_dict) (cm : column_dict)
  (content : string) : option string :=
  match cm with
  | [] => Some content
  | (new_table_name, cols) :: cm' =>
      match Dict.get new_table_name new_to_old with
      | Some old_table_name =>
          if Str.truthy old_table_name then
            match apply_column_rules old_table_name cols content with
            | Some content' => apply_column_groups new_to_old cm' content'
            | None => None
            end
          else apply_column_groups new_to_old cm' content
      | None => apply_column_groups new_to_old cm' content
      end
  end.

Definition _apply_column_mappings (tm : table_dict) (cm : column_dict)
  (sql_content : string) : option string :=
  apply_column_groups (new_to_old_tables tm) cm sql_content.

Definition apply_corrections (tm : table_dict) (cm : column_dict)
  (sql_content : string) : option string :=
  match _apply_table_mappings tm sql_content with
  | Some corrected_content => _apply_column_mappings tm cm corrected_content
  | None => None
  end.

End Reviewer.

(** ** [Streamlit_Dashboard.update_sql_with_mappings] *)

Module Flat.
Import Re.

(** A row of the mapping sheet; only [old_name] and [new_name] are
    read. *)
Record row : Type := Row {
  old_name : Pandas.cell;
  new_name : Pandas.cell
}.

Record change : Type := Change {
  old : string;
  new : string;
  occurrences : nat
}.

(** [str(cell)] *)
Definition py_str (c : Pandas.cell) : string :=
  match c with
  | Pandas.NaN => "nan"
  | Pandas.Str s => s
  end.

(** [mapping_df['old_name'].str.len()]: missing stays missing. *)
Definition name_length (r : row) : option nat :=
  match old_name r with
  | Pandas.NaN => None
  | Pandas.Str s => Some (String.length s)
  end.

(** [r1] stays before [r2] in the descending order, missing lengths
    last. *)
Definition stays_before (r1 r2 : row) : bool :=
  match name_length r1, name_length r2 with
  | Some n1, Some n2 => (n2 <=? n1)%nat
  | Some _, None => true
  | None, Some _ => false
  | None, None => true
  end.

Fixpoint insert_row (r : row) (sorted : list row) : list row :=
  match sorted with
  | [] => [r]
  | r' :: sorted' =>
      if stays_before r' r then r' :: insert_row r sorted'
      else r :: sorted
  end.

(** [mapping_df.sort_values('name_length', ascending=False)], rows of
    equal length kept in their order. *)
Definition sort_values (rows : list row) : list row :=
  fold_left (fun sorted r => insert_row r sorted) rows [].

(** [rf'\b' + re.escape(old_name) + r'\b'] *)
Definition pattern (old_name : string) : regex :=
  Cat WordB (Cat (lit old_name) WordB).

(** One iteration of the loop over the rows. *)
Definition update_row (state : string * list change) (r : row)
  : option (string * list change) :=
  let (updated_sql, changes_made) := state in
  let old_name := Str.strip (py_str (old_name r)) in
  let new_name := Str.strip (py_str (new_name r)) in
  if Str.truthy old_name && Str.truthy new_name
     && negb (String.eqb old_name new_name) then
    let count := List.length (findall (pattern old_name) updated_sql) in
    if (0 <? count)%nat then
      match sub 0 (pattern old_name) new_name updated_sql with
      | Some updated_sql' =>
          Some (updated_sql',
                (changes_made ++ [Change old_name new_name count])%list)
      | None => None
      end
    else Some state
  else Some state.

Fixpoint update_rows (state : string * list change) (rows : list row)
  : option (string * list change) :=
  match rows with
  | [] => Some state
  | r :: rows' =>
      match update_row state r with
      | Some state' => update_rows state' rows'
      | None => None
      end
  end.

(** [update_sql_with_mappings]; [None] when [re.sub] rejects a new name
    as a template. *)
Definition update_sql_with_mappings (sql_content : string)
  (mapping_df : list row) : option (string * list change) :=
  update_rows (sql_content, []) (sort_values mapping_df).

End Flat.

(** * Vocabulary of the statements *)

Module FlatSpec.
Import Re Flat.

Definition trimmed_old (r : row) : string := Str.strip (py_str (old_name r)).
Definition trimmed_new (r : row) : string := Str.strip (py_str (new_name r)).

(** A rule the loop passes over: an empty trimmed name, or equal trimmed
    names. *)
Definition skipped (r : row) : bool :=
  negb (Str.truthy (trimmed_old r) && Str.truthy (trimmed_new r)
        && negb (String.eqb (trimmed_old r) (trimmed_new r))).

(** What holds of an entry of the change list that comes from the rows
    [rows]. *)
Definition entry_ok (rows : list row) (ch : change) : Prop :=
  1 <= occurrences ch /\ old ch <> new ch /\
  exists r, In r rows /\ skipped r = false /\
            old ch = trimmed_old r /\ new ch = trimmed_new r.

Definition order_sql : string :=
  "SELECT * FROM order o JOIN reorder_log r ON ORDER.id = r.id".
Definition order_sql_updated : string :=
  "SELECT * FROM orders_v2 o JOIN reorder_log r ON orders_v2.id = r.id".
Definition order_row : row :=
  Row (Pandas.Str " order") (Pandas.Str "orders_v2 ").

End FlatSpec.

Module ReviewerSpec.
Import Re Reviewer.

(** The mapping set of the scoping example: table rule
    [customers -> client], column rule [(client, cust_id, client_id)]. *)
Definition customers_tables : table_dict := [("customers", "client")].
Definition customers_columns : column_dict :=
  [("client", [("cust_id", "client_id")])].

(** The same column rule under a table name with a schema. *)
Definition schema_columns : column_dict :=
  [("dbo.client", [("cust_id", "client_id")])].

(** A [re] that rejects every pattern text put to it; the examples have
    table names without operators, for which none is. *)
Definition rejecting : text_search := fun _ _ => None.



End ReviewerSpec.

Module LoadSpec.
Import Reviewer.



(** The table rules of the input, in the order of the rows: the rows in
    which both names are present, each name trimmed. *)
Definition table_rules (table_df : Pandas.DataFrame)
  : list (string * string) :=
  let df := strip_labels table_df in
  let io := Pandas.column_pos "OldTableName" df in
  let inew := Pandas.column_pos "NewTableName" df in
  flat_map
    (fun row =>
       match Pandas.cell_at row io, Pandas.cell_at row inew with
       | Pandas.Str o, Pandas.Str n => [(Str.strip o, Str.strip n)]
       | _, _ => []
       end)
    (Pandas.data table_df).

(** Example sheets: a valid table sheet, a column sheet without the
    [OldColumnName] field, and a table sheet with a repeated old name. *)
Definition good_tables : Pandas.DataFrame :=
  Pandas.Frame ["OldTableName"; "NewTableName"]
    [[Pandas.Str " customers "; Pandas.Str "client"]].


Definition good_columns : Pandas.DataFrame :=
  Pandas.Frame ["TableName"; "OldColumnName"; "NewColumnName"]
    [[Pandas.Str "client"; Pandas.Str "cust_id"; Pandas.Str "client_id"]].

Definition repeated_tables : Pandas.DataFrame :=
  Pandas.Frame [" OldTableName"; "NewTableName "]
    [[Pandas.Str " customers "; Pandas.Str "client"];
     [Pandas.Str "orders"; Pandas.Str "orders_v2"];
     [Pandas.NaN; Pandas.Str "nothing"];
     [Pandas.Str "customers"; Pandas.Str " buyer"]].

End LoadSpec.

Module ReSpec.
Import Chars Re.

(** [t] starts with [s], up to case. *)
Fixpoint prefix_ci (s t : string) : bool :=
  match s, t with
  | EmptyString, _ => true
  | String x s', String y t' => atom_matches (AChar x) y && prefix_ci s' t'
  | String _ _, EmptyString => false
  end.

(** [a] and [b] are equal up to case. *)
Fixpoint ci_eq (a b : string) : bool :=
  match a, b with
  | EmptyString, EmptyString => true
  | String x a', String y b' => atom_matches (AChar y) x && ci_eq a' b'
  | _, _ => false
  end.

Fixpoint all_word (s : string) : bool :=
  match s with
  | EmptyString => true
  | String c s' => is_word c && all_word s'
  end.

Fixpoint no_newline (s : string) : bool :=
  match s with
  | EmptyString => true
  | String c s' => negb (Ascii.eqb c newline) && no_newline s'
  end.

(** [s] has no backslash: as a replacement template it stands for
    itself. *)
Fixpoint plain (s : string) : bool :=
  match s with
  | EmptyString => true
  | String c s' => negb (Ascii.eqb c backslash) && plain s'
  end.

Fixpoint literal_pieces (s : string) : list piece :=
  match s with
  | EmptyString => []
  | String c s' => PLit c :: literal_pieces s'
  end.

(** The last character of [s], or [p] when [s] is empty. *)
Fixpoint last_or (p : option ascii) (s : string) : option ascii :=
  match s with
  | EmptyString => p
  | String c s' => last_or (Some c) s'
  end.

Definition ends_with_word (s : string) : bool :=
  word_before (last_or None s).

Definition starts_with_word (s : string) : bool := word_here s.

(** [t] starts with the pasted name [name]: character by character up
    to case, a dot of the name agreeing with any character but a
    newline. *)
Fixpoint pasted_prefix (name t : string) : bool :=
  match name, t with
  | EmptyString, _ => true
  | String x name', String y t' =>
      atom_matches (if Ascii.eqb x "." then ADot else AChar x) y
      && pasted_prefix name' t'
  | String _ _, EmptyString => false
  end.

(** The matcher state after the characters of [s] have been consumed. *)
Fixpoint advance_by (st : mstate) (s : string) : mstate :=
  match s with
  | EmptyString => st
  | String c s' => advance_by (advance st c) s'
  end.

(** [\b name \b] matches at a position: [p] is the character before it
    and [s] the text from it. *)
Definition bounded_hit (name : string) (p : option ascii) (s : string)
  : bool :=
  at_boundary p s && prefix_ci name s
  && at_boundary (last_or p (Str.take (String.length name) s))
       (Str.drop (String.length name) s).

End ReSpec.

Module CorrectionSpec.
Import Chars Re Reviewer ReSpec.

Definition old_names (tm : table_dict) (cm : column_dict) : list string :=
  (List.map fst tm ++ flat_map (fun g => List.map fst (snd g)) cm)%list.

Definition new_names (tm : table_dict) (cm : column_dict) : list string :=
  (List.map snd tm ++ flat_map (fun g => List.map snd (snd g)) cm)%list.

(** No new name of any rule is, up to case, the old name of any rule
    (of another rule or of the same one, table or column). *)
Definition no_name_collisions (tm : table_dict) (cm : column_dict) : bool :=
  forallb (fun n => forallb (fun o => negb (ci_eq n o)) (old_names tm cm))
    (new_names tm cm).


End CorrectionSpec.

Module CheckSpec.
Import Chars Re ReSpec Reviewer.

(** [\b] holds on both sides of [occ] in [before ++ occ ++ after]. *)
Definition between_boundaries (before occ after : string) : bool :=
  at_boundary (last_or None before) (occ ++ after)
  && at_boundary (last_or None (before ++ occ)) after.

(** The text contains [table.old_col] (up to case), with no word
    character just before it or just after it. *)
Definition qualified_occurrence (table old_col text : string) : Prop :=
  exists pre occ post,
    text = pre ++ occ ++ post /\
    ci_eq occ (table ++ "." ++ old_col) = true /\
    ends_with_word pre = false /\
    starts_with_word post = false.

(** The text contains [old_col] (up to case) with no word character
    just before or after it, followed on the same line by the word FROM
    and, further on the same line, by the table name between word
    boundaries. *)
Definition followed_by_from_table (table old_col text : string) : Prop :=
  exists pre occ gap1 from gap2 tbl post,
    text = pre ++ occ ++ gap1 ++ from ++ gap2 ++ tbl ++ post /\
    ci_eq occ old_col = true /\
    ends_with_word pre = false /\
    starts_with_word (gap1 ++ from ++ gap2 ++ tbl ++ post) = false /\
    no_newline gap1 = true /\
    ci_eq from "FROM" = true /\
    between_boundaries (pre ++ occ ++ gap1) from (gap2 ++ tbl ++ post)
    = true /\
    no_newline gap2 = true /\
    ci_eq tbl table = true /\
    between_boundaries (pre ++ occ ++ gap1 ++ from ++ gap2) tbl post = true.

End CheckSpec.

(** * Words of a text

    A text read as a sequence of tokens: the maximal runs of word
    characters, and every other character on its own. *)

Module TokenSpec.
Import Chars Re ReSpec.

Fixpoint tokens (s : string) : list string :=
  match s with
  | EmptyString => []
  | String c s' =>
      if is_word c && word_here s' then
        match tokens s' with
        | t :: ts => String c t :: ts
        | [] => [String c EmptyString]
        end
      else String c EmptyString :: tokens s'
  end.

Fixpoint glue (ts : list string) : string :=
  match ts with
  | [] => EmptyString
  | t :: ts' => t ++ glue ts'
  end.

(** A token equal to [old] up to case becomes [new]. *)
Definition rename_token (old new t : string) : string :=
  if ci_eq t old then new else t.

Definition rename_words (old new s : string) : string :=
  glue (List.map (rename_token old new) (tokens s)).

(** The number of tokens equal to [old] up to case. *)
Definition count_words (old s : string) : nat :=
  List.length (filter (fun t => ci_eq t old) (tokens s)).

(** The rules of a table map applied to one token, in order. *)
Definition rename_token_all (tm : table_dict) (t : string) : string :=
  fold_left (fun t' kv => rename_token (fst kv) (snd kv) t') tm t.

Definition rename_words_all (tm : table_dict) (s : string) : string :=
  glue (List.map (rename_token_all tm) (tokens s)).

(** A name made of word characters, not empty. *)
Definition is_identifier (s : string) : bool :=
  Str.truthy s && all_word s.

(** [new] written at every word boundary of [s]; [p] is the character
    before [s]. *)
Fixpoint insert_at_boundaries (new : string) (p : option ascii)
  (s : string) : string :=
  (if at_boundary p s then new else EmptyString)
  ++ match s with
     | EmptyString => EmptyString
     | String c s' => String c (insert_at_boundaries new (Some c) s')
     end.

End TokenSpec.

Module TokenFacts.
Import Chars Re ReSpec TokenSpec.

(** A token that is not a word: one character, not a word character. *)
Definition other_token (t : string) : bool :=
  negb (word_here t) && Nat.eqb (String.length t) 1.

(** Token lists as [tokens] produces them: words and single other
    characters, a word never directly followed by a word character. *)
Fixpoint well_formed (ts : list string) : bool :=
  match ts with
  | [] => true
  | t :: ts' =>
      ((is_identifier t && negb (word_here (glue ts'))) || other_token t)
      && well_formed ts'
  end.

(** The rules of a table map: old and new names are identifiers. *)
Definition identifier_rules (tm : table_dict) : bool :=
  forallb (fun kv => is_identifier (fst kv) && is_identifier (snd kv)) tm.

(** No new name is an old name up to case. *)
Definition no_collision (tm : table_dict) : Prop :=
  forall o n o' n',
    In (o, n) tm -> In (o', n') tm -> ci_eq n o' = false.

(** Rules whose old names agree up to case are the same rule. *)
Definition distinct_rules (tm : table_dict) : Prop :=
  forall o n o' n',
    In (o, n) tm -> In (o', n') tm -> ci_eq o o' = true ->
    (o, n) = (o', n').

End TokenFacts.

Module RuleSets.
Import Chars Re ReSpec TokenSpec.

Definition rule_eqb (a b : string * string) : bool :=
  String.eqb (fst a) (fst b) && String.eqb (snd a) (snd b).

(** No new name is an old name up to case. *)
Definition collision_free (tm : table_dict) : bool :=
  forallb
    (fun kv => forallb (fun kv' => negb (ci_eq (snd kv) (fst kv'))) tm) tm.

(** Rules whose old names agree up to case are the same rule. *)
Definition unambiguous (tm : table_dict) : bool :=
  forallb
    (fun kv =>
       forallb
         (fun kv' => negb (ci_eq (fst kv) (fst kv')) || rule_eqb kv kv') tm)
    tm.

(** Every rule of [tm] is a rule of [tm']. *)
Definition rules_within (tm tm' : table_dict) : bool :=
  forallb (fun kv => existsb (rule_eqb kv) tm') tm.

Definition same_rules (tm tm' : table_dict) : bool :=
  rules_within tm tm' && rules_within tm' tm.

End RuleSets.

Module AuditSpec.
Import Chars Re ReSpec Reviewer TokenSpec.

(** [re.sub] accepts [tpl] as a replacement for a pattern with [groups]
    groups. *)
Definition accepted (groups : nat) (tpl : string) : bool :=
  match parse_template groups tpl with
  | Some _ => true
  | None => false
  end.


(** No column group is keyed by the new name of a table rule. *)
Definition groups_unanchored (tm : table_dict) (cm : column_dict) : bool :=
  forallb (fun g => negb (existsb (String.eqb (fst g)) (List.map snd tm))) cm.



End AuditSpec.

(** ** The report and the summary of [main]
    ([sql_mapping_dashboard.py]) *)

Module Dashboard.
Import Reviewer.

(** An entry of [analysis_results]. *)
Record analysis : Type := Analysis {
  original : string;
  issues : list string;
  corrected : string
}.

(** The summary statistics. *)
Definition has_issues (r : analysis) : bool :=
  match issues r with
  | [] => false
  | _ :: _ => true
  end.

Definition total_files (results : list (string * analysis)) : nat :=
  List.length results.

Definition files_with_issues (results : list (string * analysis)) : nat :=
  List.length (filter (fun kv => has_issues (snd kv)) results).

Definition total_issues (results : list (string * analysis)) : nat :=
  list_sum (List.map (fun kv => List.length (issues (snd kv))) results).

Definition table_mappings_applied (results : list (string * analysis))
  : nat :=
  list_sum
    (List.map
       (fun kv =>
          List.length
            (filter (Str.contains "TABLE MAPPING") (issues (snd kv))))
       results).

(** How the report tab shows an issue. *)
Inductive shown : Type :=
| AsError
| AsWarning
| AsInfo
| AsText.

Definition show_issue (issue : string) : shown :=
  if String.prefix "ERROR" issue then AsError
  else if String.prefix "WARNING" issue then AsWarning
  else if String.prefix "TABLE MAPPING" issue then AsInfo
  else if String.prefix "COLUMN MAPPING" issue then AsInfo
  else AsText.

End Dashboard.

Module LoadFacts.
Import Reviewer LoadSpec.

(** A name without leading or trailing white space. *)
Definition trimmed (s : string) : Prop := Str.strip s = s.

(** The column rules of the input, in the order of the rows: the rows
    in which the table and both column names are present, each name
    trimmed, as (table, (old column, new column)). *)
Definition column_rules (column_df : Pandas.DataFrame)
  : list (string * (string * string)) :=
  let df := strip_labels column_df in
  let it := Pandas.column_pos "TableName" df in
  let io := Pandas.column_pos "OldColumnName" df in
  let inew := Pandas.column_pos "NewColumnName" df in
  flat_map
    (fun row =>
       match Pandas.cell_at row it, Pandas.cell_at row io,
             Pandas.cell_at row inew with
       | Pandas.Str t, Pandas.Str o, Pandas.Str n =>
           [(Str.strip t, (Str.strip o, Str.strip n))]
       | _, _, _ => []
       end)
    (Pandas.data column_df).

(** The column rules of one table. *)
Definition rules_of_table (g : string)
  (rules : list (string * (string * string))) : list (string * string) :=
  List.map snd (filter (fun r => String.eqb (fst r) g) rules).

(** Each name strictly before the next one. *)
Fixpoint ascending (ks : list string) : bool :=
  match ks with
  | [] => true
  | k :: ks' =>
      match ks' with
      | [] => true
      | k' :: _ => String.ltb k k' && ascending ks'
      end
  end.

Definition two_tables : Pandas.DataFrame :=
  Pandas.Frame ["TableName"; "OldColumnName"; "NewColumnName"]
    [[Pandas.Str "sales"; Pandas.Str "amount"; Pandas.Str "total"];
     [Pandas.Str "client"; Pandas.Str "cust_id"; Pandas.Str "client_id"];
     [Pandas.Str "sales "; Pandas.Str "amount"; Pandas.Str "total_amount"];
     [Pandas.Str "client"; Pandas.NaN; Pandas.Str "dropped"]].

(** The column map of a sheet without a complete row: an empty
    dictionary under each trimmed column label other than
    [TableName]. *)
Definition empty_groups (column_df : Pandas.DataFrame) : column_dict :=
  Dict.of_items
    (List.map (fun c => (c, []))
       (filter (fun c => negb (String.eqb c "TableName"))
          (List.map Str.strip (Pandas.columns column_df)))).

(** What the loaded column map is made of. *)
Definition grouped (column_df : Pandas.DataFrame) (d : column_dict)
  : Prop :=
  ascending (Dict.keys d) = true /\
  (forall g, In g (Dict.keys d)
             <-> In g (List.map fst (column_rules column_df))) /\
  (forall g, In g (Dict.keys d) ->
             Dict.get g d
             = Some (Dict.of_items
                       (rules_of_table g (column_rules column_df)))).

Definition no_complete_row : Pandas.DataFrame :=
  Pandas.Frame ["TableName"; " OldColumnName"; "NewColumnName"; "Notes"]
    [[Pandas.Str "client"; Pandas.NaN; Pandas.Str "client_id";
      Pandas.Str "new key"];
     [Pandas.NaN; Pandas.Str "cust_id"; Pandas.Str "client_id";
      Pandas.NaN]].

Definition blank_tables : Pandas.DataFrame :=
  Pandas.Frame ["OldTableName"; "NewTableName"]
    [[Pandas.Str "   "; Pandas.Str "client"];
     [Pandas.Str "orders"; Pandas.NaN]].

End LoadFacts.

Module DashboardSpec.
Import Reviewer Dashboard.

(** A parser that raises on every text. *)
Definition failing_parser (sql : string) : Sqlparse.parse_result :=
  Sqlparse.ParseError "unexpected end of input".

Definition parse_failure (msg : string) : string :=
  "CRITICAL: SQL Parsing Failed - " ++ msg.

End DashboardSpec.

Module AliasSpec.
Import Chars Re ReSpec Reviewer TokenSpec TokenFacts CorrectionSpec.

(** A word that the group [[a-zA-Z_]\w*] of the alias pattern matches
    as a whole: it starts with a letter or an underscore. *)
Definition is_qualifier (t : string) : bool :=
  match t with
  | String c t' => atom_matches ALetter c && all_word t'
  | EmptyString => false
  end.

Definition is_dot (t : string) : bool := String.eqb t ".".

(** The tokens start with a dot and a word equal to [name] up to
    case. *)
Definition dot_then (name : string) (ts : list string) : bool :=
  match ts with
  | d :: c :: _ => is_dot d && ci_eq c name
  | _ => false
  end.

(** The tokens start with [w . c], a column [old_col] qualified by a
    word [w]. *)
Definition qualified_here (old_col : string) (ts : list string) : bool :=
  match ts with
  | w :: rest => is_qualifier w && dot_then old_col rest
  | [] => false
  end.

Fixpoint has_qualified (old_col : string) (ts : list string) : bool :=
  match ts with
  | [] => false
  | _ :: rest => qualified_here old_col ts || has_qualified old_col rest
  end.

(** The tokens after the alias substitution of one column rule: from
    left to right each qualified [old_col] becomes [new_col], and the
    scan goes on after it. *)
Fixpoint requalify (old_col new_col : string) (ts : list string)
  : list string :=
  match ts with
  | [] => []
  | w :: rest =>
      match rest with
      | d :: c :: rest' =>
          if is_qualifier w && (is_dot d && ci_eq c old_col)
          then w :: d :: new_col :: requalify old_col new_col rest'
          else w :: requalify old_col new_col rest
      | _ => w :: requalify old_col new_col rest
      end
  end.

(** What follows the qualifier in a match of the alias pattern: a dot,
    the old column up to case, and no word character after it. *)
Definition dot_column (old_col rest : string) : bool :=
  match rest with
  | String d r =>
      Ascii.eqb d "." && prefix_ci old_col r
      && negb (word_here (Str.drop (String.length old_col) r))
  | EmptyString => false
  end.

(** [t] is one of [names] up to case. *)
Definition one_of (names : list string) (t : string) : bool :=
  existsb (ci_eq t) names.



Definition old_columns (cm : column_dict) : list string :=
  flat_map (fun g => List.map fst (snd g)) cm.

(** Some occurrence of one of [names] is qualified. *)
Definition has_qualified_any (names : list string) (ts : list string)
  : bool :=
  existsb (fun o => has_qualified o ts) names.

(** Every old and new name of the mapping set is an identifier. *)
Definition identifier_names (tm : table_dict) (cm : column_dict) : bool :=
  forallb is_identifier (old_names tm cm)
  && forallb is_identifier (new_names tm cm).

(** The column rules the column pass applies, in order: those of the
    groups keyed by the new name of a table rule. *)
Definition active_rules (new_to_old : table_dict) (cm : column_dict)
  : list (string * string) :=
  flat_map
    (fun g =>
       match Dict.get (fst g) new_to_old with
       | Some old_table_name =>
           if Str.truthy old_table_name then snd g else []
       | None => []
       end)
    cm.

Definition requalify_all (rules : list (string * string))
  (ts : list string) : list string :=
  fold_left (fun ts' kv => requalify (fst kv) (snd kv) ts') rules ts.

(** [ts'] is [ts] with some tokens that satisfy [Q] replaced by tokens
    that satisfy [F]. *)
Definition replaced (Q F : string -> Prop) (ts ts' : list string) : Prop :=
  Forall2 (fun a b => b = a \/ (Q a /\ F b)) ts ts'.

(** What the column pass keeps true of the tokens of the text: they are
    the tokens of a text, and none of them is an old table name. *)
Definition steady (old_tables : list string) (ts : list string) : Prop :=
  well_formed ts = true /\
  Forall (fun t => one_of old_tables t = false) ts.

(** A column rule with identifier names whose new name is no old
    name. *)
Definition sound_rule (old_tables old_cols : list string)
  (r : string * string) : Prop :=
  is_identifier (fst r) = true /\ is_identifier (snd r) = true /\
  In (fst r) old_cols /\
  one_of old_cols (snd r) = false /\ one_of old_tables (snd r) = false.

(** A table rule whose new name carries a schema. *)
Definition schema_tables : table_dict := [("orders", "sales.orders")].

End AliasSpec.

(** * Properties *)

(** ** Strings *)

Section StringFacts.

Lemma append_empty_r (s : string) : s ++ "" = s.
Proof. induction s as [|c s IH]; simpl; [reflexivity | now rewrite IH]. Qed.

Lemma append_assoc (a b c : string) : (a ++ b) ++ c = a ++ (b ++ c).
Proof. induction a as [|x a IH]; simpl; [reflexivity | now rewrite IH]. Qed.

Lemma length_append (a b : string) :
  String.length (a ++ b) = String.length a + String.length b.
Proof. induction a as [|x a IH]; simpl; [reflexivity | now rewrite IH]. Qed.

End StringFacts.

(** ** The scanning loops of [re] *)

Section Scanning.
Import Re.

Variable r : regex.

(** [re.findall] and [re.subn] walk the text in the same way: the number
    of substitutions is the number of matches found. *)
Lemma subn_scan_count (ps : list piece) (s : string) :
  forall p skip,
    snd (subn_scan r ps p skip s) = List.length (findall_scan r p skip s).
Proof.
  induction s as [|c s IH]; intros p skip.
  - destruct skip; simpl; [|reflexivity].
    destruct (match_here r false p "") as [st|]; [|reflexivity].
    destruct (consumed st); [|reflexivity].
    destruct (match_here r true p ""); reflexivity.
  - destruct skip as [|k]; simpl; [|apply IH].
    destruct (match_here r false p (String c s)) as [st|].
    + destruct (consumed st) as [|k].
      * destruct (match_here r true p (String c s)) as [st2|].
        -- specialize (IH (Some c) (consumed st2 - 1)).
           destruct (subn_scan r ps (Some c) (consumed st2 - 1) s).
           simpl in *. now rewrite IH.
        -- specialize (IH (Some c) 0).
           destruct (subn_scan r ps (Some c) 0 s). simpl in *. now rewrite IH.
      * specialize (IH (Some c) k).
        destruct (subn_scan r ps (Some c) k s). simpl in *. now rewrite IH.
    + specialize (IH (Some c) 0).
      destruct (subn_scan r ps (Some c) 0 s). simpl in *. exact IH.
Qed.

Lemma subn_count (groups : nat) (tpl text out : string) (n : nat) :
  subn groups r tpl text = Some (out, n) ->
  n = List.length (findall r text).
Proof.
  unfold subn, findall.
  destruct (parse_template groups tpl) as [ps|]; [|discriminate].
  intros H. injection H as H.
  rewrite <- subn_scan_count with (ps := ps). now rewrite H.
Qed.

(** Where the pattern is found nowhere, nothing is replaced. *)
Lemma subn_scan_no_match (ps : list piece) (s : string) :
  forall p, search_from r p s = false -> subn_scan r ps p 0 s = (s, 0).
Proof.
  induction s as [|c s IH]; intros p H; simpl in *.
  - destruct (match_here r false p ""); [discriminate | reflexivity].
  - destruct (match_here r false p (String c s)); [discriminate|].
    now rewrite (IH _ H).
Qed.

Lemma findall_scan_no_match (s : string) :
  forall p, search_from r p s = false -> findall_scan r p 0 s = [].
Proof.
  induction s as [|c s IH]; intros p H; simpl in *.
  - destruct (match_here r false p ""); [discriminate | reflexivity].
  - destruct (match_here r false p (String c s)); [discriminate|].
    now apply IH.
Qed.

Lemma sub_no_match (groups : nat) (tpl text : string) :
  parse_template groups tpl <> None ->
  search r text = false ->
  sub groups r tpl text = Some text.
Proof.
  unfold sub, subn, search. intros Hp Hs.
  destruct (parse_template groups tpl) as [ps|]; [|congruence].
  now rewrite (subn_scan_no_match _ _ _ Hs).
Qed.

Lemma subn_scan_none (ps : list piece) (p : option ascii) (c : ascii)
  (s : string) :
  match_here r false p (String c s) = None ->
  subn_scan r ps p 0 (String c s)
  = let (o, n) := subn_scan r ps (Some c) 0 s in (String c o, n).
Proof. intros H. cbn [subn_scan]. now rewrite H. Qed.

Lemma subn_scan_some (ps : list piece) (p : option ascii) (c : ascii)
  (s : string) (st : mstate) (k : nat) :
  match_here r false p (String c s) = Some st ->
  consumed st = S k ->
  subn_scan r ps p 0 (String c s)
  = let (o, n) := subn_scan r ps (Some c) k s in
    (expand ps (String c s) st ++ o, 1 + n).
Proof. intros H K. cbn [subn_scan]. now rewrite H, K. Qed.

Lemma subn_scan_end (ps : list piece) (p : option ascii) :
  match_here r false p "" = None ->
  subn_scan r ps p 0 "" = ("", 0).
Proof. intros H. cbn [subn_scan]. now rewrite H. Qed.

Lemma sub_some_template (groups : nat) (tpl text out : string) :
  sub groups r tpl text = Some out -> parse_template groups tpl <> None.
Proof.
  unfold sub, subn.
  destruct (parse_template groups tpl); [discriminate | discriminate].
Qed.

End Scanning.

(** ** The flat update mode *)

Section FlatMode.
Import Re Flat FlatSpec.

Lemma update_row_cases (sql : string) (changes : list change) (r : row)
  (sql' : string) (changes' : list change) :
  update_row (sql, changes) r = Some (sql', changes') ->
  (sql' = sql /\ changes' = changes) \/
  (skipped r = false /\
   0 < List.length (findall (pattern (trimmed_old r)) sql) /\
   sub 0 (pattern (trimmed_old r)) (trimmed_new r) sql = Some sql' /\
   changes' =
     (changes ++ [Change (trimmed_old r) (trimmed_new r)
                    (List.length (findall (pattern (trimmed_old r)) sql))])%list).
Proof.
  unfold update_row, skipped. cbv beta iota.
  fold (trimmed_old r) (trimmed_new r).
  destruct (Str.truthy (trimmed_old r) && Str.truthy (trimmed_new r)
            && negb (String.eqb (trimmed_old r) (trimmed_new r))) eqn:G.
  - destruct (0 <? List.length (findall (pattern (trimmed_old r)) sql))%nat
      eqn:C.
    + destruct (sub 0 (pattern (trimmed_old r)) (trimmed_new r) sql)
        as [u|] eqn:S; [|discriminate].
      intros H. injection H as <- <-. right.
      apply Nat.ltb_lt in C. repeat split; auto.
    + intros H. injection H as <- <-. now left.
  - intros H. injection H as <- <-. now left.
Qed.

Lemma skipped_false_names (r : row) :
  skipped r = false -> trimmed_old r <> trimmed_new r.
Proof.
  unfold skipped. intros H. apply negb_false_iff in H.
  apply andb_prop in H as [_ H]. apply negb_true_iff in H.
  now apply String.eqb_neq in H.
Qed.

Lemma update_rows_entries (rows all : list row) :
  forall sql changes out changes',
    incl rows all ->
    Forall (entry_ok all) changes ->
    update_rows (sql, changes) rows = Some (out, changes') ->
    Forall (entry_ok all) changes'.
Proof.
  induction rows as [|r rows IH]; intros sql changes out changes' Hin Hc H.
  - simpl in H. injection H as <- <-. exact Hc.
  - cbn [update_rows] in H.
    destruct (update_row (sql, changes) r) as [[sql1 ch1]|] eqn:U;
      [|discriminate].
    apply IH in H; auto.
    + intros x Hx. apply Hin. now right.
    + apply update_row_cases in U as [[-> ->]|(Hs & Hn & _ & ->)]; auto.
      apply Forall_app. split; auto.
      constructor; [|constructor].
      repeat split; simpl.
      * lia.
      * now apply skipped_false_names.
      * exists r. repeat split; auto. apply Hin. now left.
Qed.

Lemma insert_row_in (r x : row) (sorted : list row) :
  In x (insert_row r sorted) -> x = r \/ In x sorted.
Proof.
  induction sorted as [|r' sorted IH]; simpl.
  - intros [<-|[]]. now left.
  - destruct (stays_before r' r); simpl.
    + intros [<-|H]; [right; now left|].
      destruct (IH H) as [->|H']; [now left | right; now right].
    + intros [<-|H]; [now left | now right].
Qed.

Lemma sort_values_incl (rows : list row) : incl (sort_values rows) rows.
Proof.
  unfold sort_values.
  enough (G : forall acc x,
             In x (fold_left (fun sorted r => insert_row r sorted) rows acc) ->
             In x acc \/ In x rows).
  { intros x Hx. destruct (G [] x Hx) as [[]|H]. exact H. }
  induction rows as [|r rows IH]; intros acc x; simpl.
  - now left.
  - intros H. destruct (IH _ _ H) as [H'|H']; [|right; now right].
    destruct (insert_row_in _ _ _ H') as [->|H'']; [right; now left | now left].
Qed.

(** C5.  In the flat update mode, whenever a rule is applied to a text
    and reports a count, the count it reports (the number of matches of
    the boundary pattern found by [re.findall]) is the number of
    substitutions [re.sub] makes for that rule on that text; when it
    reports nothing, the text is left as it is. *)
Theorem update_row_count_agrees (sql : string) (changes : list change)
  (r : row) (sql' : string) (changes' : list change) :
  update_row (sql, changes) r = Some (sql', changes') ->
  (sql' = sql /\ changes' = changes) \/
  exists n,
    changes' = (changes ++ [Change (trimmed_old r) (trimmed_new r) n])%list /\
    n = List.length (findall (pattern (trimmed_old r)) sql) /\
    subn 0 (pattern (trimmed_old r)) (trimmed_new r) sql = Some (sql', n).
Proof.
  intros H. apply update_row_cases in H as [H|(_ & _ & S & ->)]; [now left|].
  right. eexists. split; [reflexivity|]. split; [reflexivity|].
  unfold sub in S.
  destruct (subn 0 (pattern (trimmed_old r)) (trimmed_new r) sql)
    as [[o n]|] eqn:E; [|discriminate].
  simpl in S. injection S as ->.
  now rewrite (subn_count _ _ _ _ _ _ E).
Qed.

Lemma update_row_count_agrees_witness :
  update_row (order_sql, []) order_row
  = Some (order_sql_updated, [Change "order" "orders_v2" 2]) /\
  ((order_sql_updated = order_sql /\ [Change "order" "orders_v2" 2] = []) \/
   exists n,
     [Change "order" "orders_v2" 2]
     = ([] ++ [Change (trimmed_old order_row) (trimmed_new order_row) n])%list
     /\ n = List.length (findall (pattern (trimmed_old order_row)) order_sql)
     /\ subn 0 (pattern (trimmed_old order_row)) (trimmed_new order_row)
          order_sql
        = Some (order_sql_updated, n)).
Proof.
  split; [reflexivity|].
  apply (update_row_count_agrees order_sql [] order_row order_sql_updated).
  reflexivity.
Defined.

(** C10.  Every entry of the change list returned by
    [update_sql_with_mappings] has at least one occurrence and distinct
    trimmed names, and comes from a row that is not skipped; a row whose
    trimmed names are equal, or one of which is empty, leaves both the
    text and the change list as they are. *)
Theorem update_changes_invariant :
  (forall (sql : string) (mapping_df : list row) (out : string)
          (changes : list change),
      update_sql_with_mappings sql mapping_df = Some (out, changes) ->
      Forall (entry_ok mapping_df) changes) /\
  (forall (state : string * list change) (r : row),
      trimmed_old r = "" \/ trimmed_new r = "" \/
      trimmed_old r = trimmed_new r ->
      update_row state r = Some state).
Proof.
  split.
  - intros sql df out changes H. unfold update_sql_with_mappings in H.
    eapply update_rows_entries in H; eauto using sort_values_incl.
  - intros [sql changes] r H. unfold update_row.
    fold (trimmed_old r) (trimmed_new r).
    destruct H as [-> | [-> | ->]].
    + reflexivity.
    + now rewrite andb_false_r.
    + now rewrite String.eqb_refl, andb_false_r.
Qed.

Lemma update_changes_invariant_witness :
  Forall
    (entry_ok [Row (Pandas.Str "a") (Pandas.Str "x");
               Row (Pandas.Str " ab ") (Pandas.Str "y");
               Row (Pandas.Str "t") (Pandas.Str " t");
               Row Pandas.NaN (Pandas.Str "y")])
    [Change "ab" "y" 1; Change "a" "x" 2]
  /\ update_row ("select a from t", [])
       (Row (Pandas.Str "t") (Pandas.Str " t"))
     = Some ("select a from t", []).
Proof.
  split.
  - apply (proj1 update_changes_invariant
             "select a, ab from t where a = 1" _
             "select x, y from t where x = 1").
    reflexivity.
  - apply (proj2 update_changes_invariant). right. right. reflexivity.
Defined.

End FlatMode.

(** ** Structural validation and semantic checks *)

Section Diagnostics.
Import Re Reviewer ReviewerSpec Sqlparse.

Variable sqlparse_parse : string -> parse_result.



Lemma for_each_join_done (toks : list token) :
  forall issues, exists issues',
    for_each check_join toks issues = (issues', Done).
Proof.
  induction toks as [|t toks IH]; intros issues; simpl.
  - now exists issues.
  - unfold and_then.
    assert (H : exists i1, check_join t issues = (i1, Done)).
    { destruct t as [n| |]; simpl; try (now eexists).
      destruct (Str.contains "JOIN" n); [|now eexists].
      destruct (Str.contains "ON" n); now eexists. }
    destruct H as [i1 ->]. apply IH.
Qed.

(** C8.  For every text, whatever [sqlparse] does with it,
    [_check_semantics] returns a list of findings and lets no exception
    escape; when [sqlparse] raises, or returns no statement, the list is
    empty. *)
Theorem check_semantics_never_raises (sql : string) :
  exists issues,
    _check_semantics sqlparse_parse sql = Returns issues /\
    match sqlparse_parse sql with
    | ParseError _ => issues = []
    | Parsed [] => issues = []
    | Parsed (_ :: _) => True
    end.
Proof.
  unfold _check_semantics, semantics_body.
  destruct (sqlparse_parse sql) as [msg|[|st sts]].
  - exists []. split; reflexivity.
  - exists []. split; reflexivity.
  - destruct (and_then (for_each check_join st) (for_each check_where st) [])
      as [issues [|]]; exists issues; split; auto.
Qed.

End Diagnostics.

Section DiagnosticsExamples.
Import Re Reviewer ReviewerSpec Sqlparse.



(** C2.  The alias-qualified occurrence is rewritten.  The bare
    occurrence is not: the table pass has already replaced [customers],
    so the FROM test for the old table name finds nothing and the column
    is left as it was.  The column pass on its own, before any table
    rewrite, does rename it. *)
Theorem scoping_example :
  apply_corrections customers_tables customers_columns
    "SELECT c.cust_id FROM customers c"
  = Some "SELECT c.client_id FROM client c" /\
  apply_corrections customers_tables customers_columns
    "SELECT cust_id FROM customers"
  = Some "SELECT cust_id FROM client" /\
  search (from_table_pattern "customers") "SELECT cust_id FROM client"
  = false /\
  _apply_column_mappings customers_tables customers_columns
    "SELECT cust_id FROM customers"
  = Some "SELECT client_id FROM customers".
Proof.
  repeat split; reflexivity.
Qed.

End DiagnosticsExamples.

(** ** Dictionaries *)

Section DictFacts.
Context {V : Type}.

Lemma get_set_same (k : string) (v : V) (d : list (string * V)) :
  Dict.get k (Dict.set k v d) = Some v.
Proof.
  induction d as [|[k' v'] d IH]; simpl.
  - now rewrite String.eqb_refl.
  - destruct (String.eqb k k') eqn:E; simpl.
    + now rewrite String.eqb_refl.
    + now rewrite E.
Qed.

Lemma get_set_other (k k0 : string) (v : V) (d : list (string * V)) :
  k0 <> k -> Dict.get k0 (Dict.set k v d) = Dict.get k0 d.
Proof.
  intros N. induction d as [|[k' v'] d IH]; simpl.
  - apply String.eqb_neq in N. now rewrite N.
  - destruct (String.eqb k k') eqn:E; simpl.
    + apply String.eqb_eq in E. subst k'.
      apply String.eqb_neq in N. now rewrite N.
    + destruct (String.eqb k0 k'); auto.
Qed.

Lemma keys_set (k x : string) (v : V) (d : list (string * V)) :
  In x (Dict.keys (Dict.set k v d)) <-> x = k \/ In x (Dict.keys d).
Proof.
  unfold Dict.keys. induction d as [|[k' v'] d IH]; simpl.
  - intuition.
  - destruct (String.eqb k k') eqn:E; simpl.
    + apply String.eqb_eq in E. subst k'. intuition.
    + rewrite IH. intuition.
Qed.

Lemma keys_set_nodup (k : string) (v : V) (d : list (string * V)) :
  NoDup (Dict.keys d) -> NoDup (Dict.keys (Dict.set k v d)).
Proof.
  unfold Dict.keys. induction d as [|[k' v'] d IH]; simpl; intros N.
  - constructor; [intros [] | constructor].
  - inversion N as [|? ? Hn Hd]; subst.
    destruct (String.eqb k k') eqn:E; simpl.
    + apply String.eqb_eq in E. subst k'. now constructor.
    + constructor; [|now apply IH].
      intros Hin. apply (keys_set k k' v d) in Hin as [->|Hin].
      * now rewrite String.eqb_refl in E.
      * now apply Hn.
Qed.

Lemma fold_put_nodup (items : list (string * V)) :
  forall d, NoDup (Dict.keys d) -> NoDup (Dict.keys (fold_left Dict.put items d)).
Proof.
  induction items as [|[k v] items IH]; intros d N; simpl; auto.
  apply IH. now apply keys_set_nodup.
Qed.

Lemma fold_put_get_absent (items : list (string * V)) (k : string) :
  ~ In k (List.map fst items) ->
  forall d, Dict.get k (fold_left Dict.put items d) = Dict.get k d.
Proof.
  induction items as [|[k' v'] items IH]; intros N d; simpl; auto.
  rewrite IH.
  - apply get_set_other. intros ->. apply N. now left.
  - intros H. apply N. now right.
Qed.

(** The keys of a dictionary built from items are distinct. *)
Lemma of_items_nodup (items : list (string * V)) :
  NoDup (Dict.keys (Dict.of_items items)).
Proof. apply fold_put_nodup. constructor. Qed.

(** The last item with a given key decides the value. *)
Lemma of_items_last_wins (before after : list (string * V)) (k : string)
  (v : V) :
  ~ In k (List.map fst after) ->
  Dict.get k (Dict.of_items (before ++ (k, v) :: after)) = Some v.
Proof.
  intros N. unfold Dict.of_items.
  rewrite fold_left_app. simpl.
  rewrite (fold_put_get_absent _ _ N). apply get_set_same.
Qed.

End DictFacts.

(** ** Loading the mapping sheets *)

Section Loading.
Import Reviewer LoadSpec Pandas.

Lemma filter_nil_existsb {A} (f : A -> bool) (l : list A) :
  filter f l = [] -> existsb f l = false.
Proof.
  induction l as [|x l IH]; simpl; auto.
  destruct (f x); [discriminate | auto].
Qed.

Lemma existsb_filter_cons {A} (f : A -> bool) (l : list A) :
  existsb f l = true -> exists x xs, filter f l = x :: xs.
Proof.
  induction l as [|x l IH]; simpl; [discriminate|].
  destruct (f x); simpl; intros H; [now eexists; eexists | auto].
Qed.

Lemma dropna_missing (labels : list string) (df : DataFrame) :
  existsb (fun l => negb (has_column l df)) labels = true ->
  exists missing, dropna labels df = inl (KeyError missing).
Proof.
  intros H. apply existsb_filter_cons in H as (x & xs & E).
  unfold dropna. rewrite E. now eexists.
Qed.

Lemma dropna_ok (labels : list string) (df df' : DataFrame) :
  dropna labels df = inr df' ->
  existsb (fun l => negb (has_column l df)) labels = false /\
  columns df' = columns df /\
  data df' =
    filter
      (fun row =>
         forallb
           (fun l => forallb (fun i => negb (isna (cell_at row i)))
                       (positions l df))
           labels)
      (data df).
Proof.
  unfold dropna.
  destruct (filter (fun l => negb (has_column l df)) labels) eqn:E;
    [|discriminate].
  intros H. injection H as <-. simpl.
  split; [now apply filter_nil_existsb | split; reflexivity].
Qed.

Lemma str_strip_ok (label : string) (df df' : DataFrame) :
  str_strip label df = inr df' ->
  exists i,
    positions label df = [i] /\
    columns df' = columns df /\
    data df' = List.map (update_nth i strip_cell) (data df).
Proof.
  unfold str_strip.
  destruct (positions label df) as [|i [|j l]]; try discriminate.
  intros H. injection H as <-. exists i. repeat split.
Qed.




Lemma positions_from_nth (label : string) (cols : list string) :
  forall k i,
    In i (positions_from k label cols) ->
    k <= i /\ nth_error cols (i - k) = Some label.
Proof.
  induction cols as [|c cols IH]; intros k i; simpl; [intros []|].
  destruct (String.eqb label c) eqn:E.
  - intros [<-|H].
    + rewrite Nat.sub_diag. apply String.eqb_eq in E. subst c. now split.
    + apply IH in H as [Hk Hn]. split; [lia|].
      replace (i - k) with (S (i - S k)) by lia. exact Hn.
  - intros H. apply IH in H as [Hk Hn]. split; [lia|].
    replace (i - k) with (S (i - S k)) by lia. exact Hn.
Qed.

Lemma positions_distinct (l1 l2 : string) (df : DataFrame) (i1 i2 : nat) :
  l1 <> l2 -> positions l1 df = [i1] -> positions l2 df = [i2] -> i1 <> i2.
Proof.
  unfold positions. intros N P1 P2 ->.
  assert (H1 : In i2 (positions_from 0 l1 (columns df)))
    by (rewrite P1; now left).
  assert (H2 : In i2 (positions_from 0 l2 (columns df)))
    by (rewrite P2; now left).
  apply positions_from_nth in H1 as [_ H1].
  apply positions_from_nth in H2 as [_ H2]. congruence.
Qed.

Lemma cell_at_update_same (i : nat) (row : list cell) :
  cell_at (update_nth i strip_cell row) i = strip_cell (cell_at row i).
Proof.
  unfold cell_at. revert i.
  induction row as [|c row IH]; intros [|i]; simpl; auto.
Qed.

Lemma cell_at_update_other (i j : nat) (f : cell -> cell) (row : list cell) :
  i <> j -> cell_at (update_nth i f row) j = cell_at row j.
Proof.
  unfold cell_at. revert i j.
  induction row as [|c row IH]; intros [|i] [|j] N; simpl; auto; try lia.
Qed.

Lemma positions_same_columns (label : string) (df df' : DataFrame) :
  columns df' = columns df -> positions label df' = positions label df.
Proof. unfold positions. now intros ->. Qed.

(** After cleaning, the items of the table frame are the table rules of
    the input. *)
Lemma cleaned_items (rows : list (list cell)) (io inew : nat) :
  io <> inew ->
  flat_map
    (fun row =>
       match cell_at row io, cell_at row inew with
       | Str k, Str v => [(k, v)]
       | _, _ => []
       end)
    (List.map (update_nth inew strip_cell)
       (List.map (update_nth io strip_cell)
          (filter
             (fun row =>
                forallb
                  (fun l => forallb (fun i => negb (isna (cell_at row i))) l)
                  [[io]; [inew]])
             rows)))
  = flat_map
      (fun row =>
         match cell_at row io, cell_at row inew with
         | Str o, Str n => [(Str.strip o, Str.strip n)]
         | _, _ => []
         end)
      rows.
Proof.
  intros N.
  set (keep := fun row : list cell =>
                 forallb
                   (fun l => forallb (fun i => negb (isna (cell_at row i))) l)
                   [[io]; [inew]]).
  set (g := fun row : list cell =>
              match cell_at row io, cell_at row inew with
              | Str k, Str v => [(k, v)]
              | _, _ => []
              end).
  set (g' := fun row : list cell =>
               match cell_at row io, cell_at row inew with
               | Str o, Str n => [(Str.strip o, Str.strip n)]
               | _, _ => []
               end).
  induction rows as [|row rows IH]; [reflexivity|].
  assert (K : keep row
              = negb (isna (cell_at row io)) && negb (isna (cell_at row inew))).
  { unfold keep. simpl. now rewrite !andb_true_r. }
  cbn [filter flat_map]. rewrite K. rewrite <- IH.
  unfold g' at 1.
  destruct (cell_at row io) as [|o] eqn:Co; [reflexivity|].
  destruct (cell_at row inew) as [|n] eqn:Cn; [reflexivity|].
  cbn [isna negb andb List.map flat_map]. f_equal.
  unfold g.
  rewrite cell_at_update_same.
  rewrite (cell_at_update_other inew io) by auto.
  rewrite cell_at_update_same.
  rewrite (cell_at_update_other io inew) by auto.
  rewrite Co, Cn. reflexivity.
Qed.

Lemma load_success_table (self self' : reviewer)
  (table_df column_df : DataFrame) :
  load_mappings_from_dataframe self table_df column_df = (self', true) ->
  table_mappings self' = TableMap (Dict.of_items (table_rules table_df)).
Proof.
  unfold load_mappings_from_dataframe, load_body, bind, lift,
    set_table_mappings, set_column_mappings.
  cbv beta iota.
  destruct (dropna ["OldTableName"; "NewTableName"] (strip_labels table_df))
    as [e|t1] eqn:D1; simpl; [discriminate|].
  destruct (str_strip "OldTableName" t1) as [e|t2] eqn:S1; simpl;
    [discriminate|].
  destruct (str_strip "NewTableName" t2) as [e|t3] eqn:S2; simpl;
    [discriminate|].
  destruct (dropna ["TableName"; "OldColumnName"; "NewColumnName"]
              (strip_labels column_df)) as [e|c1] eqn:D2; simpl;
    [discriminate|].
  destruct (str_strip "TableName" c1) as [e|c2]; simpl; [discriminate|].
  destruct (str_strip "OldColumnName" c2) as [e|c3]; simpl; [discriminate|].
  destruct (str_strip "NewColumnName" c3) as [e|c4]; simpl; [discriminate|].
  intros H. injection H as <-. simpl. f_equal.
  unfold to_dict. f_equal.
  apply dropna_ok in D1 as (_ & C1 & R1).
  apply str_strip_ok in S1 as (io & P1 & C2 & R2).
  apply str_strip_ok in S2 as (inew & P2 & C3 & R3).
  rewrite (positions_same_columns _ _ _ C1) in P1.
  rewrite (positions_same_columns _ _ _ C2),
    (positions_same_columns _ _ _ C1) in P2.
  assert (N : io <> inew).
  { eapply positions_distinct; [|exact P1|exact P2]. discriminate. }
  unfold items, table_rules, column_pos.
  rewrite (positions_same_columns "OldTableName" (strip_labels table_df) t3)
    by congruence.
  rewrite (positions_same_columns "NewTableName" (strip_labels table_df) t3)
    by congruence.
  rewrite P1, P2, R3, R2, R1.
  cbn [forallb]. rewrite P1, P2.
  exact (cleaned_items (data table_df) io inew N).
Qed.

(** C9.  When loading succeeds, the table map has each old name once,
    and an old name that several rules share (after trimming) is mapped
    to the new name of the last of them. *)
Theorem load_last_rule_wins (self self' : reviewer)
  (table_df column_df : DataFrame) :
  load_mappings_from_dataframe self table_df column_df = (self', true) ->
  exists d,
    table_mappings self' = TableMap d /\
    NoDup (Dict.keys d) /\
    forall before after old_name new_name,
      table_rules table_df = (before ++ (old_name, new_name) :: after)%list ->
      ~ In old_name (List.map fst after) ->
      Dict.get old_name d = Some new_name.
Proof.
  intros H. apply load_success_table in H.
  exists (Dict.of_items (table_rules table_df)).
  split; [exact H|]. split; [apply of_items_nodup|].
  intros before after o n E N. rewrite E. now apply of_items_last_wins.
Qed.

Lemma load_last_rule_wins_witness :
  exists d,
    table_mappings
      (fst (load_mappings_from_dataframe init repeated_tables good_columns))
    = TableMap d /\
    NoDup (Dict.keys d) /\
    Dict.get "customers" d = Some "buyer".
Proof.
  destruct (load_last_rule_wins init
              (fst (load_mappings_from_dataframe init repeated_tables
                      good_columns))
              repeated_tables good_columns eq_refl) as (d & Hd & Hn & Hl).
  exists d. split; [exact Hd|]. split; [exact Hn|].
  apply (Hl [("customers", "client"); ("orders", "orders_v2")] []).
  - reflexivity.
  - intros [].
Defined.

End Loading.

(** ** A second correction pass *)

Section SecondPass.
Import Re Reviewer CorrectionSpec.

Lemma table_pass_templates (tm : table_dict) :
  forall x y,
    _apply_table_mappings tm x = Some y ->
    Forall (fun kv => parse_template 0 (snd kv) <> None) tm.
Proof.
  induction tm as [|[o n] tm IH]; intros x y H; [constructor|].
  simpl in H.
  destruct (sub 0 (bounded o) n x) as [x'|] eqn:S; [|discriminate].
  constructor; [exact (sub_some_template _ _ _ _ _ S) | eauto].
Qed.


End SecondPass.

(** ** Matching a literal between word boundaries *)

Section Literals.
Import Chars Re ReSpec.

Lemma to_lower_word (c : ascii) : is_word (to_lower c) = is_word c.
Proof.
  destruct c as [[] [] [] [] [] [] [] []]; vm_compute; reflexivity.
Qed.

Lemma char_match_word (x c : ascii) :
  atom_matches (AChar x) c = true -> is_word c = is_word x.
Proof.
  simpl. intros H. apply Ascii.eqb_eq in H.
  rewrite <- (to_lower_word c), <- (to_lower_word x). now rewrite H.
Qed.

Lemma prev_advance_by (s : string) :
  forall st, prev (advance_by st s) = last_or (prev st) s.
Proof. induction s as [|c s IH]; intros st; simpl; [|rewrite IH]; auto. Qed.

Lemma consumed_advance_by (s : string) :
  forall st, consumed (advance_by st s) = consumed st + String.length s.
Proof.
  induction s as [|c s IH]; intros st; simpl; [lia|].
  rewrite IH. simpl. lia.
Qed.

Lemma grp_advance_by (s : string) :
  forall st, grp (advance_by st s) = grp st.
Proof. induction s as [|c s IH]; intros st; simpl; [|rewrite IH]; auto. Qed.

Lemma prefix_ci_length (s t : string) :
  prefix_ci s t = true -> String.length s <= String.length t.
Proof.
  revert t. induction s as [|x s IH]; intros [|y t]; simpl;
    try lia; try discriminate.
  intros H. apply andb_prop in H as [_ H]. apply IH in H. lia.
Qed.

Lemma take_length (n : nat) (s : string) :
  n <= String.length s -> String.length (Str.take n s) = n.
Proof.
  revert s. induction n as [|n IH]; intros [|c s]; simpl; try lia.
  intros H. rewrite IH; lia.
Qed.

(** The literal [re.escape(s)] consumes a prefix equal to [s] up to
    case, or fails. *)
Lemma rmatch_lit (s : string) :
  forall st t k,
    rmatch (lit s) st t k
    = if prefix_ci s t
      then k (advance_by st (Str.take (String.length s) t))
             (Str.drop (String.length s) t)
      else None.
Proof.
  induction s as [|x s IH]; intros st t k; simpl; [reflexivity|].
  destruct t as [|y t]; [reflexivity|].
  destruct (Ascii.eqb (to_lower x) (to_lower y)); simpl; [apply IH | reflexivity].
Qed.

Lemma match_here_bounded (name : string) (adv : bool) (p : option ascii)
  (s : string) :
  match_here (Reviewer.bounded name) adv p s
  = if bounded_hit name p s
    then if adv && (String.length name =? 0)%nat then None
         else Some (advance_by (MState p 0 None)
                      (Str.take (String.length name) s))
    else None.
Proof.
  unfold match_here, Reviewer.bounded, bounded_hit. cbn [rmatch prev].
  destruct (at_boundary p s); [|reflexivity]. cbn [andb].
  rewrite rmatch_lit.
  destruct (prefix_ci name s) eqn:P; [|reflexivity]. cbn [andb rmatch].
  rewrite prev_advance_by. cbn [prev].
  destruct (at_boundary _ _); [|reflexivity].
  rewrite consumed_advance_by, take_length by now apply prefix_ci_length.
  reflexivity.
Qed.

End Literals.

(** ** Renaming a word leaves the other words alone *)

Section WordRename.
Import Chars Re ReSpec Reviewer.

Lemma last_or_nonempty (s : string) (p q : option ascii) :
  s <> "" -> last_or p s = last_or q s.
Proof. destruct s; [congruence | reflexivity]. Qed.

Lemma ends_with_word_tail (c : ascii) (s : string) :
  ends_with_word (String c s) = false -> ends_with_word s = false.
Proof. destruct s; [reflexivity | exact (fun H => H)]. Qed.

Lemma word_here_append (a b : string) :
  a <> "" -> word_here (a ++ b) = word_here a.
Proof. destruct a; [congruence | reflexivity]. Qed.

Lemma last_taken_word (o : string) :
  forall s p,
    all_word o = true -> prefix_ci o s = true ->
    word_before p = true \/ o <> "" ->
    word_before (last_or p (Str.take (String.length o) s)) = true.
Proof.
  induction o as [|x o IH]; intros s p W P H; simpl.
  - destruct H as [H|H]; [exact H | congruence].
  - destruct s as [|c s]; [discriminate|]. simpl in *.
    apply andb_prop in W as [Wx W]. apply andb_prop in P as [Pc P].
    apply IH; auto. left. simpl.
    now rewrite (char_match_word x c Pc).
Qed.

Lemma prefix_ci_first_word (o s : string) :
  o <> "" -> all_word o = true -> prefix_ci o s = true ->
  word_here s = true.
Proof.
  destruct o as [|x o]; [congruence|]. intros _ W P.
  destruct s as [|c s]; [discriminate|]. simpl in *.
  apply andb_prop in W as [Wx _]. apply andb_prop in P as [Pc _].
  now rewrite (char_match_word x c Pc).
Qed.

Lemma prefix_local (o : string) :
  forall a rest,
    all_word o = true -> a <> "" -> ends_with_word a = false ->
    prefix_ci o (a ++ rest) = prefix_ci o a.
Proof.
  induction o as [|x o IH]; intros a rest W N E; [reflexivity|].
  destruct a as [|c a]; [congruence|]. simpl in W |- *.
  apply andb_prop in W as [Wx W].
  destruct (Ascii.eqb (to_lower x) (to_lower c)) eqn:M; [|reflexivity].
  simpl. destruct a as [|d a].
  - exfalso. unfold ends_with_word in E. simpl in E.
    assert (H : is_word c = is_word x) by (apply char_match_word; exact M).
    congruence.
  - apply IH; auto. discriminate.
Qed.

Lemma within_local (o : string) :
  forall a rest,
    all_word o = true -> a <> "" -> ends_with_word a = false ->
    prefix_ci o a = true ->
    Str.drop (String.length o) (a ++ rest)
    = Str.drop (String.length o) a ++ rest /\
    Str.drop (String.length o) a <> "" /\
    Str.take (String.length o) (a ++ rest) = Str.take (String.length o) a /\
    String.length o < String.length a.
Proof.
  induction o as [|x o IH]; intros a rest W N E P.
  - destruct a; [congruence|]. simpl. repeat split; auto. lia.
  - destruct a as [|c a]; [congruence|]. simpl in W, P.
    apply andb_prop in W as [Wx W]. apply andb_prop in P as [Pc P].
    assert (Na : a <> "").
    { intros ->. unfold ends_with_word in E. simpl in E.
      assert (H : is_word c = is_word x) by (apply char_match_word; exact Pc).
      congruence. }
    destruct (IH a rest W Na (ends_with_word_tail _ _ E) P)
      as (H1 & H2 & H3 & H4).
    simpl. rewrite H1, H3. repeat split; auto. lia.
Qed.

Lemma same_word (rest : string) (o : string) :
  forall w,
    all_word o = true -> all_word w = true -> word_here rest = false ->
    prefix_ci o (w ++ rest) = true ->
    word_here (Str.drop (String.length o) (w ++ rest)) = false ->
    ci_eq w o = true.
Proof.
  induction o as [|x o IH]; intros w Wo Ww R P D.
  - destruct w as [|c w]; [reflexivity|]. simpl in *.
    apply andb_prop in Ww as [Wc _]. congruence.
  - simpl in Wo. apply andb_prop in Wo as [Wx Wo].
    destruct w as [|c w].
    + exfalso. simpl in P. destruct rest as [|d rest]; [discriminate|].
      apply andb_prop in P as [Pd _]. simpl in R.
      assert (H : is_word d = is_word x) by (apply char_match_word; exact Pd).
      congruence.
    + simpl in *. apply andb_prop in Ww as [Wc Ww].
      apply andb_prop in P as [Pc P]. rewrite Pc. simpl. now apply IH.
Qed.

Lemma expand_local (ps : list piece) (s s' : string) (st : mstate) :
  Str.take (consumed st) s = Str.take (consumed st) s' ->
  grp st = None ->
  expand ps s st = expand ps s' st.
Proof.
  intros T G. induction ps as [|[c|[|g]] ps IH]; simpl.
  - reflexivity.
  - now rewrite IH.
  - now rewrite IH, T.
  - now rewrite G.
Qed.

Variable old : string.
Variable ps : list piece.
Hypothesis old_nonempty : old <> "".
Hypothesis old_word : all_word old = true.

(** For a word, [\b] on either side says: no word character before, and
    none after. *)
Lemma hit_word (p : option ascii) (s : string) :
  bounded_hit old p s
  = negb (word_before p) && prefix_ci old s
    && negb (word_here (Str.drop (String.length old) s)).
Proof.
  unfold bounded_hit.
  destruct (prefix_ci old s) eqn:P.
  - unfold at_boundary.
    rewrite (prefix_ci_first_word _ _ old_nonempty old_word P).
    rewrite (last_taken_word old s p old_word P (or_intror old_nonempty)).
    destruct (word_before p), (word_here (Str.drop (String.length old) s));
      reflexivity.
  - now rewrite !andb_false_r.
Qed.

Lemma no_hit_nonword (p : option ascii) (s : string) :
  word_here s = false -> bounded_hit old p s = false.
Proof.
  intros H. rewrite hit_word.
  destruct (prefix_ci old s) eqn:P.
  - rewrite (prefix_ci_first_word _ _ old_nonempty old_word P) in H.
    discriminate.
  - now rewrite andb_false_r.
Qed.

Lemma no_hit_inside (p : option ascii) (s : string) :
  word_before p = true -> bounded_hit old p s = false.
Proof. intros H. rewrite hit_word, H. reflexivity. Qed.

Lemma no_hit_other_word (p : option ascii) (w rest : string) :
  all_word w = true -> ci_eq w old = false -> word_here rest = false ->
  bounded_hit old p (w ++ rest) = false.
Proof.
  intros W N R. rewrite hit_word.
  destruct (prefix_ci old (w ++ rest)) eqn:P;
    [|now rewrite andb_false_r].
  destruct (word_here (Str.drop (String.length old) (w ++ rest))) eqn:D;
    [now rewrite andb_false_r|].
  rewrite (same_word rest old w old_word W R P D) in N. discriminate.
Qed.

Lemma hit_local (a rest : string) (p : option ascii) :
  a <> "" -> ends_with_word a = false ->
  bounded_hit old p (a ++ rest) = bounded_hit old p a.
Proof.
  intros N E. rewrite !hit_word.
  rewrite (prefix_local old a rest old_word N E).
  destruct (prefix_ci old a) eqn:P; [|now rewrite !andb_false_r].
  destruct (within_local old a rest old_word N E P) as (H1 & H2 & _ & _).
  now rewrite H1, (word_here_append _ _ H2).
Qed.

Lemma match_no_hit (p : option ascii) (s : string) :
  bounded_hit old p s = false -> match_here (bounded old) false p s = None.
Proof. intros H. now rewrite match_here_bounded, H. Qed.

(** Inside a word nothing is matched. *)
Lemma scan_inside_word (rest : string) (w : string) :
  forall p,
    word_before p = true -> all_word w = true ->
    subn_scan (bounded old) ps p 0 (w ++ rest)
    = let (o, m) := subn_scan (bounded old) ps (last_or p w) 0 rest in
      (w ++ o, m).
Proof.
  induction w as [|c w IH]; intros p Hp W.
  - simpl. now destruct (subn_scan (bounded old) ps p 0 rest).
  - simpl in W. apply andb_prop in W as [Wc W].
    change (String c w ++ rest) with (String c (w ++ rest)).
    rewrite subn_scan_none by (apply match_no_hit, no_hit_inside, Hp).
    rewrite (IH (Some c)) by auto. simpl.
    now destruct (subn_scan (bounded old) ps (last_or (Some c) w) 0 rest).
Qed.

(** A whole word other than [old] is copied. *)
Lemma scan_other_word (rest : string) (w : string) (p : option ascii) :
  all_word w = true -> ci_eq w old = false -> word_here rest = false ->
  subn_scan (bounded old) ps p 0 (w ++ rest)
  = let (o, m) := subn_scan (bounded old) ps (last_or p w) 0 rest in
    (w ++ o, m).
Proof.
  intros W N R. destruct w as [|c w].
  - simpl. now destruct (subn_scan (bounded old) ps p 0 rest).
  - change (String c w ++ rest) with (String c (w ++ rest)).
    rewrite subn_scan_none.
    + simpl in W. apply andb_prop in W as [Wc W].
      rewrite (scan_inside_word rest w (Some c)) by auto. simpl.
      now destruct (subn_scan (bounded old) ps (last_or (Some c) w) 0 rest).
    + apply match_no_hit.
      now apply (no_hit_other_word p (String c w) rest).
Qed.

(** Before a character that is not a word character, what came before
    does not matter. *)
Lemma scan_nonword_start (post : string) (p q : option ascii) :
  word_here post = false ->
  subn_scan (bounded old) ps p 0 post = subn_scan (bounded old) ps q 0 post.
Proof.
  intros R. destruct post as [|d post].
  - rewrite !subn_scan_end by (apply match_no_hit, no_hit_nonword, R).
    reflexivity.
  - rewrite !subn_scan_none by (apply match_no_hit, no_hit_nonword, R).
    reflexivity.
Qed.

(** The scan of a text that ends before a word does not look beyond
    it. *)
Lemma scan_prefix (rest : string) (pre : string) :
  forall p k,
    ends_with_word pre = false ->
    k = 0 \/ k < String.length pre ->
    subn_scan (bounded old) ps p k (pre ++ rest)
    = let (o1, n1) := subn_scan (bounded old) ps p k pre in
      let (o2, n2) := subn_scan (bounded old) ps (last_or p pre) 0 rest in
      (o1 ++ o2, n1 + n2).
Proof.
  induction pre as [|c pre IH]; intros p k E K.
  - destruct K as [->|K]; [|simpl in K; lia].
    rewrite subn_scan_end by (apply match_no_hit, no_hit_nonword; reflexivity).
    simpl. now destruct (subn_scan (bounded old) ps p 0 rest).
  - change (String c pre ++ rest) with (String c (pre ++ rest)).
    assert (E' := ends_with_word_tail _ _ E).
    destruct k as [|k].
    + assert (L := hit_local (String c pre) rest p ltac:(discriminate) E).
      change (String c pre ++ rest) with (String c (pre ++ rest)) in L.
      destruct (bounded_hit old p (String c pre)) eqn:B.
      * assert (P : prefix_ci old (String c pre) = true).
        { rewrite hit_word in B. apply andb_prop in B as [B _].
          now apply andb_prop in B as [_ B]. }
        destruct (within_local old (String c pre) rest old_word
                    ltac:(discriminate) E P) as (_ & _ & T & Len).
        change (String c pre ++ rest) with (String c (pre ++ rest)) in T.
        destruct old as [|x o] eqn:Eo; [congruence|].
        set (st := advance_by (MState p 0 None)
                     (Str.take (String.length (String x o))
                        (String c pre))).
        assert (C : consumed st = S (String.length o)).
        { unfold st. rewrite consumed_advance_by, take_length.
          - reflexivity.
          - simpl in Len |- *. lia. }
        assert (G : grp st = None)
          by (unfold st; now rewrite grp_advance_by).
        rewrite (subn_scan_some _ ps p c (pre ++ rest) st (String.length o)).
        2:{ rewrite match_here_bounded, L. simpl andb. cbv iota.
            unfold st. now rewrite T. }
        2:{ exact C. }
        rewrite (subn_scan_some _ ps p c pre st (String.length o)).
        2:{ rewrite match_here_bounded, B. reflexivity. }
        2:{ exact C. }
        rewrite (IH (Some c) (String.length o)); auto.
        2:{ right. simpl in Len. lia. }
        rewrite (expand_local ps (String c (pre ++ rest)) (String c pre) st).
        2:{ rewrite C. exact T. }
        2:{ exact G. }
        cbn [last_or].
        destruct (subn_scan (bounded (String x o)) ps (Some c)
                    (String.length o) pre) as [o1 n1].
        destruct (subn_scan (bounded (String x o)) ps (last_or (Some c) pre)
                    0 rest) as [o2 n2].
        now rewrite append_assoc.
      * rewrite !subn_scan_none by (apply match_no_hit; congruence).
        rewrite (IH (Some c) 0); auto. cbn [last_or].
        destruct (subn_scan (bounded old) ps (Some c) 0 pre) as [o1 n1].
        now destruct (subn_scan (bounded old) ps (last_or (Some c) pre)
                        0 rest).
    + cbn [subn_scan]. rewrite (IH (Some c) k); auto.
      right. destruct K as [K|K]; [discriminate | simpl in K; lia].
Qed.

End WordRename.

Section BoundarySafety.
Import Chars Re ReSpec Reviewer.

Lemma all_word_append (a b : string) :
  all_word (a ++ b) = all_word a && all_word b.
Proof.
  induction a as [|c a IH]; simpl; [reflexivity|].
  now rewrite IH, andb_assoc.
Qed.

Lemma ci_eq_length (a b : string) :
  ci_eq a b = true -> String.length a = String.length b.
Proof.
  revert b. induction a as [|x a IH]; intros [|y b]; simpl;
    try reflexivity; try discriminate.
  intros H. apply andb_prop in H as [_ H]. now rewrite (IH b H).
Qed.

Lemma ci_eq_word (a b : string) :
  ci_eq a b = true -> all_word a = true -> all_word b = true.
Proof.
  revert b. induction a as [|x a IH]; intros [|y b]; simpl;
    try reflexivity; try discriminate.
  intros H W. apply andb_prop in H as [Hc H]. apply andb_prop in W as [Wx W].
  rewrite (IH b H W), andb_true_r.
  now rewrite <- (char_match_word y x Hc).
Qed.

(** C6.  Renaming the table [old] rewrites no occurrence of it that lies
    inside a longer word: where the text has a word [u ++ occ ++ v]
    (delimited on both sides by the ends of the text or by characters
    that are not word characters) containing an occurrence [occ] of the
    old name, the table pass leaves that word as it is and rewrites the
    text before it and the text after it as it would on their own. *)
Theorem embedded_occurrence_untouched
  (old new pre u occ v post : string) :
  old <> "" ->
  ci_eq occ old = true ->
  all_word (u ++ occ ++ v) = true ->
  u ++ v <> "" ->
  ends_with_word pre = false ->
  starts_with_word post = false ->
  _apply_table_mappings [(old, new)] (pre ++ (u ++ occ ++ v) ++ post)
  = match _apply_table_mappings [(old, new)] pre,
          _apply_table_mappings [(old, new)] post with
    | Some a, Some b => Some (a ++ (u ++ occ ++ v) ++ b)
    | _, _ => None
    end.
Proof.
  intros Ne Occ W Longer Epre Epost.
  assert (Wold : all_word old = true).
  { rewrite !all_word_append in W.
    apply andb_prop in W as [_ W]. apply andb_prop in W as [W _].
    exact (ci_eq_word _ _ Occ W). }
  assert (Other : ci_eq (u ++ occ ++ v) old = false).
  { destruct (ci_eq (u ++ occ ++ v) old) eqn:C; [|reflexivity].
    apply ci_eq_length in C. apply ci_eq_length in Occ.
    rewrite !length_append in C.
    assert (L : String.length (u ++ v) <> 0)
      by (destruct (u ++ v); [congruence | discriminate]).
    rewrite length_append in L. lia. }
  cbn [_apply_table_mappings]. unfold sub, subn.
  destruct (parse_template 0 new) as [ps|]; [|reflexivity].
  cbn [option_map].
  rewrite (scan_prefix old ps Ne Wold ((u ++ occ ++ v) ++ post) pre None 0
             Epre (or_introl eq_refl)).
  rewrite (scan_other_word old ps Ne Wold post (u ++ occ ++ v)
             (last_or None pre) W Other Epost).
  rewrite (scan_nonword_start old ps Ne Wold post
             (last_or (last_or None pre) (u ++ occ ++ v)) None Epost).
  destruct (subn_scan (bounded old) ps None 0 pre) as [o1 n1].
  destruct (subn_scan (bounded old) ps None 0 post) as [o2 n2].
  reflexivity.
Qed.

Lemma embedded_occurrence_untouched_witness :
  _apply_table_mappings [("order", "orders_v2")]
    ("SELECT * FROM " ++ ("re" ++ "order" ++ "_log") ++ " JOIN Order o")
  = Some ("SELECT * FROM " ++ ("re" ++ "order" ++ "_log")
          ++ " JOIN orders_v2 o").
Proof.
  rewrite (embedded_occurrence_untouched "order" "orders_v2"
             "SELECT * FROM " "re" "order" "_log" " JOIN Order o");
    try reflexivity; discriminate.
Defined.

(** The concrete case of the specification: [reorder_log] survives the
    rename of [order], whatever stands around it. *)
Lemma reorder_log_untouched :
  _apply_table_mappings [("order", "orders_v2")]
    "SELECT * FROM order o JOIN reorder_log r ON o.id = r.order_id"
  = Some "SELECT * FROM orders_v2 o JOIN reorder_log r ON o.id = r.order_id".
Proof. reflexivity. Qed.

End BoundarySafety.

(** ** The mapping audit *)

Section MappingAudit.
Import Chars Re ReSpec Reviewer ReviewerSpec CheckSpec.

Lemma last_or_append (a b : string) :
  forall p, last_or p (a ++ b) = last_or (last_or p a) b.
Proof. induction a as [|c a IH]; intros p; simpl; auto. Qed.

Lemma ci_eq_prefix (occ name rest : string) :
  ci_eq occ name = true ->
  prefix_ci name (occ ++ rest) = true /\
  Str.take (String.length name) (occ ++ rest) = occ /\
  Str.drop (String.length name) (occ ++ rest) = rest.
Proof.
  revert name. induction occ as [|x occ IH]; intros [|y name]; simpl;
    try discriminate.
  - intros _. repeat split.
  - intros H. apply andb_prop in H as [Hc H].
    destruct (IH name H) as (P & T & D). simpl in Hc.
    rewrite Hc, P, T, D. repeat split.
Qed.

Lemma ci_eq_append (a b x y : string) :
  ci_eq a x = true -> ci_eq b y = true -> ci_eq (a ++ b) (x ++ y) = true.
Proof.
  revert x. induction a as [|c a IH]; intros [|d x]; simpl;
    try discriminate; auto.
  intros H1 H2. apply andb_prop in H1 as [Hc H1].
  simpl in Hc. rewrite Hc. simpl. auto.
Qed.

(** A match at some position is found by the search. *)
Lemma search_from_app (r : regex) (s : string) (st : mstate)
  (pre : string) :
  forall p,
    match_here r false (last_or p pre) s = Some st ->
    search_from r p (pre ++ s) = true.
Proof.
  induction pre as [|c pre IH]; intros p H; simpl in *.
  - destruct s; simpl; now rewrite H.
  - destruct (match_here r false p (String c (pre ++ s))); auto.
Qed.

(** [.*?] can stop after any stretch of the line at which what follows
    matches. *)
Lemma star_lazy_reach (k : cont) (rest : string) (g : string) :
  forall st,
    no_newline g = true ->
    k (advance_by st g) rest <> None ->
    star_lazy ADot k st (g ++ rest) <> None.
Proof.
  induction g as [|c g IH]; intros st N H.
  - simpl in *. destruct rest as [|d rest]; cbn [star_lazy].
    + destruct (k st ""); congruence.
    + destruct (k st (String d rest)); congruence.
  - simpl in N. apply andb_prop in N as [Nc N].
    change (String c g ++ rest) with (String c (g ++ rest)).
    cbn [star_lazy].
    destruct (k st (String c (g ++ rest))); [discriminate|].
    simpl. simpl in Nc. rewrite Nc. apply IH; auto.
Qed.

Lemma no_word_ahead (st : mstate) (s : string) :
  word_here s = false -> rmatch (Atom AWord) st s accept = None.
Proof.
  destruct s as [|c s]; [reflexivity|]. simpl. now intros ->.
Qed.

Lemma rmatch_lit_dot_lit (a b : string) (c : ascii) (r : regex) :
  forall st s k,
    rmatch (Cat (lit a) (Cat (Atom (AChar c)) (Cat (lit b) r))) st s k
    = rmatch (Cat (lit (a ++ String c b)) r) st s k.
Proof.
  induction a as [|x a IH]; intros st s k; [reflexivity|].
  cbn [rmatch lit String.append] in *.
  destruct s as [|y s]; [reflexivity|].
  destruct (atom_matches (AChar x) y); [apply IH | reflexivity].
Qed.

Lemma qualified_found (table old_col text : string) :
  qualified_occurrence table old_col text ->
  search (qualified_by_table table old_col) text = true.
Proof.
  intros (pre & occ & post & -> & C & Epre & Epost).
  unfold search.
  change ("." ++ old_col) with (String "." old_col) in C.
  destruct (ci_eq_prefix occ _ post C) as (P & T & D).
  apply search_from_app with
    (st := advance_by (MState (last_or None pre) 0 None) occ).
  unfold match_here, qualified_by_table. cbn [rmatch prev].
  unfold ends_with_word in Epre. rewrite Epre.
  change (rmatch (lit table) ?st ?s ?k)
    with (rmatch (Cat (lit table)
                    (Cat (Atom (AChar "."))
                       (Cat (lit old_col) (NotAhead (Atom AWord)))))
            st s
            (fun st0 _ =>
               if false && (consumed st0 =? 0)%nat then None else Some st0)).
  rewrite rmatch_lit_dot_lit. cbn [rmatch].
  rewrite rmatch_lit, P, T, D.
  destruct post as [|d post]; [reflexivity|].
  unfold starts_with_word in Epost. simpl in Epost.
  cbn [atom_matches]. now rewrite Epost.
Qed.

Lemma rmatch_cat (r1 r2 : regex) (st : mstate) (s : string) (k : cont) :
  rmatch (Cat r1 r2) st s k
  = rmatch r1 st s (fun st' s' => rmatch r2 st' s' k).
Proof. reflexivity. Qed.

Lemma rmatch_wordb (st : mstate) (s : string) (k : cont) :
  rmatch WordB st s k = if at_boundary (prev st) s then k st s else None.
Proof. reflexivity. Qed.

Lemma rmatch_not_after_word (st : mstate) (s : string) (k : cont) :
  rmatch NotAfterWord st s k
  = if word_before (prev st) then None else k st s.
Proof. reflexivity. Qed.

Lemma rmatch_star_lazy (a : atom) (st : mstate) (s : string) (k : cont) :
  rmatch (StarLazy a) st s k = star_lazy a k st s.
Proof. reflexivity. Qed.

Lemma rmatch_not_ahead (r : regex) (st : mstate) (s : string) (k : cont) :
  rmatch (NotAhead r) st s k
  = match rmatch r st s accept with
    | Some _ => None
    | None => k st s
    end.
Proof. reflexivity. Qed.

Lemma rmatch_ahead (r : regex) (st : mstate) (s : string) (k : cont) :
  rmatch (Ahead r) st s k
  = match rmatch r st s accept with
    | Some _ => k st s
    | None => None
    end.
Proof. reflexivity. Qed.

(** A pasted name without operators consumes a prefix that agrees with
    it character by character, a dot of the name agreeing with any
    character but a newline. *)
Lemma rmatch_paste (name : string) :
  forall st t k,
    rmatch (paste name) st t k
    = if pasted_prefix name t
      then k (advance_by st (Str.take (String.length name) t))
             (Str.drop (String.length name) t)
      else None.
Proof.
  induction name as [|x name IH]; intros st t k; cbn [paste rmatch];
    [reflexivity|].
  destruct t as [|y t]; [reflexivity|]. cbn [pasted_prefix].
  destruct (atom_matches _ y); simpl; [apply IH | reflexivity].
Qed.

Lemma ci_eq_pasted_prefix (occ name rest : string) :
  ci_eq occ name = true -> pasted_prefix name (occ ++ rest) = true.
Proof.
  revert name. induction occ as [|x occ IH]; intros [|y name]; simpl;
    try discriminate; [reflexivity|].
  intros H. apply andb_prop in H as [Hc H]. rewrite (IH name H), andb_true_r.
  destruct (Ascii.eqb y ".") eqn:D; [|exact Hc].
  apply Ascii.eqb_eq in D. subst y. simpl.
  destruct (Ascii.eqb x newline) eqn:N; [|reflexivity].
  apply Ascii.eqb_eq in N. subst x. vm_compute in Hc. discriminate Hc.
Qed.

Lemma paste_without_dot (name : string) :
  Str.count "." name = 0 -> paste name = lit name.
Proof.
  induction name as [|c name IH]; [reflexivity|].
  cbn [Str.count paste lit]. rewrite (Ascii.eqb_sym c ".").
  destruct (Ascii.eqb "." c); [discriminate|]. simpl.
  intros H. now rewrite (IH H).
Qed.

(** The lookahead of the unqualified pattern: FROM and then the table
    name, each after a stretch of the same line. *)
Lemma from_table_ahead (table gap1 from gap2 tbl post : string)
  (st : mstate) :
  no_newline gap1 = true ->
  ci_eq from "FROM" = true ->
  at_boundary (last_or (prev st) gap1) (from ++ gap2 ++ tbl ++ post) = true ->
  at_boundary (last_or (last_or (prev st) gap1) from) (gap2 ++ tbl ++ post)
  = true ->
  no_newline gap2 = true ->
  ci_eq tbl table = true ->
  at_boundary (last_or (last_or (last_or (prev st) gap1) from) gap2)
    (tbl ++ post) = true ->
  at_boundary
    (last_or (last_or (last_or (last_or (prev st) gap1) from) gap2) tbl)
    post = true ->
  rmatch
    (Cat (StarLazy ADot)
       (Cat WordB
          (Cat (lit "FROM")
             (Cat WordB
                (Cat (StarLazy ADot)
                   (Cat WordB (Cat (paste table) WordB)))))))
    st (gap1 ++ from ++ gap2 ++ tbl ++ post) accept
  <> None.
Proof.
  intros N1 Cf B1 B2 N2 Ct B3 B4.
  destruct (ci_eq_prefix from "FROM" (gap2 ++ tbl ++ post) Cf)
    as (Pf & Tf & Df).
  destruct (ci_eq_prefix tbl table post Ct) as (_ & Tt & Dt).
  pose proof (ci_eq_pasted_prefix tbl table post Ct) as Pt.
  rewrite rmatch_cat, rmatch_star_lazy.
  apply star_lazy_reach; [exact N1|].
  rewrite rmatch_cat, rmatch_wordb, prev_advance_by, B1.
  rewrite rmatch_cat, rmatch_lit, Pf, Tf, Df.
  rewrite rmatch_cat, rmatch_wordb, !prev_advance_by, B2.
  rewrite rmatch_cat, rmatch_star_lazy.
  apply star_lazy_reach; [exact N2|].
  rewrite rmatch_cat, rmatch_wordb, !prev_advance_by, B3.
  rewrite rmatch_cat, rmatch_paste, Pt, Tt, Dt.
  rewrite rmatch_wordb, !prev_advance_by, B4.
  discriminate.
Qed.

Lemma unqualified_found (table old_col text : string) :
  followed_by_from_table table old_col text ->
  search (unqualified_before_from old_col (paste table)) text = true.
Proof.
  intros (pre & occ & gap1 & from & gap2 & tbl & post & -> & Co & Epre & Eocc
          & N1 & Cf & Bf & N2 & Ct & Bt).
  unfold between_boundaries in Bf, Bt.
  apply andb_prop in Bf as [B1 B2]. apply andb_prop in Bt as [B3 B4].
  rewrite !last_or_append in B1. rewrite !last_or_append in B2.
  rewrite !last_or_append in B3. rewrite !last_or_append in B4.
  destruct (ci_eq_prefix occ old_col (gap1 ++ from ++ gap2 ++ tbl ++ post) Co)
    as (Po & To & Do).
  unfold search.
  apply search_from_app with
    (st := advance_by (MState (last_or None pre) 0 None) occ).
  unfold match_here, unqualified_before_from.
  rewrite rmatch_cat, rmatch_not_after_word. cbn [prev].
  unfold ends_with_word in Epre. rewrite Epre.
  rewrite rmatch_cat, rmatch_lit, Po, To, Do.
  rewrite rmatch_cat, rmatch_not_ahead, (no_word_ahead _ _ Eocc).
  rewrite rmatch_ahead.
  destruct (rmatch _ _ _ accept) eqn:A; [reflexivity|].
  exfalso. revert A.
  apply from_table_ahead; auto; rewrite ?prev_advance_by; cbn [prev]; auto.
Qed.

(** Conversely, each pattern matches only where the text has the shape
    described. *)
Lemma search_from_found (r : regex) (text : string) :
  forall p,
    search_from r p text = true ->
    exists pre s st,
      text = pre ++ s /\ match_here r false (last_or p pre) s = Some st.
Proof.
  induction text as [|c t IH]; intros p H; cbn [search_from] in H.
  - destruct (match_here r false p "") as [st|] eqn:M; [|discriminate].
    exists "", "", st. now split.
  - destruct (match_here r false p (String c t)) as [st|] eqn:M.
    + exists "", (String c t), st. now split.
    + destruct (IH _ H) as (pre & s & st & -> & M').
      exists (String c pre), s, st. now split.
Qed.

Lemma prefix_ci_split (name : string) :
  forall s,
    prefix_ci name s = true ->
    exists occ rest,
      s = occ ++ rest /\ ci_eq occ name = true /\
      Str.take (String.length name) s = occ /\
      Str.drop (String.length name) s = rest.
Proof.
  induction name as [|x name IH]; intros s H.
  - exists "", s. now repeat split.
  - destruct s as [|y s]; [discriminate|]. simpl in H.
    apply andb_prop in H as [Hc H].
    destruct (IH s H) as (occ & rest & -> & C & T & D).
    exists (String y occ), rest. simpl. rewrite Hc, C, T, D. now repeat split.
Qed.

Lemma star_lazy_found (k : cont) (s : string) :
  forall st r,
    star_lazy ADot k st s = Some r ->
    exists g rest,
      s = g ++ rest /\ no_newline g = true /\
      k (advance_by st g) rest = Some r.
Proof.
  induction s as [|c s IH]; intros st r H; cbn [star_lazy] in H.
  - destruct (k st "") eqn:K; [|discriminate].
    exists "", "". repeat split; simpl; congruence.
  - destruct (k st (String c s)) eqn:K.
    + exists "", (String c s). repeat split; simpl; congruence.
    + destruct (atom_matches ADot c) eqn:A; [|discriminate].
      destruct (IH _ _ H) as (g & rest & -> & N & K').
      exists (String c g), rest. simpl. simpl in A. rewrite A, N.
      now repeat split.
Qed.

Lemma word_ahead_none (st : mstate) (s : string) :
  rmatch (Atom AWord) st s accept = None -> word_here s = false.
Proof.
  destruct s as [|c s]; [reflexivity|]. simpl.
  now destruct (is_word c).
Qed.

Lemma qualified_only (table old_col text : string) :
  search (qualified_by_table table old_col) text = true ->
  qualified_occurrence table old_col text.
Proof.
  unfold search. intros H.
  apply search_from_found in H as (pre & s & st & -> & M).
  unfold match_here, qualified_by_table in M.
  rewrite rmatch_cat, rmatch_not_after_word in M. cbn [prev] in M.
  destruct (word_before (last_or None pre)) eqn:Epre; [discriminate|].
  rewrite rmatch_lit_dot_lit, rmatch_cat, rmatch_lit in M.
  destruct (prefix_ci (table ++ String "." old_col) s) eqn:P;
    [|discriminate].
  destruct (prefix_ci_split _ _ P) as (occ & post & -> & C & T & D).
  rewrite T, D, rmatch_not_ahead in M.
  destruct (rmatch (Atom AWord) _ post accept) eqn:A; [discriminate|].
  apply word_ahead_none in A.
  exists pre, occ, post. now repeat split.
Qed.

Lemma unqualified_only (table old_col text : string) :
  search (unqualified_before_from old_col (lit table)) text = true ->
  followed_by_from_table table old_col text.
Proof.
  unfold search. intros H.
  apply search_from_found in H as (pre & s & st & -> & M).
  unfold match_here, unqualified_before_from in M.
  rewrite rmatch_cat, rmatch_not_after_word in M. cbn [prev] in M.
  destruct (word_before (last_or None pre)) eqn:Epre; [discriminate|].
  rewrite rmatch_cat, rmatch_lit in M.
  destruct (prefix_ci old_col s) eqn:Po; [|discriminate].
  destruct (prefix_ci_split _ _ Po) as (occ & r1 & -> & Co & To & Do).
  rewrite To, Do, rmatch_cat, rmatch_not_ahead in M.
  destruct (rmatch (Atom AWord) _ r1 accept) eqn:A; [discriminate|].
  apply word_ahead_none in A.
  rewrite rmatch_ahead in M.
  destruct (rmatch _ _ r1 accept) as [st1|] eqn:L; [|discriminate].
  clear M. rewrite rmatch_cat, rmatch_star_lazy in L.
  apply star_lazy_found in L as (gap1 & r2 & -> & N1 & L).
  rewrite rmatch_cat, rmatch_wordb, prev_advance_by in L.
  destruct (at_boundary _ r2) eqn:B1 in L; [|discriminate].
  rewrite rmatch_cat, rmatch_lit in L.
  destruct (prefix_ci "FROM" r2) eqn:Pf; [|discriminate].
  destruct (prefix_ci_split _ _ Pf) as (from & r3 & -> & Cf & Tf & Df).
  rewrite Tf, Df, rmatch_cat, rmatch_wordb, !prev_advance_by in L.
  destruct (at_boundary _ r3) eqn:B2 in L; [|discriminate].
  rewrite rmatch_cat, rmatch_star_lazy in L.
  apply star_lazy_found in L as (gap2 & r4 & -> & N2 & L).
  rewrite rmatch_cat, rmatch_wordb, !prev_advance_by in L.
  destruct (at_boundary _ r4) eqn:B3 in L; [|discriminate].
  rewrite rmatch_cat, rmatch_lit in L.
  destruct (prefix_ci table r4) eqn:Pt; [|discriminate].
  destruct (prefix_ci_split _ _ Pt) as (tbl & post & -> & Ct & Tt & Dt).
  rewrite Tt, Dt, rmatch_wordb, !prev_advance_by in L.
  destruct (at_boundary _ post) eqn:B4 in L; [|discriminate].
  rewrite prev_advance_by in B1.
  cbn [prev] in B1, B2, B3, B4.
  exists pre, occ, gap1, from, gap2, tbl, post.
  unfold between_boundaries, ends_with_word, starts_with_word.
  rewrite !last_or_append.
  rewrite B1, B2, B3, B4. now repeat split.
Qed.

(** For a table name without operators and without a dot, the audit
    of one column rule fires exactly on the two shapes. *)
Lemma column_hit_iff (re_search : text_search)
  (table old_col text : string) :
  no_operator table = true ->
  Str.count "." table = 0 ->
  column_hit re_search table old_col text = Some true <->
  qualified_occurrence table old_col text \/
  followed_by_from_table table old_col text.
Proof.
  intros S D. unfold column_hit, unescaped. rewrite S.
  rewrite (paste_without_dot table D). split.
  - destruct (search (qualified_by_table table old_col) text) eqn:Q.
    + intros _. left. now apply qualified_only.
    + intros H. right. apply unqualified_only. congruence.
  - intros [H|H].
    + now rewrite (qualified_found _ _ _ H).
    + apply unqualified_found in H.
      rewrite (paste_without_dot table D) in H. rewrite H.
      now destruct (search (qualified_by_table table old_col) text).
Qed.

Lemma column_hit_true (re_search : text_search)
  (table old_col text : string) :
  qualified_occurrence table old_col text \/
  (no_operator table = true /\ followed_by_from_table table old_col text) ->
  column_hit re_search table old_col text = Some true.
Proof.
  intros H. unfold column_hit.
  destruct (search (qualified_by_table table old_col) text) eqn:Q;
    [reflexivity|].
  destruct H as [H|[S H]].
  - apply qualified_found in H. congruence.
  - unfold unescaped. rewrite S. apply unqualified_found in H.
    now rewrite H.
Qed.

Lemma column_checks_for_spec (re_search : text_search)
  (table text : string) (cols : list (string * string)) :
  forall issues0 issues,
    column_checks_for re_search table cols text issues0 = Some issues ->
    incl issues0 issues /\
    forall old_col new_col,
      In (old_col, new_col) cols ->
      column_hit re_search table old_col text <> None /\
      (column_hit re_search table old_col text = Some true ->
       In (column_issue old_col new_col table) issues).
Proof.
  induction cols as [|[o n] cols IH]; intros issues0 issues H.
  - simpl in H. injection H as <-. split; [apply incl_refl | intros ? ? []].
  - cbn [column_checks_for] in H.
    destruct (column_hit re_search table o text) as [[|]|] eqn:Hit;
      [| |discriminate].
    + apply IH in H as [Hi Hr]. split.
      * intros x Hx. apply Hi, in_or_app. now left.
      * intros o' n' [E|Hin]; [|now apply Hr].
        injection E as <- <-. split; [congruence|]. intros _.
        apply Hi, in_or_app. right. now left.
    + apply IH in H as [Hi Hr]. split; [exact Hi|].
      intros o' n' [E|Hin]; [|now apply Hr].
      injection E as <- <-. split; congruence.
Qed.

Lemma column_checks_spec (re_search : text_search) (text : string)
  (cm : column_dict) :
  forall issues0 issues,
    column_checks re_search cm text issues0 = Some issues ->
    incl issues0 issues /\
    forall table cols old_col new_col,
      In (table, cols) cm -> In (old_col, new_col) cols ->
      column_hit re_search table old_col text <> None /\
      (column_hit re_search table old_col text = Some true ->
       In (column_issue old_col new_col table) issues).
Proof.
  induction cm as [|[t cs] cm IH]; intros issues0 issues H.
  - simpl in H. injection H as <-.
    split; [apply incl_refl | intros ? ? ? ? []].
  - cbn [column_checks] in H.
    destruct (column_checks_for re_search t cs text issues0)
      as [issues1|] eqn:C; [|discriminate].
    apply column_checks_for_spec in C as [Ci Cr].
    apply IH in H as [Hi Hr]. split.
    + intros x Hx. apply Hi, Ci, Hx.
    + intros table cols o n [E|Hin] Hc; [|now apply (Hr table cols)].
      injection E as <- <-. destruct (Cr o n Hc) as [N T].
      split; [exact N|]. intros Hit. apply Hi, T, Hit.
Qed.

(** With table names free of pattern operators the mapping audit
    returns its findings for every text: [re] has no pattern to
    reject. *)
Lemma check_mappings_returns (re_search : text_search) (tm : table_dict)
  (cm : column_dict) (text : string) :
  forallb no_operator (List.map fst cm) = true ->
  exists issues, _check_mappings re_search tm cm text = Some issues.
Proof.
  unfold _check_mappings. generalize (table_checks tm text).
  induction cm as [|[t cols] cm IH]; intros issues0 H; [now eexists|].
  simpl in H. apply andb_prop in H as [Ht H].
  cbn [column_checks].
  assert (G : forall i0, exists i1,
             column_checks_for re_search t cols text i0 = Some i1).
  { induction cols as [|[o n] cols IHc]; intros i0; [now eexists|].
    cbn [column_checks_for]. unfold column_hit, unescaped. rewrite Ht.
    destruct (search (qualified_by_table t o) text); [apply IHc|].
    destruct (search _ text); apply IHc. }
  destruct (G issues0) as [i1 ->]. now apply IH.
Qed.

Lemma check_mappings_raised (re_search : text_search) (tm : table_dict)
  (cm : column_dict) (text : string) :
  _check_mappings re_search tm cm text = None ->
  forallb no_operator (List.map fst cm) = false.
Proof.
  intros H. destruct (forallb no_operator (List.map fst cm)) eqn:E;
    [|reflexivity].
  destruct (check_mappings_returns re_search tm cm text E) as [i Hi].
  congruence.
Qed.

(** C7, as amended.  For every triple of the mapping set, whenever the
    audit returns it emits the column finding if the text contains the
    qualified form [table.old_column] between characters that are not
    word characters, or if the table name has no pattern operator and
    the text contains such an unqualified [old_column] that is
    followed, on the same line, by the word FROM and, further on the
    same line, by the table name between word boundaries.  The audit
    returns unless [re] rejects a pattern, which takes a table name of
    the column map with a pattern operator in it. *)
Theorem column_finding_emitted (re_search : text_search) (tm : table_dict)
  (cm : column_dict) (text : string) (table : string)
  (cols : list (string * string)) (old_col new_col : string) :
  In (table, cols) cm ->
  In (old_col, new_col) cols ->
  qualified_occurrence table old_col text \/
  (no_operator table = true /\ followed_by_from_table table old_col text) ->
  match _check_mappings re_search tm cm text with
  | Some issues => In (column_issue old_col new_col table) issues
  | None => forallb no_operator (List.map fst cm) = false
  end.
Proof.
  intros Ht Hc Hocc.
  destruct (_check_mappings re_search tm cm text) as [issues|] eqn:H;
    [|now apply check_mappings_raised in H].
  unfold _check_mappings in H.
  apply column_checks_spec in H as [_ H].
  destruct (H table cols old_col new_col Ht Hc) as [_ T].
  apply T. now apply column_hit_true.
Qed.

Lemma column_finding_emitted_witness :
  In (column_issue "cust_id" "client_id" "dbo.client")
    ["COLUMN MAPPING: 'cust_id' -> Should be 'client_id' (in table 'dbo.client')"].
Proof.
  apply (column_finding_emitted rejecting customers_tables schema_columns
           "SELECT cust_id FROM dbo.client WHERE x = 5" "dbo.client"
           [("cust_id", "client_id")] "cust_id" "client_id").
  - left. reflexivity.
  - left. reflexivity.
  - right. split; [reflexivity|].
    exists "SELECT ", "cust_id", " ", "FROM", " ", "dbo.client",
      " WHERE x = 5".
    repeat split; reflexivity.
Defined.

(** The text has the old column as a delimited token and a FROM clause
    that names the table, but the FROM clause comes before the column
    (first text) or on the next line (second text): no finding is
    emitted. *)
Lemma column_finding_needs_from_after :
  search (delimited "cust_id") "SELECT * FROM client WHERE cust_id = 5"
  = true /\
  Str.contains "FROM CLIENT"
    (Str.upper "SELECT * FROM client WHERE cust_id = 5") = true /\
  _check_mappings rejecting customers_tables customers_columns
    "SELECT * FROM client WHERE cust_id = 5" = Some [] /\
  search (delimited "cust_id")
    ("SELECT cust_id" ++ String newline "FROM client") = true /\
  Str.contains "FROM CLIENT"
    (Str.upper ("SELECT cust_id" ++ String newline "FROM client")) = true /\
  _check_mappings rejecting customers_tables customers_columns
    ("SELECT cust_id" ++ String newline "FROM client") = Some [] /\
  ~ In (column_issue "cust_id" "client_id" "client") [].
Proof.
  repeat split. intros [].
Qed.

End MappingAudit.

(** ** When the rewriting returns

    [re.sub] rejects a replacement only for what follows a backslash in
    it; with names free of backslashes every rewrite returns a text. *)

Section Returns.
Import Chars Re ReSpec Reviewer Flat FlatSpec.

Lemma parse_template_plain (groups : nat) (tpl : string) :
  plain tpl = true ->
  parse_template groups tpl = Some (literal_pieces tpl).
Proof.
  unfold parse_template.
  enough (G : plain tpl = true ->
              exists ts, tokenize tpl = Some ts /\
                         parse_tokens groups None ts
                         = Some (literal_pieces tpl)).
  { intros H. destruct (G H) as (ts & -> & E). exact E. }
  induction tpl as [|c tpl IH]; simpl; intros H.
  - exists []. now split.
  - apply andb_prop in H as [Hc H]. apply negb_true_iff in Hc.
    rewrite Hc. destruct (IH H) as (ts & -> & E).
    exists (TChar c :: ts). split; [reflexivity|].
    cbn [parse_tokens]. now rewrite E.
Qed.

Lemma parse_alias_template (new_col : string) :
  plain new_col = true ->
  parse_template 1 (alias_template new_col)
  = Some (PGroup 1 :: PLit "." :: literal_pieces new_col).
Proof.
  intros H. pose proof (parse_template_plain 1 new_col H) as P.
  unfold parse_template, alias_template in *.
  destruct (tokenize new_col) as [ts|] eqn:T; [|discriminate].
  cbn [tokenize String.append]. rewrite Ascii.eqb_refl.
  change (Ascii.eqb "." backslash) with false. cbv iota.
  rewrite T. cbn [option_map parse_tokens].
  change (Ascii.eqb "1" "g") with false.
  change (Ascii.eqb "1" "0") with false.
  change (is_digit "1") with true.
  cbv iota. cbn [tchar_digit]. change (is_digit ".") with false.
  cbv iota. change (digit_value "1" <=? 1)%nat with true. cbv iota.
  now rewrite P.
Qed.

Lemma sub_plain_returns (r : regex) (tpl text : string) :
  plain tpl = true -> sub 0 r tpl text <> None.
Proof.
  intros H. unfold sub, subn. rewrite (parse_template_plain 0 tpl H).
  discriminate.
Qed.

Lemma table_pass_returns (tm : table_dict) :
  forallb plain (List.map snd tm) = true ->
  forall text, _apply_table_mappings tm text <> None.
Proof.
  induction tm as [|[o n] tm IH]; intros H text; [discriminate|].
  simpl in H. apply andb_prop in H as [Hn H].
  cbn [_apply_table_mappings].
  destruct (sub 0 (bounded o) n text) eqn:S; [now apply IH|].
  now apply sub_plain_returns in S.
Qed.

Lemma rewrite_lines_returns (old_col new_col : string) (lines : list string) :
  plain new_col = true -> rewrite_lines old_col new_col lines <> None.
Proof.
  intros H. induction lines as [|l lines IH]; [discriminate|].
  cbn [rewrite_lines].
  destruct (rewrite_lines old_col new_col lines); [|congruence].
  destruct (search (standalone_pattern old_col) l); [|discriminate].
  destruct (search (any_qualified old_col) l); [discriminate|].
  destruct (sub 0 (standalone_pattern old_col) new_col l) eqn:S;
    [discriminate|].
  now apply sub_plain_returns in S.
Qed.

Lemma column_rule_returns (old_table old_col new_col text : string) :
  plain new_col = true ->
  apply_column_rule old_table old_col new_col text <> None.
Proof.
  intros H. unfold apply_column_rule, sub, subn.
  rewrite (parse_alias_template new_col H). cbn [option_map].
  destruct (search _ _); [|discriminate].
  destruct (rewrite_lines old_col new_col _) eqn:R; [discriminate|].
  now apply rewrite_lines_returns in R.
Qed.

Lemma column_rules_returns (old_table : string)
  (cols : list (string * string)) :
  forallb plain (List.map snd cols) = true ->
  forall text, apply_column_rules old_table cols text <> None.
Proof.
  induction cols as [|[o n] cols IH]; intros H text; [discriminate|].
  simpl in H. apply andb_prop in H as [Hn H].
  cbn [apply_column_rules].
  destruct (apply_column_rule old_table o n text) eqn:R; [now apply IH|].
  now apply column_rule_returns in R.
Qed.

Lemma column_pass_returns (n2o : table_dict) (cm : column_dict) :
  forallb plain (flat_map (fun g => List.map snd (snd g)) cm) = true ->
  forall text, apply_column_groups n2o cm text <> None.
Proof.
  induction cm as [|[g cols] cm IH]; intros H text; [discriminate|].
  simpl in H. rewrite forallb_app in H. apply andb_prop in H as [Hc H].
  cbn [apply_column_groups].
  destruct (Dict.get g n2o) as [ot|]; [|now apply IH].
  destruct (Str.truthy ot); [|now apply IH].
  destruct (apply_column_rules ot cols text) eqn:R; [now apply IH|].
  now apply column_rules_returns in R.
Qed.

(** With new names free of backslashes the correction engine returns a
    text for every input. *)
Lemma apply_corrections_returns (tm : table_dict) (cm : column_dict)
  (text : string) :
  forallb plain (CorrectionSpec.new_names tm cm) = true ->
  exists corrected, apply_corrections tm cm text = Some corrected.
Proof.
  unfold CorrectionSpec.new_names. rewrite forallb_app.
  intros H. apply andb_prop in H as [Ht Hc].
  unfold apply_corrections, _apply_column_mappings.
  destruct (_apply_table_mappings tm text) as [mid|] eqn:T.
  - destruct (apply_column_groups (new_to_old_tables tm) cm mid) eqn:C;
      [now eexists|].
    now apply column_pass_returns in C.
  - now apply table_pass_returns in T.
Qed.

(** With new names free of backslashes the flat update returns for
    every text. *)
Lemma update_rows_returns (rows : list row) :
  forallb (fun r => plain (trimmed_new r)) rows = true ->
  forall state, update_rows state rows <> None.
Proof.
  induction rows as [|r rows IH]; intros H state; [discriminate|].
  simpl in H. apply andb_prop in H as [Hr H].
  cbn [update_rows].
  destruct (update_row state r) eqn:U; [now apply IH|].
  exfalso. destruct state as [sql changes].
  unfold update_row in U. cbv beta iota in U.
  fold (trimmed_old r) (trimmed_new r) in U.
  destruct (_ && _ && _) in U; [|discriminate].
  destruct (0 <? _)%nat in U; [|discriminate].
  destruct (sub 0 (pattern (trimmed_old r)) (trimmed_new r) sql) eqn:S;
    [discriminate|].
  now apply sub_plain_returns in S.
Qed.

Lemma update_sql_with_mappings_returns (sql : string)
  (mapping_df : list row) :
  forallb (fun r => plain (trimmed_new r)) mapping_df = true ->
  exists out changes,
    update_sql_with_mappings sql mapping_df = Some (out, changes).
Proof.
  intros H. unfold update_sql_with_mappings.
  destruct (update_rows (sql, []) (sort_values mapping_df))
    as [[out changes]|] eqn:U; [now eexists; eexists|].
  exfalso. revert U. apply update_rows_returns.
  apply forallb_forall. intros r Hr.
  apply (proj1 (forallb_forall _ _) H). now apply sort_values_incl.
Qed.

End Returns.

(** ** The table pass, word by word *)

Section Tokens.
Import Chars Re ReSpec Reviewer TokenSpec.

Lemma subn_scan_skip (r : regex) (ps : list piece) (a rest : string) :
  forall p,
    subn_scan r ps p (String.length a) (a ++ rest)
    = subn_scan r ps (last_or p a) 0 rest.
Proof.
  induction a as [|c a IH]; intros p; [reflexivity|]. simpl. apply IH.
Qed.

Lemma expand_literal (new s : string) (st : mstate) :
  expand (literal_pieces new) s st = new.
Proof. induction new as [|c new IH]; simpl; [|rewrite IH]; auto. Qed.

Lemma tokens_word_run (rest : string) (t : string) :
  all_word t = true -> t <> "" -> word_here rest = false ->
  tokens (t ++ rest) = t :: tokens rest.
Proof.
  induction t as [|c t IH]; intros W N R; [congruence|].
  simpl in W. apply andb_prop in W as [Wc W].
  destruct t as [|d t].
  - simpl. now rewrite Wc, R.
  - change (String c (String d t) ++ rest)
      with (String c (String d t ++ rest)).
    cbn [tokens]. rewrite IH by (auto; discriminate).
    assert (Wd : word_here (String d t ++ rest) = true).
    { simpl in W |- *. now apply andb_prop in W as [Wd _]. }
    now rewrite Wc, Wd.
Qed.

Lemma split_first_token (s : string) :
  s <> "" ->
  exists t rest,
    s = t ++ rest /\ t <> "" /\ tokens s = t :: tokens rest /\
    ((all_word t = true /\ word_here rest = false) \/
     (word_here t = false /\ String.length t = 1)).
Proof.
  induction s as [|c s IH]; intros N; [congruence|].
  destruct (is_word c) eqn:Wc.
  - destruct (word_here s) eqn:Ws.
    + assert (Ns : s <> "") by (destruct s; [discriminate | discriminate]).
      destruct (IH Ns) as (t & rest & E & Nt & T & [[Wt R]|[Wt L]]).
      * exists (String c t), rest. subst s. repeat split.
        -- discriminate.
        -- apply (tokens_word_run rest (String c t)); auto.
           ++ simpl. now rewrite Wc.
           ++ discriminate.
        -- left. split; [simpl; now rewrite Wc | exact R].
      * exfalso. subst s. destruct t as [|d t]; [congruence|].
        simpl in Ws, Wt. congruence.
    + exists (String c ""), s. repeat split.
      * discriminate.
      * simpl. now rewrite Wc, Ws.
      * left. split; [simpl; now rewrite Wc | exact Ws].
  - exists (String c ""), s. repeat split.
    + discriminate.
    + simpl. now rewrite Wc.
    + right. split; [exact Wc | reflexivity].
Qed.

Lemma nonword_token_not_name (old t : string) :
  old <> "" -> all_word old = true -> word_here t = false ->
  ci_eq t old = false.
Proof.
  intros N W H. destruct t as [|c t]; destruct old as [|x old];
    try congruence; try reflexivity.
  simpl in *. apply andb_prop in W as [Wx _].
  destruct (Ascii.eqb (to_lower x) (to_lower c)) eqn:E; [|reflexivity].
  assert (G : is_word c = is_word x) by (apply char_match_word; exact E).
  congruence.
Qed.

Variable old new : string.
Hypothesis old_nonempty : old <> "".
Hypothesis old_word : all_word old = true.

(** A whole word equal to [old] up to case is matched. *)
Lemma hit_whole_word (p : option ascii) (occ post : string) :
  ci_eq occ old = true -> word_before p = false -> word_here post = false ->
  bounded_hit old p (occ ++ post) = true.
Proof.
  intros C P R. rewrite (hit_word old old_nonempty old_word).
  destruct (ci_eq_prefix occ old post C) as (Pr & _ & D).
  now rewrite P, Pr, D, R.
Qed.

Lemma scan_whole_word (p : option ascii) (occ post : string) :
  ci_eq occ old = true -> word_before p = false -> word_here post = false ->
  subn_scan (bounded old) (literal_pieces new) p 0 (occ ++ post)
  = let (o, m) :=
      subn_scan (bounded old) (literal_pieces new) (last_or p occ) 0 post in
    (new ++ o, S m).
Proof.
  intros C P R.
  pose proof (hit_whole_word p occ post C P R) as H.
  destruct (ci_eq_prefix occ old post C) as (_ & T & _).
  pose proof (ci_eq_length _ _ C) as L.
  destruct occ as [|c occ].
  { destruct old; [congruence | discriminate]. }
  change (String c occ ++ post) with (String c (occ ++ post)) in *.
  rewrite (subn_scan_some _ _ p c (occ ++ post)
             (advance_by (MState p 0 None)
                (Str.take (String.length old) (String c (occ ++ post))))
             (String.length occ)).
  - rewrite subn_scan_skip, expand_literal. reflexivity.
  - now rewrite match_here_bounded, H, <- L.
  - rewrite consumed_advance_by, T. reflexivity.
Qed.

(** The scan of [re.subn] for [\b old \b] renames the words equal to
    [old] and counts them. *)
Lemma scan_tokens (n : nat) :
  forall s p,
    String.length s <= n ->
    word_before p = false \/ word_here s = false ->
    subn_scan (bounded old) (literal_pieces new) p 0 s
    = (rename_words old new s, count_words old s).
Proof.
  induction n as [|n IH]; intros s p Len Inv.
  - destruct s; [|simpl in Len; lia].
    rewrite subn_scan_end; [reflexivity|].
    apply match_no_hit, no_hit_nonword; auto.
  - destruct s as [|c0 s0] eqn:Es.
    { rewrite subn_scan_end; [reflexivity|].
      apply match_no_hit, no_hit_nonword; auto. }
    rewrite <- Es in *.
    assert (Ns : s <> "") by (rewrite Es; discriminate).
    destruct (split_first_token s Ns)
      as (t & rest & E & Nt & T & [[Wt R]|[Wt L1]]).
    + assert (Lr : String.length rest <= n).
      { rewrite E, length_append in Len.
        destruct t; [congruence | simpl in Len; lia]. }
      assert (Pw : word_before p = false).
      { destruct Inv as [H|H]; [exact H|].
        rewrite E in H. destruct t as [|d t]; [congruence|].
        simpl in H, Wt. apply andb_prop in Wt as [Wd _]. congruence. }
      unfold rename_words, count_words. rewrite T. cbn [List.map glue filter].
      unfold rename_token at 1. rewrite E.
      destruct (ci_eq t old) eqn:C.
      * rewrite (scan_whole_word p t rest C Pw R).
        rewrite (IH rest (last_or p t) Lr (or_intror R)). reflexivity.
      * rewrite (scan_other_word old _ old_nonempty old_word rest t p Wt C R).
        rewrite (IH rest (last_or p t) Lr (or_intror R)). reflexivity.
    + destruct t as [|d [|e t]]; try discriminate. simpl in Wt.
      assert (Lr : String.length rest <= n)
        by (rewrite E in Len; simpl in Len; lia).
      unfold rename_words, count_words. rewrite T. cbn [List.map glue filter].
      unfold rename_token at 1.
      rewrite (nonword_token_not_name old (String d "") old_nonempty old_word)
        by exact Wt.
      rewrite E. change (String d "" ++ rest) with (String d rest).
      rewrite subn_scan_none.
      * rewrite (IH rest (Some d) Lr (or_introl Wt)). reflexivity.
      * apply match_no_hit, (no_hit_nonword old old_nonempty old_word).
        exact Wt.
Qed.

End Tokens.

Section TokenLists.
Import Chars Re ReSpec Reviewer TokenSpec TokenFacts.

(** Induction over a text token by token. *)
Lemma token_induction (P : string -> Prop) :
  P "" ->
  (forall t rest,
      t <> "" -> tokens (t ++ rest) = t :: tokens rest ->
      (all_word t = true /\ word_here rest = false) \/
      (word_here t = false /\ String.length t = 1) ->
      P rest -> P (t ++ rest)) ->
  forall s, P s.
Proof.
  intros H0 Hs s.
  enough (G : forall n s, String.length s <= n -> P s) by (eapply G; eauto).
  clear s. induction n as [|n IH]; intros s L.
  - destruct s; [exact H0 | simpl in L; lia].
  - destruct s as [|c s0] eqn:E; [exact H0|]. rewrite <- E in *.
    assert (N : s <> "") by (rewrite E; discriminate).
    destruct (split_first_token s N) as (t & rest & Es & Nt & T & C).
    rewrite Es. apply Hs; auto; [now rewrite <- Es|].
    apply IH. rewrite Es, length_append in L.
    destruct t; [congruence | simpl in L; lia].
Qed.

Lemma glue_tokens (s : string) : glue (tokens s) = s.
Proof.
  induction s as [|t rest Nt T C IH] using token_induction; [reflexivity|].
  rewrite T. simpl. now rewrite IH.
Qed.

Lemma identifier_nonempty_word (t : string) :
  is_identifier t = true <-> t <> "" /\ all_word t = true.
Proof.
  unfold is_identifier. destruct t; simpl; split.
  - discriminate.
  - intros [H _]. congruence.
  - intros H. split; [discriminate | exact H].
  - intros [_ H]. exact H.
Qed.

Lemma tokens_well_formed (s : string) : well_formed (tokens s) = true.
Proof.
  induction s as [|t rest Nt T C IH] using token_induction; [reflexivity|].
  rewrite T. cbn [well_formed]. rewrite IH, glue_tokens, andb_true_r.
  destruct C as [[W R]|[W L]].
  - rewrite R. simpl.
    now rewrite (proj2 (identifier_nonempty_word t) (conj Nt W)).
  - unfold other_token. rewrite W, L. simpl. apply orb_true_r.
Qed.

Lemma other_token_shape (t : string) :
  other_token t = true ->
  exists c, t = String c "" /\ is_word c = false.
Proof.
  unfold other_token. destruct t as [|c [|d t]]; simpl;
    try (rewrite ?andb_false_r; discriminate).
  intros H. apply andb_prop in H as [H _]. apply negb_true_iff in H.
  now exists c.
Qed.

Lemma tokens_glue (ts : list string) :
  well_formed ts = true -> tokens (glue ts) = ts.
Proof.
  induction ts as [|t ts IH]; [reflexivity|].
  cbn [well_formed glue]. intros H. apply andb_prop in H as [H W].
  apply orb_prop in H as [H|H].
  - apply andb_prop in H as [I R]. apply negb_true_iff in R.
    apply identifier_nonempty_word in I as [N A].
    rewrite (tokens_word_run _ _ A N R). now rewrite IH.
  - apply other_token_shape in H as (c & -> & Wc).
    simpl. rewrite Wc. simpl. now rewrite IH.
Qed.

Lemma other_token_not_name (old t : string) :
  is_identifier old = true -> other_token t = true -> ci_eq t old = false.
Proof.
  intros I H. apply identifier_nonempty_word in I as [N W].
  apply other_token_shape in H as (c & -> & Wc).
  now apply nonword_token_not_name.
Qed.

Lemma word_here_identifier (t rest : string) :
  is_identifier t = true -> word_here (t ++ rest) = true.
Proof.
  intros I. apply identifier_nonempty_word in I as [N W].
  destruct t as [|c t]; [congruence|]. simpl in *.
  now apply andb_prop in W as [W _].
Qed.

Section OneRule.

Variable old new : string.
Hypothesis old_id : is_identifier old = true.
Hypothesis new_id : is_identifier new = true.

Lemma rename_token_kind (t : string) :
  (is_identifier t = true -> is_identifier (rename_token old new t) = true) /\
  (other_token t = true -> rename_token old new t = t).
Proof.
  unfold rename_token. split.
  - intros I. now destruct (ci_eq t old).
  - intros O. now rewrite (other_token_not_name old t old_id O).
Qed.

Lemma renamed_first (ts : list string) :
  well_formed ts = true ->
  word_here (glue (List.map (rename_token old new) ts)) = word_here (glue ts).
Proof.
  destruct ts as [|t ts]; [reflexivity|].
  cbn [well_formed List.map glue]. intros H.
  apply andb_prop in H as [H _]. apply orb_prop in H as [H|H].
  - apply andb_prop in H as [I _].
    rewrite (word_here_identifier _ _ I).
    now rewrite (word_here_identifier _ _
                   (proj1 (rename_token_kind t) I)).
  - rewrite (proj2 (rename_token_kind t) H).
    apply other_token_shape in H as (c & -> & Wc). reflexivity.
Qed.

Lemma renamed_well_formed (ts : list string) :
  well_formed ts = true ->
  well_formed (List.map (rename_token old new) ts) = true.
Proof.
  induction ts as [|t ts IH]; [reflexivity|].
  cbn [well_formed List.map]. intros H. apply andb_prop in H as [H W].
  rewrite (IH W), andb_true_r, (renamed_first ts W).
  apply orb_prop in H as [H|H].
  - apply andb_prop in H as [I R].
    now rewrite (proj1 (rename_token_kind t) I), R.
  - rewrite (proj2 (rename_token_kind t) H), H. apply orb_true_r.
Qed.

Lemma rename_words_glue (ts : list string) :
  well_formed ts = true ->
  rename_words old new (glue ts) = glue (List.map (rename_token old new) ts).
Proof. intros W. unfold rename_words. now rewrite (tokens_glue ts W). Qed.

End OneRule.

Lemma rename_all_well_formed (tm : table_dict) :
  forall ts,
    identifier_rules tm = true -> well_formed ts = true ->
    well_formed (List.map (rename_token_all tm) ts) = true /\
    fold_left (fun s kv => rename_words (fst kv) (snd kv) s) tm (glue ts)
    = glue (List.map (rename_token_all tm) ts).
Proof.
  induction tm as [|[o n] tm IH]; intros ts I W.
  - unfold rename_token_all. simpl. rewrite map_id. now split.
  - simpl in I. apply andb_prop in I as [Io I].
    apply andb_prop in Io as [Io In'].
    pose proof (renamed_well_formed o n Io In' ts W) as W1.
    destruct (IH _ I W1) as [W2 E]. rewrite map_map in W2, E.
    split.
    + erewrite map_ext; [exact W2|]. reflexivity.
    + cbn [fold_left fst snd]. rewrite (rename_words_glue o n ts W), E.
      f_equal.
Qed.

End TokenLists.

Section TablePassWords.
Import Chars Re ReSpec Reviewer TokenSpec TokenFacts RuleSets.

Lemma all_word_plain (s : string) : all_word s = true -> plain s = true.
Proof.
  induction s as [|c s IH]; [reflexivity|]. simpl. intros H.
  apply andb_prop in H as [Wc W]. rewrite (IH W), andb_true_r.
  destruct (Ascii.eqb c backslash) eqn:E; [|reflexivity].
  apply Ascii.eqb_eq in E. subst c. discriminate Wc.
Qed.

Lemma identifier_plain (s : string) : is_identifier s = true -> plain s = true.
Proof.
  intros I. apply identifier_nonempty_word in I as [_ W].
  now apply all_word_plain.
Qed.

Lemma subn_identifier (old new text : string) :
  is_identifier old = true -> plain new = true ->
  subn 0 (bounded old) new text
  = Some (rename_words old new text, count_words old text).
Proof.
  intros I P. apply identifier_nonempty_word in I as [N W].
  unfold subn. rewrite (parse_template_plain 0 new P).
  now rewrite (scan_tokens old new N W (String.length text) text None
                 (le_n _) (or_introl eq_refl)).
Qed.

(** X1.  A table rule whose old name is an identifier renames the whole
    words of the text equal to it up to case, and nothing else: each such
    word becomes the new name as written; every other word, in
    particular a longer word containing the old name, and every other
    character stay as they are. *)
Theorem table_rule_renames_words (old new text : string) :
  is_identifier old = true -> plain new = true ->
  _apply_table_mappings [(old, new)] text
  = Some (rename_words old new text).
Proof.
  intros I P. cbn [_apply_table_mappings]. unfold sub.
  now rewrite (subn_identifier old new text I P).
Qed.

Lemma table_rule_renames_words_witness :
  _apply_table_mappings [("customers", "dbo.client")]
    "SELECT * FROM Customers c JOIN customers_old o ON c.id = o.id"
  = Some "SELECT * FROM dbo.client c JOIN customers_old o ON c.id = o.id".
Proof.
  rewrite (table_rule_renames_words "customers" "dbo.client"); reflexivity.
Defined.

Lemma table_pass_fold (tm : table_dict) :
  identifier_rules tm = true ->
  forall text,
    _apply_table_mappings tm text
    = Some (fold_left (fun s kv => rename_words (fst kv) (snd kv) s) tm text).
Proof.
  induction tm as [|[o n] tm IH]; intros I text; [reflexivity|].
  simpl in I. apply andb_prop in I as [Io I]. apply andb_prop in Io as [Io In'].
  cbn [_apply_table_mappings]. unfold sub.
  rewrite (subn_identifier o n text Io (identifier_plain n In')). simpl.
  now apply IH.
Qed.

Lemma fold_rename_words (tm : table_dict) (text : string) :
  identifier_rules tm = true ->
  fold_left (fun s kv => rename_words (fst kv) (snd kv) s) tm text
  = rename_words_all tm text.
Proof.
  intros I. rewrite <- (glue_tokens text) at 1.
  exact (proj2 (rename_all_well_formed tm (tokens text) I
                  (tokens_well_formed text))).
Qed.

(** X2.  With identifier names throughout, the table pass works token by
    token: every word of the text is sent through the rules in order,
    and everything between the words is kept. *)
Theorem table_pass_renames_words (tm : table_dict) (text : string) :
  identifier_rules tm = true ->
  _apply_table_mappings tm text = Some (rename_words_all tm text).
Proof.
  intros I. rewrite (table_pass_fold tm I). f_equal.
  now apply fold_rename_words.
Qed.

Lemma table_pass_renames_words_witness :
  _apply_table_mappings [("customers", "client"); ("orders", "sales")]
    "SELECT * FROM Customers c, orders o, reorders r"
  = Some "SELECT * FROM client c, sales o, reorders r".
Proof.
  rewrite (table_pass_renames_words
             [("customers", "client"); ("orders", "sales")]); reflexivity.
Defined.

(** What the rules do to one token. *)
Lemma rename_token_all_cases (tm : table_dict) :
  forall t,
    rename_token_all tm t = t \/
    In (rename_token_all tm t) (List.map snd tm).
Proof.
  unfold rename_token_all.
  induction tm as [|[o n] tm IH]; intros t; [now left|].
  cbn [fold_left fst snd List.map].
  destruct (IH (rename_token o n t)) as [H|H]; [|right; now right].
  rewrite H. unfold rename_token.
  destruct (ci_eq t o); [right; now left | now left].
Qed.

Lemma rename_token_all_stable (tm : table_dict) (t : string) :
  (forall o n, In (o, n) tm -> ci_eq t o = false) ->
  rename_token_all tm t = t.
Proof.
  unfold rename_token_all.
  induction tm as [|[o n] tm IH]; intros H; [reflexivity|].
  cbn [fold_left fst snd]. unfold rename_token at 2.
  rewrite (H o n (or_introl eq_refl)). apply IH.
  intros o' n' Hin. apply (H o' n'). now right.
Qed.

Lemma collision_free_spec (tm : table_dict) :
  collision_free tm = true -> no_collision tm.
Proof.
  unfold collision_free, no_collision. intros H o n o' n' H1 H2.
  rewrite forallb_forall in H. specialize (H _ H1).
  rewrite forallb_forall in H. specialize (H _ H2).
  now apply negb_true_iff in H.
Qed.

Lemma rule_eqb_eq (a b : string * string) : rule_eqb a b = true <-> a = b.
Proof.
  unfold rule_eqb. destruct a as [a1 a2], b as [b1 b2]. simpl.
  rewrite andb_true_iff, !String.eqb_eq. split.
  - now intros [-> ->].
  - intros H. injection H as -> ->. now split.
Qed.

Lemma unambiguous_spec (tm : table_dict) :
  unambiguous tm = true -> distinct_rules tm.
Proof.
  unfold unambiguous, distinct_rules. intros H o n o' n' H1 H2 C.
  rewrite forallb_forall in H. specialize (H _ H1).
  rewrite forallb_forall in H. specialize (H _ H2). simpl in H.
  rewrite C in H. simpl in H. now apply rule_eqb_eq.
Qed.

Lemma rename_token_all_settles (tm : table_dict) (t : string) :
  no_collision tm ->
  rename_token_all tm (rename_token_all tm t) = rename_token_all tm t.
Proof.
  intros NC. destruct (rename_token_all_cases tm t) as [E|H].
  - now rewrite !E.
  - apply rename_token_all_stable. intros o n' Hin.
    apply in_map_iff in H as ([o0 n0] & E & H0). simpl in E. subst n0.
    exact (NC _ _ _ _ H0 Hin).
Qed.

(** X3.  With identifier names and no new name equal to an old name up
    to case, the table pass is idempotent: applied to its own result it
    changes nothing. *)
Theorem table_pass_idempotent (tm : table_dict) (text : string) :
  identifier_rules tm = true ->
  collision_free tm = true ->
  exists once,
    _apply_table_mappings tm text = Some once /\
    _apply_table_mappings tm once = Some once.
Proof.
  intros I C. apply collision_free_spec in C.
  exists (rename_words_all tm text).
  rewrite !(table_pass_fold tm I), !(fold_rename_words tm _ I).
  split; [reflexivity|]. f_equal.
  unfold rename_words_all.
  destruct (rename_all_well_formed tm (tokens text) I
              (tokens_well_formed text)) as [W _].
  rewrite (tokens_glue _ W), map_map. f_equal.
  apply map_ext. intros t. now apply rename_token_all_settles.
Qed.

Lemma table_pass_idempotent_witness :
  exists once,
    _apply_table_mappings [("customers", "client"); ("orders", "sales")]
      "SELECT * FROM Customers c, orders o" = Some once /\
    _apply_table_mappings [("customers", "client"); ("orders", "sales")] once
    = Some once.
Proof.
  apply (table_pass_idempotent
           [("customers", "client"); ("orders", "sales")]); reflexivity.
Defined.

Lemma ci_eq_common (a b c : string) :
  ci_eq a b = true -> ci_eq a c = true -> ci_eq b c = true.
Proof.
  revert b c. induction a as [|x a IH]; intros [|y b] [|z c]; simpl;
    try discriminate; auto.
  intros H1 H2. apply andb_prop in H1 as [E1 H1].
  apply andb_prop in H2 as [E2 H2]. rewrite (IH _ _ H1 H2), andb_true_r.
  apply Ascii.eqb_eq in E1, E2. apply Ascii.eqb_eq. congruence.
Qed.

Lemma rename_token_all_hit (tm : table_dict) :
  forall t o n,
    distinct_rules tm -> no_collision tm ->
    In (o, n) tm -> ci_eq t o = true ->
    rename_token_all tm t = n.
Proof.
  induction tm as [|[o1 n1] tm IH]; intros t o n D NC Hin C; [destruct Hin|].
  assert (NC' : no_collision tm).
  { intros a b a' b' H1 H2. apply (NC a b a' b'); now right. }
  assert (D' : distinct_rules tm).
  { intros a b a' b' H1 H2. apply (D a b a' b'); now right. }
  assert (Stable : rename_token_all tm n1 = n1).
  { apply rename_token_all_stable. intros a b Hab.
    apply (NC o1 n1 a b); [now left | now right]. }
  unfold rename_token_all in *. cbn [fold_left fst snd].
  unfold rename_token at 2.
  destruct (ci_eq t o1) eqn:C1.
  - assert (E : (o, n) = (o1, n1)).
    { apply D; auto; [now left|]. exact (ci_eq_common t o o1 C C1). }
    injection E as -> ->. exact Stable.
  - destruct Hin as [E|Hin].
    + injection E as -> ->. congruence.
    + now apply (IH t o n).
Qed.

Lemma rules_within_spec (tm tm' : table_dict) :
  rules_within tm tm' = true -> incl tm tm'.
Proof.
  unfold rules_within. intros H kv Hin.
  rewrite forallb_forall in H. specialize (H _ Hin).
  apply existsb_exists in H as (kv' & Hin' & E).
  apply rule_eqb_eq in E. now subst.
Qed.

Lemma rename_token_all_same_rules (tm tm' : table_dict) (t : string) :
  incl tm tm' -> incl tm' tm ->
  distinct_rules tm -> no_collision tm ->
  rename_token_all tm t = rename_token_all tm' t.
Proof.
  intros I1 I2 D NC.
  assert (D' : distinct_rules tm').
  { intros a b a' b' H1 H2. apply (D a b a' b'); auto. }
  assert (NC' : no_collision tm').
  { intros a b a' b' H1 H2. apply (NC a b a' b'); auto. }
  destruct (existsb (fun kv => ci_eq t (fst kv)) tm) eqn:E.
  - apply existsb_exists in E as ([o n] & Hin & C). simpl in C.
    rewrite (rename_token_all_hit tm t o n D NC Hin C).
    now rewrite (rename_token_all_hit tm' t o n D' NC' (I1 _ Hin) C).
  - assert (M : forall o n, In (o, n) tm -> ci_eq t o = false).
    { intros o n Hin. destruct (ci_eq t o) eqn:C; [|reflexivity].
      assert (X : existsb (fun kv => ci_eq t (fst kv)) tm = true)
        by (apply existsb_exists; exists (o, n); now split).
      congruence. }
    rewrite (rename_token_all_stable tm t M).
    symmetry. apply rename_token_all_stable.
    intros o n Hin. apply (M o n), I2, Hin.
Qed.

Lemma identifier_rules_incl (tm tm' : table_dict) :
  incl tm' tm -> identifier_rules tm = true -> identifier_rules tm' = true.
Proof.
  unfold identifier_rules. intros I H. apply forallb_forall.
  intros kv Hin. rewrite forallb_forall in H. apply H, I, Hin.
Qed.

(** X4.  With identifier names, no new name equal to an old name and no
    two rules for one old name (all up to case), the result of the table
    pass depends only on the set of rules, not on their order. *)
Theorem table_pass_order_independent (tm tm' : table_dict) (text : string) :
  identifier_rules tm = true ->
  collision_free tm = true ->
  unambiguous tm = true ->
  same_rules tm tm' = true ->
  _apply_table_mappings tm text = _apply_table_mappings tm' text.
Proof.
  intros I C U S. unfold same_rules in S. apply andb_prop in S as [S1 S2].
  apply rules_within_spec in S1, S2.
  pose proof (identifier_rules_incl tm tm' S2 I) as I'.
  rewrite (table_pass_fold tm I), (table_pass_fold tm' I').
  rewrite (fold_rename_words tm text I), (fold_rename_words tm' text I').
  f_equal. unfold rename_words_all. f_equal. apply map_ext. intros t.
  apply rename_token_all_same_rules; auto using collision_free_spec,
    unambiguous_spec.
Qed.

Lemma table_pass_order_independent_witness :
  _apply_table_mappings [("customers", "client"); ("orders", "sales")]
    "SELECT * FROM Customers c, orders o"
  = _apply_table_mappings [("orders", "sales"); ("customers", "client")]
      "SELECT * FROM Customers c, orders o".
Proof.
  apply (table_pass_order_independent
           [("customers", "client"); ("orders", "sales")]
           [("orders", "sales"); ("customers", "client")]); reflexivity.
Defined.

End TablePassWords.

(** ** When the table pass raises, and column groups it never reaches *)

Section PassEdges.
Import Chars Re ReSpec Reviewer TokenSpec AuditSpec.

Lemma accepted_spec (groups : nat) (tpl : string) :
  accepted groups tpl = true <-> parse_template groups tpl <> None.
Proof.
  unfold accepted. destruct (parse_template groups tpl); split;
    congruence.
Qed.

(** X5.  Whether the table pass returns does not depend on the text:
    it returns for every text when [re.sub] accepts every new table
    name as a replacement, and for no text otherwise (a rejected name
    fails the pass even on a text in which its old name never occurs). *)
Theorem table_pass_returns_iff (tm : table_dict) (text : string) :
  (exists out, _apply_table_mappings tm text = Some out) <->
  forallb (accepted 0) (List.map snd tm) = true.
Proof.
  split.
  - intros [out H]. apply table_pass_templates in H.
    induction H as [|[o n] tm H _ IH]; [reflexivity|].
    simpl. rewrite IH, andb_true_r. now apply accepted_spec.
  - revert text. induction tm as [|[o n] tm IH]; intros text H.
    + now exists text.
    + simpl in H. apply andb_prop in H as [Hn H].
      cbn [_apply_table_mappings]. unfold sub, subn.
      unfold accepted in Hn.
      destruct (parse_template 0 n) as [ps|]; [|discriminate].
      simpl. now apply IH.
Qed.

Lemma get_of_items_absent {V} (items : list (string * V)) (k : string) :
  ~ In k (List.map fst items) -> Dict.get k (Dict.of_items items) = None.
Proof.
  intros H. unfold Dict.of_items.
  now rewrite (fold_put_get_absent items k H).
Qed.

Lemma column_groups_unanchored (n2o : table_dict) (cm : column_dict)
  (text : string) :
  (forall g cols, In (g, cols) cm -> Dict.get g n2o = None) ->
  apply_column_groups n2o cm text = Some text.
Proof.
  induction cm as [|[g cols] cm IH]; intros H; [reflexivity|].
  cbn [apply_column_groups].
  rewrite (H g cols (or_introl eq_refl)). apply IH.
  intros g' cols' Hin. apply (H g' cols'). now right.
Qed.

(** X6.  Column rules are applied only under a table that some table
    rule renames to: when no column group is keyed by the new name of a
    table rule, the column pass leaves every text as it is (whatever the
    column rules say) and the corrections are those of the table pass
    alone. *)
Theorem unanchored_columns_ignored (tm : table_dict) (cm : column_dict)
  (text : string) :
  groups_unanchored tm cm = true ->
  _apply_column_mappings tm cm text = Some text /\
  apply_corrections tm cm text = _apply_table_mappings tm text.
Proof.
  intros H.
  assert (G : forall t, _apply_column_mappings tm cm t = Some t).
  { intros t. unfold _apply_column_mappings.
    apply column_groups_unanchored. intros g cols Hin.
    unfold new_to_old_tables. apply get_of_items_absent.
    rewrite map_map. simpl.
    unfold groups_unanchored in H. rewrite forallb_forall in H.
    specialize (H _ Hin). simpl in H. apply negb_true_iff in H.
    intros Hg. assert (X : existsb (String.eqb g) (List.map snd tm) = true).
    { apply existsb_exists. exists g. split; [exact Hg|].
      apply String.eqb_refl. }
    congruence. }
  split; [apply G|].
  unfold apply_corrections.
  destruct (_apply_table_mappings tm text); [apply G | reflexivity].
Qed.

Lemma unanchored_columns_ignored_witness :
  _apply_column_mappings [("customers", "client")]
    [("customers", [("cust_id", "client_id")])]
    "SELECT c.cust_id FROM customers c"
  = Some "SELECT c.cust_id FROM customers c" /\
  apply_corrections [("customers", "client")]
    [("customers", [("cust_id", "client_id")])]
    "SELECT c.cust_id FROM customers c"
  = _apply_table_mappings [("customers", "client")]
      "SELECT c.cust_id FROM customers c".
Proof.
  apply (unanchored_columns_ignored [("customers", "client")]
           [("customers", [("cust_id", "client_id")])]).
  reflexivity.
Defined.

Lemma scan_empty_name (new : string) (s : string) :
  forall p,
    fst (subn_scan (bounded "") (literal_pieces new) p 0 s)
    = insert_at_boundaries new p s.
Proof.
  assert (M : forall adv p t,
             match_here (bounded "") adv p t
             = if at_boundary p t
               then if adv then None else Some (MState p 0 None)
               else None).
  { intros adv p t. rewrite match_here_bounded. unfold bounded_hit.
    simpl. destruct (at_boundary p t), adv; reflexivity. }
  induction s as [|c s IH]; intros p.
  - cbn [subn_scan insert_at_boundaries]. rewrite !M.
    destruct (at_boundary p ""); simpl.
    + now rewrite expand_literal, append_empty_r.
    + reflexivity.
  - cbn [subn_scan insert_at_boundaries]. rewrite !M.
    specialize (IH (Some c)).
    destruct (at_boundary p (String c s)); simpl.
    + destruct (subn_scan (bounded "") (literal_pieces new) (Some c) 0 s).
      simpl in *. now rewrite expand_literal, IH.
    + destruct (subn_scan (bounded "") (literal_pieces new) (Some c) 0 s).
      simpl in *. now rewrite IH.
Qed.

(** X7.  An empty old table name (what a cell of white space becomes
    once trimmed) is not skipped by the table pass: its pattern matches
    the empty string at every word boundary, so the new name is written
    before and after every word of the text. *)
Theorem empty_old_name_inserts (new text : string) :
  plain new = true ->
  _apply_table_mappings [("", new)] text
  = Some (insert_at_boundaries new None text).
Proof.
  intros P. cbn [_apply_table_mappings]. unfold sub, subn.
  rewrite (parse_template_plain 0 new P). simpl.
  now rewrite scan_empty_name.
Qed.

Lemma empty_old_name_inserts_witness :
  _apply_table_mappings [("", "client")] "SELECT a FROM t"
  = Some "clientSELECTclient clientaclient clientFROMclient clienttclient".
Proof.
  rewrite (empty_old_name_inserts "client" "SELECT a FROM t"); reflexivity.
Defined.

End PassEdges.

(** ** The table audit *)

Section TableAudit.
Import Chars Re ReSpec Reviewer TokenSpec AuditSpec.

Lemma match_here_delimited (name : string) (adv : bool) (p : option ascii)
  (s : string) :
  match_here (delimited name) adv p s
  = if negb (word_before p) && prefix_ci name s
       && negb (word_here (Str.drop (String.length name) s))
    then if adv && (String.length name =? 0)%nat then None
         else Some (advance_by (MState p 0 None)
                      (Str.take (String.length name) s))
    else None.
Proof.
  unfold match_here, delimited.
  rewrite rmatch_cat, rmatch_not_after_word. cbn [prev].
  destruct (word_before p); [reflexivity|]. cbn [negb andb].
  rewrite rmatch_cat, rmatch_lit.
  destruct (prefix_ci name s) eqn:P; [|reflexivity]. cbn [andb].
  rewrite rmatch_not_ahead.
  destruct (word_here (Str.drop (String.length name) s)) eqn:W.
  - destruct (Str.drop (String.length name) s) as [|c r]; [discriminate|].
    simpl in W. simpl. now rewrite W.
  - rewrite (no_word_ahead _ _ W). cbn [negb].
    rewrite consumed_advance_by, take_length by now apply prefix_ci_length.
    reflexivity.
Qed.






End TableAudit.

(** ** Audit and rewrite on identifier names *)

Section AuditAndRewrite.
Import Chars Re ReSpec Reviewer TokenSpec TokenFacts AuditSpec Flat FlatSpec.

Lemma search_findall (r : regex) (s : string) :
  forall p, search_from r p s = true -> findall_scan r p 0 s <> [].
Proof.
  induction s as [|c s IH]; intros p H; cbn [search_from] in H;
    cbn [findall_scan].
  - destruct (match_here r false p "") as [st|]; [|discriminate].
    destruct (consumed st); [|discriminate].
    destruct (match_here r true p ""); discriminate.
  - destruct (match_here r false p (String c s)) as [st|].
    + destruct (consumed st); [|discriminate].
      destruct (match_here r true p (String c s)); discriminate.
    + now apply IH.
Qed.

Lemma search_from_ext (r1 r2 : regex) :
  (forall p s, match_here r1 false p s = match_here r2 false p s) ->
  forall s p, search_from r1 p s = search_from r2 p s.
Proof.
  intros E. induction s as [|c s IH]; intros p; cbn [search_from];
    rewrite E; [reflexivity|].
  destruct (match_here r2 false p (String c s)); auto.
Qed.

Lemma delimited_is_bounded (name text : string) :
  is_identifier name = true ->
  search (delimited name) text = search (bounded name) text.
Proof.
  intros I. apply identifier_nonempty_word in I as [N W].
  unfold search. apply search_from_ext. intros p s.
  rewrite match_here_delimited, match_here_bounded.
  now rewrite (hit_word name N W).
Qed.

Lemma findall_identifier (old text : string) :
  is_identifier old = true ->
  List.length (findall (bounded old) text) = count_words old text.
Proof.
  intros I. pose proof (subn_identifier old "" text I eq_refl) as S.
  symmetry. exact (subn_count _ _ _ _ _ _ S).
Qed.

Lemma search_counts_words (old text : string) :
  is_identifier old = true ->
  search (bounded old) text = (0 <? count_words old text)%nat.
Proof.
  intros I. rewrite <- (findall_identifier old text I).
  unfold search, findall.
  destruct (search_from (bounded old) None text) eqn:S.
  - apply search_findall in S.
    destruct (findall_scan (bounded old) None 0 text); [congruence|].
    reflexivity.
  - now rewrite (findall_scan_no_match _ _ _ S).
Qed.



Lemma rename_words_none (old new s : string) :
  count_words old s = 0 -> rename_words old new s = s.
Proof.
  unfold count_words, rename_words. intros H.
  rewrite <- (glue_tokens s) at 2. f_equal.
  induction (tokens s) as [|t ts IH]; [reflexivity|].
  simpl in H |- *. unfold rename_token at 1.
  destruct (ci_eq t old); [discriminate|]. now rewrite IH.
Qed.

(** X10.  In the flat update mode a rule whose trimmed old name is an
    identifier renames the whole words equal to it up to case, and the
    occurrence count it reports is the number of those words; with no
    such word it reports nothing. *)
Theorem flat_rule_renames_words (sql : string) (changes : list change)
  (r : row) :
  skipped r = false ->
  is_identifier (trimmed_old r) = true ->
  plain (trimmed_new r) = true ->
  update_row (sql, changes) r
  = Some (rename_words (trimmed_old r) (trimmed_new r) sql,
          (changes
           ++ if (0 <? count_words (trimmed_old r) sql)%nat
              then [Change (trimmed_old r) (trimmed_new r)
                      (count_words (trimmed_old r) sql)]
              else [])%list).
Proof.
  intros S I P. unfold update_row. cbv beta iota.
  fold (trimmed_old r) (trimmed_new r).
  unfold skipped in S. apply negb_false_iff in S. rewrite S.
  change (pattern (trimmed_old r)) with (bounded (trimmed_old r)).
  rewrite (findall_identifier _ sql I).
  destruct (0 <? count_words (trimmed_old r) sql)%nat eqn:C.
  - unfold sub. now rewrite (subn_identifier _ _ sql I P).
  - apply Nat.ltb_ge in C.
    rewrite rename_words_none by lia. now rewrite app_nil_r.
Qed.

Lemma flat_rule_renames_words_witness :
  update_row ("SELECT * FROM order o JOIN reorder_log r ON ORDER.id = r.id",
              [])
    (Row (Pandas.Str " order") (Pandas.Str "orders_v2 "))
  = Some ("SELECT * FROM orders_v2 o JOIN reorder_log r ON orders_v2.id = r.id",
          [Change "order" "orders_v2" 2]).
Proof.
  rewrite (flat_rule_renames_words
             "SELECT * FROM order o JOIN reorder_log r ON ORDER.id = r.id" []
             (Row (Pandas.Str " order") (Pandas.Str "orders_v2 ")));
    reflexivity.
Defined.

Lemma update_rows_growth (rows : list row) :
  forall sql changes out changes',
    update_rows (sql, changes) rows = Some (out, changes') ->
    exists extra,
      changes' = (changes ++ extra)%list /\
      List.length extra <= List.length rows /\
      (extra = [] -> out = sql).
Proof.
  induction rows as [|r rows IH]; intros sql changes out changes' H.
  - simpl in H. injection H as <- <-. exists []. rewrite app_nil_r.
    repeat split; auto.
  - cbn [update_rows] in H.
    destruct (update_row (sql, changes) r) as [[sql1 ch1]|] eqn:U;
      [|discriminate].
    destruct (IH _ _ _ _ H) as (extra & -> & L & E).
    apply update_row_cases in U as [[-> ->]|(_ & _ & _ & ->)].
    + exists extra. repeat split; auto. simpl. lia.
    + eexists (_ :: extra). rewrite <- app_assoc. split; [reflexivity|].
      split; [simpl; lia | discriminate].
Qed.

Lemma insert_row_length (r : row) (sorted : list row) :
  List.length (insert_row r sorted) = S (List.length sorted).
Proof.
  induction sorted as [|r' sorted IH]; [reflexivity|]. simpl.
  destruct (stays_before r' r); simpl; [now rewrite IH | reflexivity].
Qed.

Lemma sort_values_length (rows : list row) :
  List.length (sort_values rows) = List.length rows.
Proof.
  unfold sort_values.
  enough (G : forall acc,
             List.length
               (fold_left (fun sorted r => insert_row r sorted) rows acc)
             = List.length acc + List.length rows) by (now rewrite G).
  induction rows as [|r rows IH]; intros acc; simpl; [lia|].
  rewrite IH, insert_row_length. lia.
Qed.

(** X11.  [update_sql_with_mappings] changes the text only through
    reported changes: it reports at most one change per row of the
    sheet, and when it reports none the text it returns is the text it
    was given. *)
Theorem update_reports_every_change (sql : string) (mapping_df : list row)
  (out : string) (changes : list change) :
  update_sql_with_mappings sql mapping_df = Some (out, changes) ->
  List.length changes <= List.length mapping_df /\
  (changes = [] -> out = sql).
Proof.
  unfold update_sql_with_mappings. intros H.
  apply update_rows_growth in H as (extra & -> & L & E).
  rewrite sort_values_length in L. simpl. split; auto.
Qed.

Lemma update_reports_every_change_witness :
  List.length ([] : list change)
  <= List.length [Row (Pandas.Str "orders") (Pandas.Str "sales")] /\
  (([] : list change) = [] ->
   "SELECT * FROM reorders" = "SELECT * FROM reorders").
Proof.
  apply (update_reports_every_change "SELECT * FROM reorders"
           [Row (Pandas.Str "orders") (Pandas.Str "sales")]).
  reflexivity.
Defined.

End AuditAndRewrite.

(** ** The keys of a dictionary built from items *)

Section DictKeys.

Lemma keys_of_items {V} (items : list (string * V)) (k : string) :
  In k (Dict.keys (Dict.of_items items)) <-> In k (List.map fst items).
Proof.
  unfold Dict.of_items.
  enough (G : forall d,
             In k (Dict.keys (fold_left Dict.put items d))
             <-> In k (Dict.keys d) \/ In k (List.map fst items)).
  { rewrite G. simpl. tauto. }
  induction items as [|[k' v'] items IH]; intros d; simpl; [tauto|].
  rewrite IH. unfold Dict.put. simpl. rewrite keys_set.
  split; intros H; intuition auto.
Qed.

End DictKeys.

Section Summary.
Import Reviewer Dashboard.

Lemma filter_length_le {A} (f : A -> bool) (l : list A) :
  List.length (filter f l) <= List.length l.
Proof.
  induction l as [|x l IH]; simpl; [lia|].
  destruct (f x); simpl; lia.
Qed.

(** X13.  The summary figures are consistent for any results: the files
    with issues are at most the files processed and at most the issues
    found, and the table mappings counted are at most the issues
    found. *)
Theorem summary_consistent (results : list (string * analysis)) :
  files_with_issues results <= total_files results /\
  files_with_issues results <= total_issues results /\
  table_mappings_applied results <= total_issues results.
Proof.
  unfold files_with_issues, total_files, total_issues,
    table_mappings_applied, list_sum.
  induction results as [|[k r] results (IH1 & IH2 & IH3)];
    [simpl; repeat split; lia|].
  pose proof (filter_length_le (Str.contains "TABLE MAPPING") (issues r))
    as H.
  assert (Hh : (if has_issues r then 1 else 0) <= List.length (issues r)).
  { unfold has_issues. destruct (issues r); simpl; lia. }
  cbn [filter List.map fold_right List.length fst snd].
  destruct (has_issues r); cbn [List.length]; repeat split; lia.
Qed.

End Summary.

(** ** What the loader keeps *)

Section LoaderKeeps.
Import Chars Reviewer LoadSpec LoadFacts Pandas.

Lemma rstrip_cons (c : ascii) (s : string) :
  Str.rstrip (String c s)
  = match Str.rstrip s with
    | EmptyString => if is_space c then EmptyString else String c EmptyString
    | String d r => String c (String d r)
    end.
Proof. reflexivity. Qed.

Lemma rstrip_idempotent (s : string) : Str.rstrip (Str.rstrip s) = Str.rstrip s.
Proof.
  induction s as [|c s IH]; [reflexivity|]. rewrite rstrip_cons.
  destruct (Str.rstrip s) as [|d r] eqn:E.
  - destruct (is_space c) eqn:Sc; [reflexivity|]. simpl. now rewrite Sc.
  - rewrite rstrip_cons, IH. reflexivity.
Qed.

Lemma rstrip_keeps_first (c : ascii) (s : string) :
  is_space c = false ->
  exists r, Str.rstrip (String c s) = String c r.
Proof.
  intros Sc. cbn [Str.rstrip].
  destruct (Str.rstrip s); [rewrite Sc|]; now eexists.
Qed.

Lemma lstrip_shape (s : string) :
  Str.lstrip s = "" \/
  exists c r, Str.lstrip s = String c r /\ is_space c = false.
Proof.
  induction s as [|c s IH]; [now left|]. simpl.
  destruct (is_space c) eqn:Sc; [exact IH|].
  right. now exists c, s.
Qed.

(** Trimming a trimmed name changes nothing. *)
Lemma strip_idempotent (s : string) : Str.strip (Str.strip s) = Str.strip s.
Proof.
  unfold Str.strip.
  destruct (lstrip_shape s) as [->|(c & r & -> & Sc)]; [reflexivity|].
  destruct (rstrip_keeps_first c r Sc) as [r' E]. rewrite E.
  cbn [Str.lstrip]. rewrite Sc, <- E. apply rstrip_idempotent.
Qed.

Lemma set_in {V} (k k0 : string) (v v0 : V) (d : list (string * V)) :
  In (k0, v0) (Dict.set k v d) -> (k0, v0) = (k, v) \/ In (k0, v0) d.
Proof.
  induction d as [|[k' v'] d IH]; simpl.
  - intros [E|[]]. now left.
  - destruct (String.eqb k k'); simpl.
    + intros [E|H]; [now left | right; now right].
    + intros [E|H]; [right; now left|].
      destruct (IH H) as [E|H']; [now left | right; now right].
Qed.

Lemma of_items_in {V} (items : list (string * V)) (k : string) (v : V) :
  In (k, v) (Dict.of_items items) -> In (k, v) items.
Proof.
  unfold Dict.of_items.
  enough (G : forall d,
             In (k, v) (fold_left Dict.put items d) ->
             In (k, v) d \/ In (k, v) items).
  { intros H. destruct (G [] H) as [[]|H']. exact H'. }
  induction items as [|[k' v'] items IH]; intros d; simpl; [now left|].
  intros H. destruct (IH _ H) as [H'|H']; [|right; now right].
  unfold Dict.put in H'. simpl in H'.
  destruct (set_in _ _ _ _ _ H') as [E|H'']; [right; left; now symmetry|].
  now left.
Qed.

Lemma table_rules_trimmed (table_df : DataFrame) (k v : string) :
  In (k, v) (table_rules table_df) -> trimmed k /\ trimmed v.
Proof.
  unfold table_rules. intros H. apply in_flat_map in H as (row & _ & H).
  destruct (cell_at row _) as [|o]; [destruct H|].
  destruct (cell_at row _) as [|n]; [destruct H|].
  destruct H as [E|[]]. injection E as <- <-.
  split; apply strip_idempotent.
Qed.

(** X14.  After a successful load the table map holds exactly the rules
    of the rows in which both names are present: a row with a missing
    name contributes nothing, every other row contributes its trimmed
    old name as a key, also when that name is empty, and every name in
    the map is trimmed. *)
Theorem load_keeps_complete_rows (self self' : reviewer)
  (table_df column_df : DataFrame) :
  load_mappings_from_dataframe self table_df column_df = (self', true) ->
  exists d,
    table_mappings self' = TableMap d /\
    (forall k, In k (Dict.keys d)
               <-> In k (List.map fst (table_rules table_df))) /\
    (forall k v, In (k, v) d ->
                 In (k, v) (table_rules table_df) /\ trimmed k /\ trimmed v).
Proof.
  intros H. apply load_success_table in H.
  exists (Dict.of_items (table_rules table_df)).
  split; [exact H|]. split.
  - intros k. exact (keys_of_items (table_rules table_df) k).
  - intros k v Hin. apply of_items_in in Hin.
    split; [exact Hin | now apply (table_rules_trimmed table_df)].
Qed.

Lemma load_keeps_complete_rows_witness :
  exists d,
    table_mappings
      (fst (load_mappings_from_dataframe init blank_tables good_columns))
    = TableMap d /\
    (In "" (Dict.keys d) <-> In "" (List.map fst (table_rules blank_tables)))
    /\ ~ In "orders" (Dict.keys d).
Proof.
  destruct (load_keeps_complete_rows init
              (fst (load_mappings_from_dataframe init blank_tables
                      good_columns))
              blank_tables good_columns eq_refl) as (d & Hd & Hk & _).
  exists d. split; [exact Hd|]. split; [apply Hk|].
  intros H. apply Hk in H. simpl in H. destruct H as [H|[]]. discriminate H.
Defined.

End LoaderKeeps.

(** ** The column map *)

Section ColumnMap.
Import Chars Reviewer LoadSpec LoadFacts Pandas.

Lemma ltb_trichotomy (a b : string) :
  String.eqb a b = false -> String.ltb a b = false -> String.ltb b a = true.
Proof.
  unfold String.ltb. intros E L.
  rewrite (String.compare_antisym b a).
  destruct (String.compare a b) eqn:C; simpl; try reflexivity;
    try discriminate.
  apply String.compare_eq_iff in C. apply String.eqb_neq in E. congruence.
Qed.

Lemma insert_sorted_in (k x : string) (ks : list string) :
  In x (insert_sorted k ks) <-> x = k \/ In x ks.
Proof.
  induction ks as [|k' ks IH]; simpl.
  - intuition auto.
  - destruct (String.eqb k k') eqn:E.
    + apply String.eqb_eq in E. subst k'. simpl. intuition auto.
    + destruct (String.ltb k k'); simpl; [intuition auto|].
      rewrite IH. intuition auto.
Qed.

Lemma insert_sorted_head (k h : string) (ks t : list string) :
  insert_sorted k ks = h :: t -> h = k \/ exists t', ks = h :: t'.
Proof.
  destruct ks as [|k' ks]; simpl.
  - intros H. injection H as <- _. now left.
  - destruct (String.eqb k k'); [intros H; injection H as <- _; right; now eexists|].
    destruct (String.ltb k k'); intros H; injection H as <- _;
      [now left | right; now eexists].
Qed.

Lemma ascending_cons (a b : string) (ks : list string) :
  ascending (a :: b :: ks) = String.ltb a b && ascending (b :: ks).
Proof. reflexivity. Qed.

Lemma ascending_tail (k : string) (ks : list string) :
  ascending (k :: ks) = true -> ascending ks = true.
Proof.
  destruct ks as [|k' ks]; [reflexivity|]. rewrite ascending_cons.
  intros H. now apply andb_prop in H as [_ H].
Qed.

Lemma insert_sorted_ascending (k : string) (ks : list string) :
  ascending ks = true -> ascending (insert_sorted k ks) = true.
Proof.
  induction ks as [|k' ks IH]; intros A; [reflexivity|].
  cbn [insert_sorted].
  destruct (String.eqb k k') eqn:E; [exact A|].
  destruct (String.ltb k k') eqn:L.
  - rewrite ascending_cons, L. exact A.
  - pose proof (ltb_trichotomy k k' E L) as G.
    pose proof (IH (ascending_tail _ _ A)) as A'.
    destruct (insert_sorted k ks) as [|h t] eqn:I; [reflexivity|].
    rewrite ascending_cons, A', andb_true_r.
    destruct (insert_sorted_head _ _ _ _ I) as [->|[t' ->]]; [exact G|].
    rewrite ascending_cons in A. now apply andb_prop in A as [A _].
Qed.

Lemma fold_insert_sorted (ks : list string) :
  forall acc,
    ascending acc = true ->
    ascending (fold_left (fun a k => insert_sorted k a) ks acc) = true /\
    forall x,
      In x (fold_left (fun a k => insert_sorted k a) ks acc)
      <-> In x acc \/ In x ks.
Proof.
  induction ks as [|k ks IH]; intros acc A; simpl.
  - split; [exact A | intuition auto].
  - destruct (IH _ (insert_sorted_ascending k acc A)) as [A' M].
    split; [exact A'|]. intros x. rewrite M, insert_sorted_in.
    intuition auto.
Qed.

Lemma get_map_self {V} (f : string -> V) (g : string) (ks : list string) :
  In g ks ->
  Dict.get g (List.map (fun k => (k, f k)) ks) = Some (f g).
Proof.
  induction ks as [|k ks IH]; [intros []|]. simpl.
  destruct (String.eqb g k) eqn:E.
  - apply String.eqb_eq in E. now subst.
  - intros [->|H]; [now rewrite String.eqb_refl in E | auto].
Qed.

Section Rows.

Variable it io inew : nat.
Hypothesis it_io : it <> io.
Hypothesis it_inew : it <> inew.
Hypothesis io_inew : io <> inew.

Let clean (row : list cell) : list cell :=
  update_nth inew strip_cell
    (update_nth io strip_cell (update_nth it strip_cell row)).

Let keep (row : list cell) : bool :=
  forallb (fun l => forallb (fun i => negb (isna (cell_at row i))) l)
    [[it]; [io]; [inew]].

Let triple (row : list cell) : list (string * (string * string)) :=
  match cell_at row it, cell_at row io, cell_at row inew with
  | Str t, Str o, Str n => [(Str.strip t, (Str.strip o, Str.strip n))]
  | _, _, _ => []
  end.

Lemma clean_cells (row : list cell) :
  cell_at (clean row) it = strip_cell (cell_at row it) /\
  cell_at (clean row) io = strip_cell (cell_at row io) /\
  cell_at (clean row) inew = strip_cell (cell_at row inew).
Proof.
  unfold clean. repeat split.
  - rewrite (cell_at_update_other inew it) by auto.
    rewrite (cell_at_update_other io it) by auto.
    apply cell_at_update_same.
  - rewrite (cell_at_update_other inew io) by auto.
    rewrite cell_at_update_same.
    now rewrite (cell_at_update_other it io) by auto.
  - rewrite cell_at_update_same.
    rewrite (cell_at_update_other io inew) by auto.
    now rewrite (cell_at_update_other it inew) by auto.
Qed.

Lemma keep_cells (row : list cell) :
  keep row
  = negb (isna (cell_at row it)) && negb (isna (cell_at row io))
    && negb (isna (cell_at row inew)).
Proof.
  unfold keep. simpl. now rewrite !andb_true_r, andb_assoc.
Qed.

Lemma cleaned_keys (rows : list (list cell)) :
  forall acc,
    fold_left
      (fun ks row =>
         match cell_at row it with
         | Str k => insert_sorted k ks
         | NaN => ks
         end)
      (List.map clean (filter keep rows)) acc
    = fold_left (fun a k => insert_sorted k a)
        (List.map fst (flat_map triple rows)) acc.
Proof.
  induction rows as [|row rows IH]; intros acc; [reflexivity|].
  cbn [filter flat_map]. rewrite keep_cells. unfold triple at 1.
  destruct (clean_cells row) as (Ct & _ & _).
  destruct (cell_at row it) as [|t] eqn:Et; [apply IH|].
  destruct (cell_at row io) as [|o] eqn:Eo; [apply IH|].
  destruct (cell_at row inew) as [|n] eqn:En; [apply IH|].
  cbn [isna negb andb List.map fold_left app fst].
  rewrite Ct. cbn [strip_cell]. apply IH.
Qed.

Lemma cleaned_group (g : string) (rows : list (list cell)) :
  flat_map
    (fun row =>
       match cell_at row io, cell_at row inew with
       | Str k, Str v => [(k, v)]
       | _, _ => []
       end)
    (filter
       (fun row =>
          match cell_at row it with
          | Str k => String.eqb k g
          | NaN => false
          end)
       (List.map clean (filter keep rows)))
  = rules_of_table g (flat_map triple rows).
Proof.
  unfold rules_of_table.
  induction rows as [|row rows IH]; [reflexivity|].
  cbn [filter flat_map]. rewrite keep_cells. unfold triple at 1.
  destruct (clean_cells row) as (Ct & Co & Cn).
  destruct (cell_at row it) as [|t] eqn:Et; [apply IH|].
  destruct (cell_at row io) as [|o] eqn:Eo; [apply IH|].
  destruct (cell_at row inew) as [|n] eqn:En; [apply IH|].
  cbn [isna negb andb List.map filter app fst].
  rewrite Ct. cbn [strip_cell].
  destruct (String.eqb (Str.strip t) g); [|apply IH].
  cbn [flat_map List.map snd]. rewrite Co, Cn. cbn [strip_cell app].
  now rewrite IH.
Qed.

End Rows.

Lemma load_success_columns (self self' : reviewer)
  (table_df column_df : DataFrame) :
  load_mappings_from_dataframe self table_df column_df = (self', true) ->
  column_mappings self'
  = ColumnMap
      match fold_left (fun a k => insert_sorted k a)
              (List.map fst (column_rules column_df)) [] with
      | [] => empty_groups column_df
      | keys =>
          List.map
            (fun g =>
               (g, Dict.of_items
                     (rules_of_table g (column_rules column_df))))
            keys
      end.
Proof.
  unfold load_mappings_from_dataframe, load_body, bind, lift,
    set_table_mappings, set_column_mappings.
  cbv beta iota.
  destruct (dropna ["OldTableName"; "NewTableName"] (strip_labels table_df))
    as [e|t1]; simpl; [discriminate|].
  destruct (str_strip "OldTableName" t1) as [e|t2]; simpl; [discriminate|].
  destruct (str_strip "NewTableName" t2) as [e|t3]; simpl; [discriminate|].
  destruct (dropna ["TableName"; "OldColumnName"; "NewColumnName"]
              (strip_labels column_df)) as [e|c1] eqn:D; simpl;
    [discriminate|].
  destruct (str_strip "TableName" c1) as [e|c2] eqn:S1; simpl;
    [discriminate|].
  destruct (str_strip "OldColumnName" c2) as [e|c3] eqn:S2; simpl;
    [discriminate|].
  destruct (str_strip "NewColumnName" c3) as [e|c4] eqn:S3; simpl;
    [discriminate|].
  intros H. injection H as <-. simpl. f_equal.
  apply dropna_ok in D as (_ & C1 & R1).
  apply str_strip_ok in S1 as (it & P1 & C2 & R2).
  apply str_strip_ok in S2 as (io & P2 & C3 & R3).
  apply str_strip_ok in S3 as (inew & P3 & C4 & R4).
  rewrite (positions_same_columns _ _ _ C1) in P1.
  rewrite (positions_same_columns _ _ _ C2),
    (positions_same_columns _ _ _ C1) in P2.
  rewrite (positions_same_columns _ _ _ C3),
    (positions_same_columns _ _ _ C2),
    (positions_same_columns _ _ _ C1) in P3.
  assert (N1 : it <> io)
    by (eapply positions_distinct; [|exact P1|exact P2]; discriminate).
  assert (N2 : it <> inew)
    by (eapply positions_distinct; [|exact P1|exact P3]; discriminate).
  assert (N3 : io <> inew)
    by (eapply positions_distinct; [|exact P2|exact P3]; discriminate).
  assert (Cols : columns c4 = columns (strip_labels column_df))
    by congruence.
  assert (Rows : data c4
                 = List.map
                     (fun row =>
                        update_nth inew strip_cell
                          (update_nth io strip_cell
                             (update_nth it strip_cell row)))
                     (filter
                        (fun row =>
                           forallb
                             (fun l =>
                                forallb
                                  (fun i => negb (isna (cell_at row i))) l)
                             [[it]; [io]; [inew]])
                        (data column_df))).
  { rewrite R4, R3, R2, R1, !map_map. cbn [forallb].
    rewrite P1, P2, P3. reflexivity. }
  assert (Rules : column_rules column_df
                  = flat_map
                      (fun row =>
                         match cell_at row it, cell_at row io,
                               cell_at row inew with
                         | Str t, Str o, Str n =>
                             [(Str.strip t, (Str.strip o, Str.strip n))]
                         | _, _, _ => []
                         end)
                      (data column_df)).
  { unfold column_rules, column_pos. now rewrite P1, P2, P3. }
  unfold grouped_to_dict.
  assert (Keys : group_keys "TableName" c4
                 = fold_left (fun a k => insert_sorted k a)
                     (List.map fst (column_rules column_df)) []).
  { unfold group_keys, column_pos.
    rewrite (positions_same_columns "TableName" (strip_labels column_df) c4)
      by exact Cols.
    rewrite P1, Rows, Rules. apply (cleaned_keys it io inew N1 N2 N3). }
  rewrite Keys.
  destruct (fold_left (fun a k => insert_sorted k a)
              (List.map fst (column_rules column_df)) []) as [|k0 ks];
    [unfold empty_groups; now rewrite Cols|].
  change ((k0, Dict.of_items (rules_of_table k0 (column_rules column_df)))
          :: List.map
               (fun g =>
                  (g, Dict.of_items
                        (rules_of_table g (column_rules column_df))))
               ks)
    with (List.map
            (fun g =>
               (g, Dict.of_items
                     (rules_of_table g (column_rules column_df))))
            (k0 :: ks)).
  apply map_ext. intros g. f_equal. unfold to_dict. f_equal.
  unfold items, group_rows, column_pos. cbn [columns data].
  unfold positions. cbn [columns]. fold (positions "OldColumnName" c4).
  fold (positions "NewColumnName" c4). fold (positions "TableName" c4).
  rewrite (positions_same_columns "OldColumnName" (strip_labels column_df) c4)
    by exact Cols.
  rewrite (positions_same_columns "NewColumnName" (strip_labels column_df) c4)
    by exact Cols.
  rewrite (positions_same_columns "TableName" (strip_labels column_df) c4)
    by exact Cols.
  rewrite P1, P2, P3, Rows, Rules.
  apply (cleaned_group it io inew N1 N2 N3).
Qed.

(** X15.  After a successful load of a column sheet with at least one
    complete row, the column map has one group per table named in a
    complete row, the groups in ascending order of the table name (not
    in sheet order), and in each group the rules of that table in sheet
    order with the last rule for an old column winning.  With no
    complete row the column map is not empty: it has an empty
    dictionary under each column label of the sheet other than
    TableName. *)
Theorem load_groups_columns (self self' : reviewer)
  (table_df column_df : DataFrame) :
  load_mappings_from_dataframe self table_df column_df = (self', true) ->
  exists d,
    column_mappings self' = ColumnMap d /\
    (column_rules column_df <> [] -> grouped column_df d) /\
    (column_rules column_df = [] -> d = empty_groups column_df).
Proof.
  intros H. apply load_success_columns in H.
  eexists. split; [exact H|].
  destruct (fold_insert_sorted (List.map fst (column_rules column_df)) []
              eq_refl) as [A M].
  destruct (column_rules column_df) as [|r rules] eqn:R.
  - split; [congruence | reflexivity].
  - split; [intros _ | discriminate]. rewrite <- R in *.
    destruct (fold_left (fun a k => insert_sorted k a)
                (List.map fst (column_rules column_df)) [])
      as [|k0 ks] eqn:F.
    { exfalso. apply (proj2 (M (fst r))). right. rewrite R. now left. }
    rewrite <- F in *. unfold grouped, Dict.keys.
    rewrite map_map. cbn [fst]. rewrite map_id.
    split; [exact A|]. split.
    + intros g. rewrite M. simpl. tauto.
    + intros g Hg.
      exact (get_map_self
               (fun k => Dict.of_items
                           (rules_of_table k (column_rules column_df)))
               g _ Hg).
Qed.

Lemma load_groups_columns_witness :
  (exists d,
      column_mappings
        (fst (load_mappings_from_dataframe init good_tables two_tables))
      = ColumnMap d /\
      Dict.keys d = ["client"; "sales"] /\
      Dict.get "sales" d = Some [("amount", "total_amount")]) /\
  column_mappings
    (fst (load_mappings_from_dataframe init good_tables no_complete_row))
  = ColumnMap [("OldColumnName", []); ("NewColumnName", []); ("Notes", [])].
Proof.
  split.
  - destruct (load_groups_columns init
                (fst (load_mappings_from_dataframe init good_tables
                        two_tables))
                good_tables two_tables eq_refl) as (d & Hd & Hg & _).
    destruct (Hg ltac:(discriminate)) as (_ & _ & Hg').
    exists d. split; [exact Hd|].
    assert (K : Dict.keys d = ["client"; "sales"]).
    { simpl in Hd. injection Hd as <-. reflexivity. }
    split; [exact K|].
    rewrite Hg'; [reflexivity|]. rewrite K. right. now left.
  - destruct (load_groups_columns init
                (fst (load_mappings_from_dataframe init good_tables
                        no_complete_row))
                good_tables no_complete_row eq_refl) as (d & Hd & _ & He).
    rewrite Hd, (He eq_refl). reflexivity.
Defined.

End ColumnMap.

(** ** Findings and how they are shown *)

Section Shown.
Import Chars Re ReSpec Reviewer TokenSpec TokenFacts RuleSets AuditSpec.
Import Dashboard DashboardSpec.

Lemma and_then_keeps (Q : string -> Prop) (c1 c2 : Try) :
  (forall issues, Forall Q issues -> Forall Q (fst (c1 issues))) ->
  (forall issues, Forall Q issues -> Forall Q (fst (c2 issues))) ->
  forall issues, Forall Q issues -> Forall Q (fst (and_then c1 c2 issues)).
Proof.
  intros H1 H2 issues H. unfold and_then.
  specialize (H1 issues H). destruct (c1 issues) as [issues' []]; auto.
Qed.

Lemma for_each_keeps {A} (Q : string -> Prop) (f : A -> Try) :
  (forall x issues, Forall Q issues -> Forall Q (fst (f x issues))) ->
  forall xs issues,
    Forall Q issues -> Forall Q (fst (for_each f xs issues)).
Proof.
  intros Hf. induction xs as [|x xs IH]; intros issues H; [exact H|].
  cbn [for_each]. apply and_then_keeps; auto.
Qed.

Lemma append_keeps (Q : string -> Prop) (msg : string) :
  Q msg ->
  forall issues,
    Forall Q issues -> Forall Q (fst (Reviewer.append msg issues)).
Proof.
  intros Hm issues H. unfold Reviewer.append. cbn [fst].
  apply Forall_app. split; [exact H|]. now constructor.
Qed.

Lemma check_join_warns (t : Sqlparse.token) (issues : list string) :
  Forall (fun i => show_issue i = AsWarning) issues ->
  Forall (fun i => show_issue i = AsWarning) (fst (check_join t issues)).
Proof.
  intros H. destruct t as [normalized| |]; cbn [check_join]; auto.
  destruct (Str.contains "JOIN" normalized); auto.
  destruct (Str.contains "ON" normalized); auto.
  now apply append_keeps.
Qed.

Lemma check_comparison_warns (c : Sqlparse.sublist) (issues : list string) :
  Forall (fun i => show_issue i = AsWarning) issues ->
  Forall (fun i => show_issue i = AsWarning)
    (fst (check_comparison c issues)).
Proof.
  intros H. destruct c as [[lv|] [rv|]|]; cbn [check_comparison]; auto.
  cbv zeta.
  destruct (Str.contains "'" (Str.strip rv) && negb (date_like (Str.strip lv)));
    auto.
  now apply append_keeps.
Qed.

Lemma check_where_warns (t : Sqlparse.token) (issues : list string) :
  Forall (fun i => show_issue i = AsWarning) issues ->
  Forall (fun i => show_issue i = AsWarning) (fst (check_where t issues)).
Proof.
  intros H. destruct t as [|sublists|]; cbn [check_where]; auto.
  apply for_each_keeps; auto using check_comparison_warns.
Qed.

Lemma semantics_warns (parse : string -> Sqlparse.parse_result)
  (sql : string) (found : list string) :
  _check_semantics parse sql = Returns found ->
  Forall (fun i => show_issue i = AsWarning) found.
Proof.
  unfold _check_semantics. intros H.
  assert (W : Forall (fun i => show_issue i = AsWarning)
                (fst (semantics_body parse sql []))).
  { unfold semantics_body.
    destruct (parse sql) as [msg|[|parsed rest]]; try now constructor.
    apply and_then_keeps; [| |constructor]; intros issues Hi;
      apply for_each_keeps;
      auto using check_join_warns, check_where_warns. }
  destruct (semantics_body parse sql []) as [issues []];
    injection H as <-; exact W.
Qed.

Lemma table_checks_informs (tm : table_dict) (sql : string) :
  Forall (fun i => show_issue i = AsInfo) (table_checks tm sql).
Proof.
  unfold table_checks. induction tm as [|[o n] tm IH]; [constructor|].
  cbn [flat_map fst snd].
  destruct (search (delimited o) sql); [|exact IH].
  constructor; [reflexivity | exact IH].
Qed.

Lemma column_checks_for_informs (re_search : text_search)
  (table sql : string) (cols : list (string * string)) :
  forall issues out,
    Forall (fun i => show_issue i = AsInfo) issues ->
    column_checks_for re_search table cols sql issues = Some out ->
    Forall (fun i => show_issue i = AsInfo) out.
Proof.
  induction cols as [|[o n] cols IH]; intros issues out H E;
    cbn [column_checks_for] in E.
  - now injection E as <-.
  - destruct (column_hit re_search table o sql) as [[|]|];
      [| |discriminate].
    + apply (IH _ _ (append_keeps _ (column_issue o n table) eq_refl _ H) E).
    + exact (IH _ _ H E).
Qed.

Lemma column_checks_informs (re_search : text_search) (sql : string)
  (cm : column_dict) :
  forall issues out,
    Forall (fun i => show_issue i = AsInfo) issues ->
    column_checks re_search cm sql issues = Some out ->
    Forall (fun i => show_issue i = AsInfo) out.
Proof.
  induction cm as [|[table cols] cm IH]; intros issues out H E;
    cbn [column_checks] in E.
  - now injection E as <-.
  - destruct (column_checks_for re_search table cols sql issues)
      as [issues'|] eqn:C; [|discriminate].
    exact (IH _ _ (column_checks_for_informs _ _ _ _ _ _ H C) E).
Qed.

(** X16.  Whenever the analysis of a text returns, the only one of its
    findings that the report shows as plain text is the parse failure
    of [_validate_sql_structure]: all others are shown as an error, a
    warning or an info, and the CRITICAL line, which does not start
    with ERROR, is not shown as an error.  The analysis returns unless
    a table name of the column map has a pattern operator for [re] to
    reject. *)
Theorem only_parse_failure_shown_plain
  (parse : string -> Sqlparse.parse_result) (re_search : text_search)
  (tm : table_dict) (cm : column_dict) (sql filename : string) :
  match analyze_sql_content parse re_search tm cm sql filename with
  | Some found =>
      forall issue,
        In issue found ->
        (show_issue issue = AsText
         <-> exists msg,
               parse sql = Sqlparse.ParseError msg /\
               issue = parse_failure msg)
  | None => forallb no_operator (List.map fst cm) = false
  end.
Proof.
  unfold analyze_sql_content. cbv zeta.
  destruct (_check_mappings re_search tm cm sql) as [mapping|] eqn:M;
    [|now apply check_mappings_raised in M].
  destruct (_check_semantics parse sql) as [semantic|] eqn:S.
  2:{ exfalso. unfold _check_semantics in S.
      destruct (semantics_body parse sql []) as [? []]; discriminate. }
  intros issue Hin. split.
  - intros T. apply in_app_or in Hin as [Hin|Hin].
    + unfold _validate_sql_structure in Hin.
      destruct (parse sql) as [msg|[|st rest]].
      * destruct Hin as [<-|[]]. now exists msg.
      * destruct Hin as [<-|[]]. discriminate T.
      * exfalso.
        destruct (Str.contains "SELECT" (Str.upper sql));
          destruct (Str.contains "FROM" (Str.upper sql));
          destruct (Nat.eqb (Str.count "(" sql) (Str.count ")" sql));
          simpl in Hin;
          repeat (destruct Hin as [<-|Hin]; [discriminate T|]);
          exact Hin.
    + exfalso. apply in_app_or in Hin as [Hin|Hin].
      * pose proof (column_checks_informs re_search sql cm _ _
                      (table_checks_informs tm sql) M) as F.
        rewrite Forall_forall in F. specialize (F _ Hin). congruence.
      * pose proof (semantics_warns parse sql _ S) as F.
        rewrite Forall_forall in F. specialize (F _ Hin). congruence.
  - intros (msg & _ & ->). reflexivity.
Qed.

(** When the parser raises, the CRITICAL line heads the findings and is
    shown as plain text. *)
Lemma parse_failure_shown_plain :
  analyze_sql_content failing_parser ReviewerSpec.rejecting
    ReviewerSpec.customers_tables ReviewerSpec.customers_columns
    "SELECT * FROM customers" "report.sql"
  = Some [parse_failure "unexpected end of input";
          table_issue "customers" "client"] /\
  show_issue (parse_failure "unexpected end of input") = AsText /\
  show_issue (table_issue "customers" "client") = AsInfo.
Proof. repeat split. Qed.


End Shown.

(** ** The audit of a corrected text *)

Section Reaudit.
Import Chars Re ReSpec Reviewer TokenSpec TokenFacts RuleSets AuditSpec.

Lemma rename_token_all_untouched (tm : table_dict) :
  forall t,
    (rename_token_all tm t = t /\
     forall o n, In (o, n) tm -> ci_eq t o = false) \/
    In (rename_token_all tm t) (List.map snd tm).
Proof.
  induction tm as [|[o n] tm IH]; intros t.
  - left. split; [reflexivity | intros o n []].
  - unfold rename_token_all. cbn [fold_left fst snd List.map].
    fold (rename_token_all tm (rename_token o n t)).
    unfold rename_token. destruct (ci_eq t o) eqn:E.
    + right. destruct (rename_token_all_cases tm n) as [->|H];
        [now left | now right].
    + destruct (IH t) as [[Ht Hn]|H]; [left | right; now right].
      split; [exact Ht|]. intros o' n' [P|P]; [|eauto].
      now injection P as <- <-.
Qed.

Lemma renamed_token_not_old (tm : table_dict) (t o n : string) :
  no_collision tm -> In (o, n) tm ->
  ci_eq (rename_token_all tm t) o = false.
Proof.
  intros NC Hin. destruct (rename_token_all_untouched tm t) as [[E H]|H].
  - rewrite E. eauto.
  - apply in_map_iff in H as ([o0 n0] & E & H0). simpl in E.
    rewrite <- E. exact (NC _ _ _ _ H0 Hin).
Qed.

Lemma renamed_text_has_no_old (tm : table_dict) (text o n : string) :
  identifier_rules tm = true -> no_collision tm -> In (o, n) tm ->
  count_words o (rename_words_all tm text) = 0.
Proof.
  intros I NC Hin. unfold count_words, rename_words_all.
  destruct (rename_all_well_formed tm (tokens text) I
              (tokens_well_formed text)) as [W _].
  rewrite (tokens_glue _ W). clear W.
  induction (tokens text) as [|t ts IH]; [reflexivity|].
  cbn [List.map filter]. rewrite (renamed_token_not_old tm t o n NC Hin).
  exact IH.
Qed.

(** X17.  With identifier names and no new name equal to an old name up
    to case, the table pass leaves nothing for the table audit to
    report: the corrected text draws no table finding. *)
Theorem corrected_text_passes_table_audit (tm : table_dict) (text : string) :
  identifier_rules tm = true ->
  collision_free tm = true ->
  exists corrected,
    _apply_table_mappings tm text = Some corrected /\
    table_checks tm corrected = [].
Proof.
  intros I C. apply collision_free_spec in C.
  exists (rename_words_all tm text).
  rewrite (table_pass_fold tm I), (fold_rename_words tm text I).
  split; [reflexivity|].
  unfold table_checks.
  assert (H : forall rules, incl rules tm ->
              flat_map
                (fun kv =>
                   if search (delimited (fst kv)) (rename_words_all tm text)
                   then [table_issue (fst kv) (snd kv)] else [])
                rules = []).
  { induction rules as [|[o n] rules IH]; intros Hi; [reflexivity|].
    cbn [flat_map fst snd].
    assert (Hin : In (o, n) tm) by (apply Hi; now left).
    assert (Io : is_identifier o = true).
    { unfold identifier_rules in I. rewrite forallb_forall in I.
      specialize (I _ Hin). now apply andb_prop in I as [I _]. }
    rewrite (delimited_is_bounded o _ Io), (search_counts_words o _ Io).
    rewrite (renamed_text_has_no_old tm text o n I C Hin).
    cbn [Nat.ltb Nat.leb app]. apply IH.
    intros x Hx. apply Hi. now right. }
  apply H, incl_refl.
Qed.

Lemma corrected_text_passes_table_audit_witness :
  exists corrected,
    _apply_table_mappings [("customers", "client"); ("orders", "sales")]
      "SELECT * FROM Customers c, orders o, reorders r" = Some corrected /\
    table_checks [("customers", "client"); ("orders", "sales")] corrected
    = [].
Proof.
  apply (corrected_text_passes_table_audit
           [("customers", "client"); ("orders", "sales")]); reflexivity.
Defined.

End Reaudit.

(** ** Missing cells in the flat update mode *)

Section MissingCells.
Import Chars Re ReSpec Reviewer TokenSpec TokenFacts AuditSpec Flat FlatSpec.

Lemma update_row_words (sql : string) (changes : list change) (r : row)
  (o n : string) :
  Str.strip (py_str (old_name r)) = o ->
  Str.strip (py_str (new_name r)) = n ->
  Str.truthy n = true ->
  String.eqb o n = false ->
  is_identifier o = true ->
  plain n = true ->
  update_row (sql, changes) r
  = Some (rename_words o n sql,
          (changes
           ++ if (0 <? count_words o sql)%nat
              then [Change o n (count_words o sql)]
              else [])%list).
Proof.
  intros Eo En T D I P. unfold update_row. cbv beta iota.
  rewrite Eo, En, T, D.
  pose proof I as I'. unfold is_identifier in I'.
  apply andb_prop in I' as [-> _]. cbn [andb negb].
  change (pattern o) with (bounded o).
  rewrite (findall_identifier _ sql I).
  destruct (0 <? count_words o sql)%nat eqn:C.
  - unfold sub. now rewrite (subn_identifier _ _ sql I P).
  - apply Nat.ltb_ge in C.
    rewrite rename_words_none by lia. now rewrite app_nil_r.
Qed.

(** X18.  In the flat update mode a row with a missing cell is not
    passed over: the missing name is read as the text nan.  With the old
    name missing the words nan of the text are renamed to the new name;
    with the new name missing the words equal to the old name are
    replaced by nan. *)
Theorem missing_name_reads_as_nan (sql : string) (changes : list change)
  (name : string) :
  is_identifier (Str.strip name) = true ->
  String.eqb (Str.strip name) "nan" = false ->
  update_row (sql, changes) (Row Pandas.NaN (Pandas.Str name))
  = Some (rename_words "nan" (Str.strip name) sql,
          (changes
           ++ if (0 <? count_words "nan" sql)%nat
              then [Change "nan" (Str.strip name) (count_words "nan" sql)]
              else [])%list) /\
  update_row (sql, changes) (Row (Pandas.Str name) Pandas.NaN)
  = Some (rename_words (Str.strip name) "nan" sql,
          (changes
           ++ if (0 <? count_words (Str.strip name) sql)%nat
              then [Change (Str.strip name) "nan"
                      (count_words (Str.strip name) sql)]
              else [])%list).
Proof.
  intros I D. split.
  - apply update_row_words; try reflexivity.
    + unfold is_identifier in I. now apply andb_prop in I as [I _].
    + rewrite String.eqb_sym. exact D.
    + now apply identifier_plain.
  - apply update_row_words; try reflexivity; assumption.
Qed.

Lemma missing_name_reads_as_nan_witness :
  update_row ("SELECT nan, total FROM t", [])
    (Row Pandas.NaN (Pandas.Str " total"))
  = Some ("SELECT total, total FROM t", [Change "nan" "total" 1]) /\
  update_row ("SELECT nan, total FROM t", [])
    (Row (Pandas.Str " total") Pandas.NaN)
  = Some ("SELECT nan, nan FROM t", [Change "total" "nan" 1]).
Proof.
  exact (missing_name_reads_as_nan "SELECT nan, total FROM t" [] " total"
           eq_refl eq_refl).
Defined.

End MissingCells.

(** ** The alias substitution, token by token *)

Section AliasTokens.
Import Chars Re ReSpec Reviewer TokenSpec TokenFacts AliasSpec.

Lemma dot_only (c : ascii) :
  atom_matches (AChar ".") c = Ascii.eqb c ".".
Proof.
  destruct c as [[] [] [] [] [] [] [] []]; vm_compute; reflexivity.
Qed.

Lemma letter_is_word (c : ascii) :
  atom_matches ALetter c = true -> is_word c = true.
Proof.
  destruct c as [[] [] [] [] [] [] [] []]; vm_compute; congruence.
Qed.

Lemma dot_not_word (c : ascii) :
  is_word c = true -> atom_matches (AChar ".") c = false.
Proof.
  destruct c as [[] [] [] [] [] [] [] []]; vm_compute; congruence.
Qed.

(** [\w*] runs to the end of the word when what follows cannot start
    inside a word. *)
Lemma star_greedy_word_run (k : cont) (rest : string) :
  word_here rest = false ->
  (forall st c u, is_word c = true -> k st (String c u) = None) ->
  forall t st,
    all_word t = true ->
    star_greedy AWord k st (t ++ rest) = k (advance_by st t) rest.
Proof.
  intros R K. induction t as [|c t IH]; intros st W.
  - simpl. destruct rest as [|d rest]; [reflexivity|].
    simpl in R. cbn [star_greedy atom_matches]. now rewrite R.
  - simpl in W. apply andb_prop in W as [Wc W].
    change (String c t ++ rest) with (String c (t ++ rest)).
    cbn [star_greedy atom_matches advance_by]. rewrite Wc, (IH _ W).
    destruct (k (advance_by (advance st c) t) rest); [reflexivity|].
    now apply K.
Qed.

Variable old_col : string.
Hypothesis old_id : is_identifier old_col = true.

Lemma old_nonempty : old_col <> "".
Proof. now apply identifier_nonempty_word in old_id. Qed.

Lemma old_word : all_word old_col = true.
Proof. now apply identifier_nonempty_word in old_id. Qed.

Lemma alias_tail (st : mstate) (s : string) (k : cont) :
  rmatch (Cat (Atom (AChar ".")) (Cat (lit old_col) WordB)) st s k
  = if dot_column old_col s
    then k (advance_by st (Str.take (S (String.length old_col)) s))
           (Str.drop (S (String.length old_col)) s)
    else None.
Proof.
  destruct s as [|d r]; [reflexivity|].
  cbn [rmatch dot_column]. rewrite dot_only.
  destruct (Ascii.eqb d "."); [|reflexivity]. cbn [andb].
  rewrite rmatch_lit.
  destruct (prefix_ci old_col r) eqn:P; [|reflexivity]. cbn [andb rmatch].
  rewrite prev_advance_by.
  unfold at_boundary.
  rewrite (last_taken_word old_col r _ old_word P (or_intror old_nonempty)).
  cbn [Str.take Str.drop advance_by].
  now destruct (word_here (Str.drop (String.length old_col) r)).
Qed.

(** The alias pattern at the start of a word. *)
Lemma match_here_alias (adv : bool) (p : option ascii) (c : ascii)
  (t rest : string) :
  word_before p = false ->
  is_word c = true -> all_word t = true -> word_here rest = false ->
  match_here (alias_replace_pattern old_col) adv p (String c t ++ rest)
  = if atom_matches ALetter c && dot_column old_col rest
    then Some (advance_by
                 (close_group (MState p 0 None)
                    (advance_by (MState p 0 None) (String c t)))
                 (Str.take (S (String.length old_col)) rest))
    else None.
Proof.
  intros P Wc W R. unfold match_here, alias_replace_pattern.
  rewrite rmatch_cat, rmatch_wordb. cbn [prev].
  unfold at_boundary. rewrite P. cbn [String.append word_here].
  rewrite Wc. cbn [xorb].
  cbn [rmatch].
  destruct (atom_matches ALetter c); [|reflexivity]. cbn [andb].
  rewrite star_greedy_word_run; auto.
  - change (rmatch (Atom (AChar ".")) ?st ?s ?k)
      with (rmatch (Atom (AChar ".")) st s k).
    pose proof (alias_tail
                  (close_group (MState p 0 None)
                     (advance_by (advance (MState p 0 None) c) t))
                  rest
                  (fun st _ =>
                     if adv && (consumed st =? 0)%nat then None
                     else Some st)) as A.
    cbn [rmatch] in A. rewrite A. clear A.
    destruct (dot_column old_col rest) eqn:DC; [|reflexivity].
    rewrite consumed_advance_by. cbn [close_group consumed].
    rewrite consumed_advance_by. cbn [advance consumed].
    destruct rest as [|d r]; [discriminate|]. cbn [Str.take String.length].
    replace (0 + 1 + String.length t
             + S (String.length (Str.take (String.length old_col) r))
             =? 0)%nat with false
      by (symmetry; apply Nat.eqb_neq; lia).
    now rewrite andb_false_r.
  - intros st d u Wd. now rewrite (dot_not_word d Wd).
Qed.


Lemma alias_inside_word (adv : bool) (p : option ascii) (s : string) :
  word_before p = true -> word_here s = true ->
  match_here (alias_replace_pattern old_col) adv p s = None.
Proof.
  intros P W. unfold match_here, alias_replace_pattern.
  rewrite rmatch_cat, rmatch_wordb. cbn [prev].
  unfold at_boundary. now rewrite P, W.
Qed.

Lemma alias_nonword (adv : bool) (p : option ascii) (s : string) :
  word_here s = false ->
  match_here (alias_replace_pattern old_col) adv p s = None.
Proof.
  intros W. unfold match_here, alias_replace_pattern.
  rewrite rmatch_cat, rmatch_wordb.
  destruct (at_boundary _ s); [|reflexivity].
  cbn [rmatch]. destruct s as [|d s]; [reflexivity|].
  destruct (atom_matches ALetter d) eqn:L; [|reflexivity].
  apply letter_is_word in L. simpl in W. congruence.
Qed.

Variable ps : list piece.

Lemma alias_scan_inside_word (rest : string) (w : string) :
  forall p,
    word_before p = true -> all_word w = true ->
    subn_scan (alias_replace_pattern old_col) ps p 0 (w ++ rest)
    = let (o, m) :=
        subn_scan (alias_replace_pattern old_col) ps (last_or p w) 0 rest in
      (w ++ o, m).
Proof.
  induction w as [|c w IH]; intros p Hp W.
  - simpl. now destruct (subn_scan _ ps p 0 rest).
  - simpl in W. apply andb_prop in W as [Wc W].
    change (String c w ++ rest) with (String c (w ++ rest)).
    rewrite subn_scan_none by (apply alias_inside_word; auto).
    rewrite (IH (Some c)) by auto. simpl.
    now destruct (subn_scan _ ps (last_or (Some c) w) 0 rest).
Qed.

End AliasTokens.
Section AliasScan.
Import Chars Re ReSpec Reviewer TokenSpec TokenFacts AliasSpec.

Lemma ci_eq_sym (a b : string) : ci_eq a b = ci_eq b a.
Proof.
  revert b. induction a as [|x a IH]; intros [|y b]; simpl; auto.
  now rewrite IH, Ascii.eqb_sym.
Qed.

Lemma take_whole (a b : string) : Str.take (String.length a) (a ++ b) = a.
Proof. induction a as [|c a IH]; simpl; [now destruct b | now rewrite IH]. Qed.

Lemma drop_whole (a b : string) : Str.drop (String.length a) (a ++ b) = b.
Proof. induction a as [|c a IH]; simpl; auto. Qed.

Lemma fst_scan_step (X : string * nat) (a : string) (f : nat -> nat) :
  fst (let (o, n) := X in (a ++ o, f n)) = a ++ fst X.
Proof. now destruct X. Qed.

Lemma requalify_skip (old_col new_col w : string) (ts : list string) :
  is_qualifier w && dot_then old_col ts = false ->
  requalify old_col new_col (w :: ts) = w :: requalify old_col new_col ts.
Proof.
  intros H. cbn [requalify]. destruct ts as [|d [|c ts]]; try reflexivity.
  unfold dot_then in H. now rewrite H.
Qed.

Lemma requalify_hit (old_col new_col w d c : string) (ts : list string) :
  is_qualifier w && dot_then old_col (d :: c :: ts) = true ->
  requalify old_col new_col (w :: d :: c :: ts)
  = w :: d :: new_col :: requalify old_col new_col ts.
Proof.
  intros H. cbn [requalify]. unfold dot_then in H. now rewrite H.
Qed.

Variable old_col new_col : string.
Hypothesis old_id : is_identifier old_col = true.

Let ps := PGroup 1 :: PLit "." :: literal_pieces new_col.

(** The first token of a text is the old column exactly when the text
    starts with the old column and no word character follows it. *)
Lemma first_token_is (r : string) :
  prefix_ci old_col r
  && negb (word_here (Str.drop (String.length old_col) r))
  = match tokens r with
    | c :: _ => ci_eq c old_col
    | [] => false
    end.
Proof.
  pose proof (old_nonempty old_col old_id) as N.
  pose proof (old_word old_col old_id) as W.
  destruct r as [|c0 r0] eqn:Er.
  { destruct old_col; [congruence | reflexivity]. }
  rewrite <- Er.
  assert (Nr : r <> "") by (rewrite Er; discriminate).
  destruct (split_first_token r Nr)
    as (t & rest & E & Nt & T & [[Wt R]|[Wt L]]).
  - rewrite T, E.
    destruct (ci_eq t old_col) eqn:C.
    + destruct (ci_eq_prefix t old_col rest C) as (P & _ & D).
      now rewrite P, D, R.
    + destruct (prefix_ci old_col (t ++ rest)) eqn:P; [|reflexivity].
      destruct (word_here (Str.drop (String.length old_col) (t ++ rest)))
        eqn:D; [reflexivity|].
      rewrite (same_word rest old_col t W Wt R P D) in C. discriminate.
  - rewrite T, E.
    rewrite (nonword_token_not_name old_col t N W Wt).
    destruct (prefix_ci old_col (t ++ rest)) eqn:P; [|reflexivity].
    apply (prefix_ci_first_word _ _ N W) in P.
    destruct t as [|d t]; [congruence|]. simpl in P, Wt. congruence.
Qed.

Lemma tokens_nonword (d : ascii) (r : string) :
  is_word d = false -> tokens (String d r) = String d "" :: tokens r.
Proof. intros H. cbn [tokens]. now rewrite H. Qed.

Lemma dot_column_tokens (rest : string) :
  word_here rest = false ->
  dot_column old_col rest = dot_then old_col (tokens rest).
Proof.
  intros R. destruct rest as [|d r]; [reflexivity|].
  simpl in R. rewrite (tokens_nonword d r R).
  cbn [dot_column dot_then]. rewrite <- andb_assoc, first_token_is.
  unfold is_dot. cbn [String.eqb].
  destruct (tokens r); [now rewrite !andb_false_r|].
  now destruct (Ascii.eqb d ".").
Qed.

(** The scan of [re.sub] for the alias pattern rewrites the qualified
    occurrences of the old column, token by token. *)
Lemma alias_scan_tokens (n : nat) :
  forall s p,
    String.length s <= n ->
    word_before p = false \/ word_here s = false ->
    fst (subn_scan (alias_replace_pattern old_col) ps p 0 s)
    = glue (requalify old_col new_col (tokens s)).
Proof.
  pose proof (old_nonempty old_col old_id) as N.
  pose proof (old_word old_col old_id) as W.
  induction n as [|n IH]; intros s p Len Inv.
  - destruct s; [|simpl in Len; lia].
    rewrite subn_scan_end; [reflexivity|]. now apply alias_nonword.
  - destruct s as [|c0 s0] eqn:Es.
    { rewrite subn_scan_end; [reflexivity|]. now apply alias_nonword. }
    rewrite <- Es in *.
    assert (Ns : s <> "") by (rewrite Es; discriminate).
    destruct (split_first_token s Ns)
      as (t & rest & E & Nt & T & [[Wt R]|[Wt L1]]).
    + assert (Lr : String.length rest <= n).
      { rewrite E, length_append in Len.
        destruct t; [congruence | simpl in Len; lia]. }
      assert (Pw : word_before p = false).
      { destruct Inv as [H|H]; [exact H|].
        rewrite E in H. destruct t as [|d t]; [congruence|].
        simpl in H, Wt. apply andb_prop in Wt as [Wd _]. congruence. }
      rewrite T, E. destruct t as [|c t]; [congruence|].
      simpl in Wt. apply andb_prop in Wt as [Wc Wt].
      pose proof (match_here_alias old_col old_id false p c t rest
                    Pw Wc Wt R) as M.
      assert (Q : is_qualifier (String c t)
                  && dot_then old_col (tokens rest)
                  = atom_matches ALetter c && dot_column old_col rest).
      { cbn [is_qualifier]. rewrite Wt, andb_true_r.
        now rewrite (dot_column_tokens rest R). }
      destruct (atom_matches ALetter c && dot_column old_col rest) eqn:B.
      * apply andb_prop in B as [_ B].
        destruct rest as [|d r]; [discriminate|]. cbn [dot_column] in B.
        apply andb_prop in B as [B Dr]. apply andb_prop in B as [Dd Pr].
        apply Ascii.eqb_eq in Dd. subst d. apply negb_true_iff in Dr.
        destruct (prefix_ci_split _ _ Pr) as (occ & rest2 & -> & C & Tk & Dk).
        rewrite Dk in Dr.
        assert (Wo : all_word occ = true).
        { apply (ci_eq_word old_col occ); [now rewrite ci_eq_sym | exact W]. }
        assert (No : occ <> "").
        { intros ->. destruct old_col; [congruence | discriminate]. }
        assert (Tr : tokens (String "." (occ ++ rest2))
                     = "." :: occ :: tokens rest2).
        { rewrite tokens_nonword by reflexivity.
          now rewrite (tokens_word_run rest2 occ Wo No Dr). }
        rewrite Tr in Q |- *. rewrite (requalify_hit _ _ _ _ _ _ Q).
        pose proof (ci_eq_length _ _ C) as Lo.
        change (String c t ++ String "." (occ ++ rest2))
          with (String c (t ++ String "." (occ ++ rest2))) in *.
        rewrite (subn_scan_some (alias_replace_pattern old_col) ps p c _ _
                   (String.length t + S (String.length occ)) M).
        2:{ rewrite consumed_advance_by. cbn [close_group consumed].
            rewrite consumed_advance_by. cbn [consumed String.length].
            cbn [Str.take]. rewrite Tk. cbn [String.length]. lia. }
        rewrite fst_scan_step.
        replace (t ++ String "." (occ ++ rest2))
          with ((t ++ String "." occ) ++ rest2)
          by (now rewrite append_assoc).
        replace (String.length t + S (String.length occ))
          with (String.length (t ++ String "." occ))
          by (rewrite length_append; reflexivity).
        rewrite subn_scan_skip.
        rewrite (IH rest2 _).
        -- unfold ps. cbn [expand]. rewrite grp_advance_by.
           cbn [close_group grp consumed].
           rewrite consumed_advance_by. cbn [consumed String.length].
           cbn [Nat.add Nat.sub Str.drop].
           change (S (String.length t)) with (String.length (String c t)).
           replace (String c ((t ++ String "." occ) ++ rest2))
             with (String c t ++ (String "." occ ++ rest2))
             by (simpl; now rewrite append_assoc).
           rewrite take_whole, expand_literal.
           cbn [glue]. rewrite !append_assoc. reflexivity.
        -- cbn [String.length] in Lr. rewrite length_append in Lr. lia.
        -- now right.
      * rewrite (requalify_skip _ _ _ _ Q).
        change (String c t ++ rest) with (String c (t ++ rest)) in *.
        rewrite (subn_scan_none (alias_replace_pattern old_col) ps p c _ M).
        rewrite (alias_scan_inside_word old_col ps rest t (Some c)) by auto.
        pose proof (IH rest (last_or (Some c) t) Lr (or_intror R)) as G.
        destruct (subn_scan (alias_replace_pattern old_col) ps
                    (last_or (Some c) t) 0 rest).
        cbn [fst glue] in *. now rewrite G.
    + destruct t as [|d [|e t]]; try discriminate. simpl in Wt.
      assert (Lr : String.length rest <= n)
        by (rewrite E in Len; simpl in Len; lia).
      rewrite T, E. change (String d "" ++ rest) with (String d rest).
      rewrite requalify_skip.
      2:{ cbn [is_qualifier].
          destruct (atom_matches ALetter d) eqn:L; [|reflexivity].
          apply letter_is_word in L. congruence. }
      rewrite (subn_scan_none (alias_replace_pattern old_col) ps p d rest)
        by (apply alias_nonword; exact Wt).
      pose proof (IH rest (Some d) Lr (or_introl Wt)) as G.
      destruct (subn_scan (alias_replace_pattern old_col) ps (Some d) 0 rest).
      cbn [fst glue] in *. now rewrite G.
Qed.

End AliasScan.
Section AliasSub.
Import Chars Re ReSpec Reviewer TokenSpec TokenFacts AliasSpec.

Lemma alias_sub_tokens (old_col new_col text : string) :
  is_identifier old_col = true -> plain new_col = true ->
  sub 1 (alias_replace_pattern old_col) (alias_template new_col) text
  = Some (glue (requalify old_col new_col (tokens text))).
Proof.
  intros I P. unfold sub, subn. rewrite (parse_alias_template new_col P).
  cbn [option_map]. f_equal.
  apply (alias_scan_tokens old_col new_col I (String.length text) text None
           (le_n _) (or_introl eq_refl)).
Qed.

Lemma star_greedy_found (a : atom) (k : cont) (s : string) :
  forall st r,
    star_greedy a k st s = Some r ->
    exists g rest, s = g ++ rest /\ k (advance_by st g) rest = Some r.
Proof.
  induction s as [|c s IH]; intros st r H; cbn [star_greedy] in H.
  - now exists "", "".
  - destruct (atom_matches a c); [|now exists "", (String c s)].
    destruct (star_greedy a k (advance st c) s) as [r'|] eqn:G.
    + injection H as <-. destruct (IH _ _ G) as (g & rest & -> & K).
      now exists (String c g), rest.
    + now exists "", (String c s).
Qed.

Lemma rmatch_star (a : atom) (st : mstate) (s : string) (k : cont) :
  rmatch (Star a) st s k = star_greedy a k st s.
Proof. reflexivity. Qed.

Lemma rmatch_bounded (name : string) (st : mstate) (s : string) (k : cont) :
  rmatch (bounded name) st s k
  = if bounded_hit name (prev st) s
    then k (advance_by st (Str.take (String.length name) s))
           (Str.drop (String.length name) s)
    else None.
Proof.
  unfold bounded, bounded_hit. rewrite rmatch_cat, rmatch_wordb.
  destruct (at_boundary (prev st) s); [|reflexivity]. cbn [andb].
  rewrite rmatch_cat, rmatch_lit.
  destruct (prefix_ci name s); [|reflexivity]. cbn [andb].
  rewrite rmatch_wordb, prev_advance_by. reflexivity.
Qed.

(** The pattern that guards the rewrite of standalone columns finds
    nothing in a text without the old table name as a word. *)
Lemma from_table_needs_word (old_table text : string) :
  is_identifier old_table = true ->
  count_words old_table text = 0 ->
  search (from_table_pattern old_table) text = false.
Proof.
  intros I Z.
  destruct (search (from_table_pattern old_table) text) eqn:S;
    [|reflexivity].
  exfalso. unfold search in S.
  apply search_from_found in S as (pre & s & st & -> & M).
  unfold match_here, from_table_pattern in M.
  rewrite rmatch_cat, rmatch_wordb in M.
  destruct (at_boundary _ s) in M; [|discriminate].
  rewrite rmatch_cat, rmatch_lit in M.
  destruct (prefix_ci "FROM" s) eqn:Pf; [|discriminate].
  destruct (prefix_ci_split _ _ Pf) as (from & r1 & -> & _ & Tf & Df).
  rewrite Tf, Df, rmatch_cat, rmatch_wordb in M.
  destruct (at_boundary _ r1) in M; [|discriminate].
  rewrite rmatch_cat, rmatch_star in M.
  apply star_greedy_found in M as (g & r2 & -> & M). cbv beta in M.
  change (Cat WordB (Cat (lit old_table) WordB)) with (bounded old_table)
    in M.
  rewrite rmatch_bounded in M.
  destruct (bounded_hit old_table _ r2) eqn:H; [|discriminate].
  rewrite !prev_advance_by in H. cbn [prev] in H.
  assert (F : search (bounded old_table) (pre ++ from ++ g ++ r2) = true).
  { unfold search. rewrite <- !append_assoc.
    apply search_from_app with
      (st := advance_by
               (MState (last_or None ((pre ++ from) ++ g)) 0 None)
               (Str.take (String.length old_table) r2)).
    rewrite match_here_bounded, !last_or_append, H. reflexivity. }
  rewrite (search_counts_words old_table _ I), Z in F. discriminate.
Qed.

(** One column rule on a text without the old table name as a word: the
    alias substitution, and nothing more. *)
Lemma column_rule_tokens (old_table old_col new_col text : string) :
  is_identifier old_table = true ->
  is_identifier old_col = true ->
  plain new_col = true ->
  count_words old_table (glue (requalify old_col new_col (tokens text)))
  = 0 ->
  apply_column_rule old_table old_col new_col text
  = Some (glue (requalify old_col new_col (tokens text))).
Proof.
  intros It Io P Z. unfold apply_column_rule.
  rewrite (alias_sub_tokens old_col new_col text Io P).
  now rewrite (from_table_needs_word old_table _ It Z).
Qed.

End AliasSub.
(** ** The column pass on tokens *)

Section Requalify.
Import Chars Re ReSpec Reviewer TokenSpec TokenFacts AliasSpec.

Lemma window_ind (P : list string -> Prop) :
  P [] -> (forall w, P [w]) -> (forall w d, P [w; d]) ->
  (forall w d c ts, P ts -> P (d :: c :: ts) -> P (w :: d :: c :: ts)) ->
  forall ts, P ts.
Proof.
  intros H0 H1 H2 H3 ts.
  enough (G : forall n ts, List.length ts <= n -> P ts) by (eapply G; eauto).
  clear ts. induction n as [|n IH]; intros ts L.
  - destruct ts; [exact H0 | simpl in L; lia].
  - destruct ts as [|w [|d [|c ts]]]; auto.
    apply H3; apply IH; simpl in *; lia.
Qed.




Lemma one_of_in (names : list string) (t o : string) :
  In o names -> ci_eq t o = true -> one_of names t = true.
Proof.
  intros Hin C. unfold one_of. apply existsb_exists. now exists o.
Qed.

Lemma one_of_none (names : list string) (t o : string) :
  one_of names t = false -> In o names -> ci_eq t o = false.
Proof.
  intros H Hin. destruct (ci_eq t o) eqn:C; [|reflexivity].
  now rewrite (one_of_in names t o Hin C) in H.
Qed.

Variable old_col new_col : string.

Lemma requalify_short (ts : list string) :
  List.length ts <= 2 -> requalify old_col new_col ts = ts.
Proof.
  destruct ts as [|w [|d [|c ts]]]; simpl; try reflexivity. lia.
Qed.



Lemma requalify_replaced (ts : list string) :
  replaced (fun a => ci_eq a old_col = true) (fun b => b = new_col)
    ts (requalify old_col new_col ts).
Proof.
  unfold replaced.
  induction ts as [|w|w d|w d c ts IH1 IH2] using window_ind.
  - constructor.
  - repeat constructor.
  - repeat constructor.
  - destruct (is_qualifier w && dot_then old_col (d :: c :: ts)) eqn:Q.
    + rewrite (requalify_hit _ _ _ _ _ _ Q).
      apply andb_prop in Q as [_ Q]. cbn [dot_then] in Q.
      apply andb_prop in Q as [_ Q].
      repeat (constructor; auto).
    + rewrite (requalify_skip _ _ _ _ Q). constructor; auto.
Qed.

(** Where no occurrence of the old column is qualified, the
    substitution changes nothing. *)
Lemma requalify_quiet (ts : list string) :
  has_qualified old_col ts = false -> requalify old_col new_col ts = ts.
Proof.
  induction ts as [|w ts IH]; [reflexivity|].
  cbn [has_qualified qualified_here]. intros H.
  apply orb_false_elim in H as [Q H].
  rewrite (requalify_skip _ _ _ _ Q). now rewrite (IH H).
Qed.



End Requalify.

Section Replaced.
Import Chars Re ReSpec Reviewer TokenSpec TokenFacts AliasSpec.

Variable Q F : string -> Prop.





Lemma forall_replaced (P : string -> Prop) (ts ts' : list string) :
  (forall b, F b -> P b) ->
  replaced Q F ts ts' -> Forall P ts -> Forall P ts'.
Proof.
  intros FP H. induction H as [|a b ts ts' Hab H IH]; intros A;
    [constructor|].
  inversion A as [|? ? Pa A']; subst. constructor; [|auto].
  destruct Hab as [->|[_ Hb]]; auto.
Qed.

Hypothesis Q_identifier : forall a, Q a -> is_identifier a = true.
Hypothesis F_identifier : forall b, F b -> is_identifier b = true.

Lemma word_here_replaced (ts ts' : list string) :
  replaced Q F ts ts' -> word_here (glue ts') = word_here (glue ts).
Proof.
  intros H. induction H as [|a b ts ts' Hab H IH]; [reflexivity|].
  cbn [glue]. destruct Hab as [->|[Ha Hb]].
  - destruct a as [|c a]; [exact IH | reflexivity].
  - rewrite (word_here_identifier _ _ (Q_identifier _ Ha)).
    now rewrite (word_here_identifier _ _ (F_identifier _ Hb)).
Qed.

Lemma identifier_not_other (t : string) :
  is_identifier t = true -> other_token t = false.
Proof.
  intros I. unfold other_token.
  pose proof (word_here_identifier t "" I) as W.
  rewrite append_empty_r in W. now rewrite W.
Qed.

Lemma well_formed_replaced (ts ts' : list string) :
  replaced Q F ts ts' ->
  well_formed ts = true -> well_formed ts' = true.
Proof.
  intros H. induction H as [|a b ts ts' Hab H IH]; [reflexivity|].
  cbn [well_formed]. intros W. apply andb_prop in W as [Wa W].
  rewrite (IH W), andb_true_r, (word_here_replaced _ _ H).
  destruct Hab as [->|[Ha Hb]]; [exact Wa|].
  rewrite (identifier_not_other _ (Q_identifier _ Ha)), orb_false_r in Wa.
  apply andb_prop in Wa as [_ Wa].
  now rewrite (F_identifier _ Hb), Wa.
Qed.

End Replaced.
Section ColumnPass.
Import Chars Re ReSpec Reviewer TokenSpec TokenFacts RuleSets AliasSpec.

Variable old_tables old_cols : list string.

Lemma sound_replaced (r : string * string) (ts : list string) :
  replaced (fun a => ci_eq a (fst r) = true) (fun b => b = snd r)
    ts (requalify (fst r) (snd r) ts).
Proof. apply requalify_replaced. Qed.

Lemma requalify_steady (r : string * string) (ts : list string) :
  sound_rule old_tables old_cols r ->
  steady old_tables ts ->
  steady old_tables (requalify (fst r) (snd r) ts).
Proof.
  intros (Io & In' & Hin & Fc & Ft) (W & A).
  pose proof (sound_replaced r ts) as R. split.
  - refine (well_formed_replaced _ _ _ _ ts _ R W).
    + intros a C. apply identifier_nonempty_word in Io as [N Wo].
      apply identifier_nonempty_word. split.
      * intros ->. destruct (fst r); [congruence | discriminate].
      * apply (ci_eq_word (fst r) a); [now rewrite ci_eq_sym | exact Wo].
    + now intros b ->.
  - refine (forall_replaced _ _ _ ts _ _ R A). now intros b ->.
Qed.


Lemma requalify_all_steady (rules : list (string * string)) :
  Forall (sound_rule old_tables old_cols) rules ->
  forall ts,
    steady old_tables ts -> steady old_tables (requalify_all rules ts).
Proof.
  unfold requalify_all. intros H. induction H as [|r rules Hr H IH];
    intros ts S; [exact S|].
  cbn [fold_left]. apply IH. now apply requalify_steady.
Qed.


Lemma requalify_all_quiet (rules : list (string * string))
  (ts : list string) :
  Forall (fun o => has_qualified o ts = false) (List.map fst rules) ->
  requalify_all rules ts = ts.
Proof.
  unfold requalify_all. induction rules as [|r rules IH]; [reflexivity|].
  cbn [List.map fold_left]. intros H. inversion H as [|? ? H1 H2]; subst.
  rewrite (requalify_quiet _ _ _ H1). auto.
Qed.


Lemma steady_no_table (ts : list string) (old_table : string) :
  steady old_tables ts -> In old_table old_tables ->
  count_words old_table (glue ts) = 0.
Proof.
  intros (W & A) Hin. unfold count_words. rewrite (tokens_glue ts W).
  clear W. induction A as [|t ts Ht A IH]; [reflexivity|].
  cbn [filter]. now rewrite (one_of_none old_tables t old_table Ht Hin).
Qed.

(** The column rules of one group on a text without old table names:
    the alias substitutions, one after the other. *)
Lemma column_rules_tokens (old_table : string)
  (cols : list (string * string)) :
  is_identifier old_table = true -> In old_table old_tables ->
  Forall (sound_rule old_tables old_cols) cols ->
  forall ts,
    steady old_tables ts ->
    apply_column_rules old_table cols (glue ts)
    = Some (glue (requalify_all cols ts)).
Proof.
  intros It Hin H. unfold requalify_all.
  induction H as [|[o n] cols Hr H IH]; intros ts S; [reflexivity|].
  cbn [apply_column_rules fold_left fst snd].
  pose proof (requalify_steady (o, n) ts Hr S) as S1. cbn [fst snd] in S1.
  destruct Hr as (Io & In' & _). cbn [fst snd] in Io, In'.
  rewrite (column_rule_tokens old_table o n (glue ts) It Io
             (identifier_plain n In')).
  - rewrite (tokens_glue ts (proj1 S)). now apply IH.
  - rewrite (tokens_glue ts (proj1 S)). now apply steady_no_table.
Qed.

Lemma column_groups_tokens (new_to_old : table_dict) (cm : column_dict) :
  (forall g old_table,
      Dict.get g new_to_old = Some old_table ->
      is_identifier old_table = true /\ In old_table old_tables) ->
  Forall (sound_rule old_tables old_cols) (flat_map snd cm) ->
  forall ts,
    steady old_tables ts ->
    apply_column_groups new_to_old cm (glue ts)
    = Some (glue (requalify_all (active_rules new_to_old cm) ts)).
Proof.
  intros G. induction cm as [|[g cols] cm IH]; intros H ts S;
    [reflexivity|].
  cbn [flat_map snd] in H. apply Forall_app in H as [Hc H].
  cbn [apply_column_groups active_rules flat_map fst snd].
  unfold requalify_all. rewrite fold_left_app.
  fold (active_rules new_to_old cm).
  destruct (Dict.get g new_to_old) as [ot|] eqn:E;
    [|now apply IH].
  destruct (Str.truthy ot); [|now apply IH].
  destruct (G g ot E) as [It Hin].
  rewrite (column_rules_tokens ot cols It Hin Hc ts S).
  apply IH; [exact H|]. now apply requalify_all_steady.
Qed.

End ColumnPass.
(** ** Idempotence of the corrections *)

Section Idempotence.
Import Chars Re ReSpec Reviewer TokenSpec TokenFacts RuleSets.
Import CorrectionSpec AliasSpec.

Lemma get_in {V} (k : string) (v : V) (d : list (string * V)) :
  Dict.get k d = Some v -> In (k, v) d.
Proof.
  induction d as [|[k' v'] d IH]; simpl; [discriminate|].
  destruct (String.eqb k k') eqn:E.
  - apply String.eqb_eq in E. intros H. injection H as ->. subst. now left.
  - intros H. right. now apply IH.
Qed.

Lemma new_to_old_in (tm : table_dict) (g old_table : string) :
  Dict.get g (new_to_old_tables tm) = Some old_table ->
  In (old_table, g) tm.
Proof.
  intros H. apply get_in, of_items_in, in_map_iff in H.
  destruct H as ([o n] & E & Hin). simpl in E. now injection E as <- <-.
Qed.

Lemma one_of_false (names : list string) (t : string) :
  (forall o, In o names -> ci_eq t o = false) -> one_of names t = false.
Proof.
  intros H. unfold one_of. induction names as [|o names IH]; [reflexivity|].
  cbn [existsb]. rewrite (H o (or_introl eq_refl)). apply IH.
  intros o' Ho. apply H. now right.
Qed.

Variable tm : table_dict.
Variable cm : column_dict.
Hypothesis names_ok : identifier_names tm cm = true.
Hypothesis collisions_ok : no_name_collisions tm cm = true.

Lemma old_identifier (o : string) :
  In o (old_names tm cm) -> is_identifier o = true.
Proof.
  unfold identifier_names in names_ok.
  apply andb_prop in names_ok as [H _].
  rewrite forallb_forall in H. apply H.
Qed.

Lemma new_identifier (n : string) :
  In n (new_names tm cm) -> is_identifier n = true.
Proof.
  unfold identifier_names in names_ok.
  apply andb_prop in names_ok as [_ H].
  rewrite forallb_forall in H. apply H.
Qed.

Lemma new_is_not_old (n o : string) :
  In n (new_names tm cm) -> In o (old_names tm cm) -> ci_eq n o = false.
Proof.
  intros Hn Ho. unfold no_name_collisions in collisions_ok.
  rewrite forallb_forall in collisions_ok.
  specialize (collisions_ok n Hn). rewrite forallb_forall in collisions_ok.
  specialize (collisions_ok o Ho). now apply negb_true_iff.
Qed.

Lemma old_table_in (o n : string) : In (o, n) tm -> In o (old_names tm cm).
Proof.
  intros H. unfold old_names. apply in_or_app. left.
  apply in_map_iff. now exists (o, n).
Qed.

Lemma new_table_in (o n : string) : In (o, n) tm -> In n (new_names tm cm).
Proof.
  intros H. unfold new_names. apply in_or_app. left.
  apply in_map_iff. now exists (o, n).
Qed.

Lemma old_column_in (o : string) :
  In o (old_columns cm) -> In o (old_names tm cm).
Proof. intros H. unfold old_names. apply in_or_app. now right. Qed.

Lemma column_rule_in (r : string * string) :
  In r (flat_map snd cm) ->
  In (fst r) (old_columns cm) /\ In (snd r) (new_names tm cm).
Proof.
  intros H. apply in_flat_map in H as (g & Hg & Hr). split.
  - unfold old_columns. apply in_flat_map. exists g. split; [exact Hg|].
    now apply in_map.
  - unfold new_names. apply in_or_app. right.
    apply in_flat_map. exists g. split; [exact Hg|]. now apply in_map.
Qed.

Lemma tables_identifiers : identifier_rules tm = true.
Proof.
  unfold identifier_rules. apply forallb_forall. intros [o n] H.
  cbn [fst snd].
  now rewrite (old_identifier o (old_table_in o n H)),
    (new_identifier n (new_table_in o n H)).
Qed.

Lemma tables_no_collision : no_collision tm.
Proof.
  intros o n o' n' H H'.
  exact (new_is_not_old n o' (new_table_in o n H) (old_table_in o' n' H')).
Qed.

Lemma columns_sound :
  Forall (sound_rule (List.map fst tm) (old_columns cm)) (flat_map snd cm).
Proof.
  apply Forall_forall. intros r Hr.
  destruct (column_rule_in r Hr) as [Ho Hn]. repeat split.
  - exact (old_identifier _ (old_column_in _ Ho)).
  - exact (new_identifier _ Hn).
  - exact Ho.
  - apply one_of_false. intros o H.
    exact (new_is_not_old _ _ Hn (old_column_in _ H)).
  - apply one_of_false. intros o H.
    apply in_map_iff in H as ([o' n'] & <- & H).
    exact (new_is_not_old _ _ Hn (old_table_in _ _ H)).
Qed.

Lemma old_tables_found (g old_table : string) :
  Dict.get g (new_to_old_tables tm) = Some old_table ->
  is_identifier old_table = true /\ In old_table (List.map fst tm).
Proof.
  intros H. apply new_to_old_in in H. split.
  - exact (old_identifier _ (old_table_in _ _ H)).
  - apply in_map_iff. now exists (old_table, g).
Qed.



(** The tokens of the text after the table pass. *)
Lemma table_pass_steady (text : string) :
  steady (List.map fst tm) (List.map (rename_token_all tm) (tokens text)).
Proof.
  split.
  - exact (proj1 (rename_all_well_formed tm (tokens text)
                    tables_identifiers (tokens_well_formed text))).
  - apply Forall_forall. intros t Ht.
    apply in_map_iff in Ht as (t0 & <- & _).
    apply one_of_false. intros o Ho.
    apply in_map_iff in Ho as ([o' n'] & <- & Ho).
    exact (renamed_token_not_old tm t0 o' n' tables_no_collision Ho).
Qed.



Lemma steady_column_pass (ts : list string) :
  steady (List.map fst tm) ts ->
  _apply_column_mappings tm cm (glue ts)
  = Some (glue (requalify_all (active_rules (new_to_old_tables tm) cm) ts)).
Proof.
  intros S. unfold _apply_column_mappings.
  exact (column_groups_tokens (List.map fst tm) (old_columns cm)
           (new_to_old_tables tm) cm old_tables_found columns_sound ts S).
Qed.

Lemma active_rules_sound :
  Forall (sound_rule (List.map fst tm) (old_columns cm))
    (active_rules (new_to_old_tables tm) cm).
Proof.
  pose proof columns_sound as H. rewrite Forall_forall in H.
  apply Forall_forall. intros r Hr. apply H.
  unfold active_rules in Hr. apply in_flat_map in Hr as (g & Hg & Hr).
  apply in_flat_map. exists g. split; [exact Hg|].
  destruct (Dict.get (fst g) (new_to_old_tables tm)) as [ot|];
    [|destruct Hr].
  destruct (Str.truthy ot); [exact Hr | destruct Hr].
Qed.

End Idempotence.

Section IdempotenceClaim.
Import Chars Re ReSpec Reviewer TokenSpec TokenFacts RuleSets.
Import CorrectionSpec AliasSpec.

(** The corrections, token by token: the table pass, then the alias
    substitutions of the column rules. *)
Lemma corrections_tokens (tm : table_dict) (cm : column_dict)
  (text : string) :
  identifier_names tm cm = true ->
  no_name_collisions tm cm = true ->
  apply_corrections tm cm text
  = Some (glue (requalify_all (active_rules (new_to_old_tables tm) cm)
                  (List.map (rename_token_all tm) (tokens text)))).
Proof.
  intros I C. unfold apply_corrections.
  rewrite (table_pass_fold tm (tables_identifiers tm cm I)).
  rewrite (fold_rename_words tm _ (tables_identifiers tm cm I)).
  unfold rename_words_all.
  exact (steady_column_pass tm cm I C _ (table_pass_steady tm cm I C text)).
Qed.



(** A new name that is not an identifier can carry an old name inside
    it without being equal to it: with the table rule
    [orders -> sales.orders] the second pass rewrites the text again. *)
Lemma schema_name_not_idempotent :
  no_name_collisions schema_tables [] = true /\
  apply_corrections schema_tables [] "SELECT * FROM orders"
  = Some "SELECT * FROM sales.orders" /\
  apply_corrections schema_tables [] "SELECT * FROM sales.orders"
  = Some "SELECT * FROM sales.sales.orders".
Proof. repeat split. Qed.

(** X19.  For a mapping set whose names are all identifiers and in
    which no new name is an old name up to case, the corrections are
    the table pass followed by the alias substitutions and nothing
    else: every word is sent through the table rules, then an old
    column is renamed where a word that starts with a letter or an
    underscore qualifies it, whatever that word is.  A column that is
    not qualified is never renamed: once the table pass has run, the
    old table name that the standalone rewrite looks for after FROM is
    no longer in the text. *)
Theorem corrections_rename_tokens (tm : table_dict) (cm : column_dict)
  (text : string) :
  identifier_names tm cm = true ->
  no_name_collisions tm cm = true ->
  apply_corrections tm cm text
  = Some (glue (requalify_all (active_rules (new_to_old_tables tm) cm)
                  (List.map (rename_token_all tm) (tokens text)))) /\
  (has_qualified_any (old_columns cm)
     (List.map (rename_token_all tm) (tokens text)) = false ->
   apply_corrections tm cm text = _apply_table_mappings tm text).
Proof.
  intros I C. split; [exact (corrections_tokens tm cm text I C)|].
  intros Q. rewrite (corrections_tokens tm cm text I C).
  rewrite (table_pass_fold tm (tables_identifiers tm cm I)).
  rewrite (fold_rename_words tm _ (tables_identifiers tm cm I)).
  unfold rename_words_all. do 2 f_equal.
  apply requalify_all_quiet. apply Forall_forall. intros o Ho.
  unfold has_qualified_any in Q.
  destruct (has_qualified o _) eqn:H; [|reflexivity].
  rewrite <- Q. symmetry. apply existsb_exists. exists o. split; [|exact H].
  apply in_map_iff in Ho as (r & <- & Hr).
  pose proof (active_rules_sound tm cm I C) as S.
  rewrite Forall_forall in S. exact (proj1 (proj2 (proj2 (S r Hr)))).
Qed.

Lemma corrections_rename_tokens_witness :
  apply_corrections ReviewerSpec.customers_tables
    ReviewerSpec.customers_columns
    "SELECT cust_id, c.cust_id FROM customers c WHERE x.Cust_ID = 1"
  = Some "SELECT cust_id, c.client_id FROM client c WHERE x.client_id = 1".
Proof.
  rewrite (proj1 (corrections_rename_tokens ReviewerSpec.customers_tables
                    ReviewerSpec.customers_columns _ eq_refl eq_refl)).
  reflexivity.
Defined.

End IdempotenceClaim.
